(** * Render-farm coordinator: batching, job queue, completion, worker timeouts

    A shallow embedding of
      - [Development/distributed_renderers.py]  (frame-range parsing, batching),
      - [Development/job_queue_manager.py]      (the SQLite store and the
                                                 in-memory job cache),
      - [Distribution/server.py]                (the [/api/jobs/complete]
                                                 route),
      - [Source/worker_node.py]                 (render timeout budgets).

    Conventions.  A Python exception is [None] of an [option], or the
    ending [raises] where the state it leaves behind matters.  The SQLite
    tables are lists of rows in rowid order; an [UPDATE] is a [map] over the
    rows, a [DELETE] a [filter]; a connection that is dropped before its
    [commit] leaves the tables as they were.  [CURRENT_TIMESTAMP],
    [datetime.now()] and [time.time()] are an explicit argument [now].  A
    Python float, and the [REAL] column [jobs.progress], is the value of a
    binary64 number, as a fraction in lowest terms. *)

From Stdlib Require Import ZArith QArith Qround Qpower Qabs List String Ascii.
From Stdlib Require Import Bool Lia Lqa.
From Stdlib Require Import DecimalString DecimalPos Permutation Sorted.
Import ListNotations.

Local Open Scope string_scope.
Local Open Scope list_scope.
Local Open Scope Z_scope.

(** ** Python strings and integers *)

Module Py.

(** [str(n)] for an [int]. *)
Definition str_of_int (n : Z) : string :=
  NilZero.string_of_int (Z.to_int n).

(** The ASCII characters for which [str.isspace] holds. *)
Definition isspace (c : ascii) : bool :=
  let n := nat_of_ascii c in
  ((9 <=? n) && (n <=? 13) || (28 <=? n) && (n <=? 32))%nat.

Fixpoint lstrip (s : list ascii) : list ascii :=
  match s with
  | c :: s' => if isspace c then lstrip s' else s
  | [] => []
  end.

Definition strip_chars (s : list ascii) : list ascii :=
  rev (lstrip (rev (lstrip s))).

(** [s.strip()] *)
Definition strip (s : string) : string :=
  string_of_list_ascii (strip_chars (list_ascii_of_string s)).

(** [c in s] for a one-character [c]. *)
Fixpoint contains (c : ascii) (s : string) : bool :=
  match s with
  | EmptyString => false
  | String d s' => Ascii.eqb c d || contains c s'
  end.

(** [s.split(c)] for a one-character separator: never empty. *)
Fixpoint split (c : ascii) (s : string) : list string :=
  match s with
  | EmptyString => [EmptyString]
  | String d s' =>
      if Ascii.eqb c d then EmptyString :: split c s'
      else match split c s' with
           | w :: ws => String d w :: ws
           | [] => [String d EmptyString]
           end
  end.

Definition digit_of (c : ascii) : option Z :=
  let n := nat_of_ascii c in
  if ((48 <=? n) && (n <=? 57))%nat then Some (Z.of_nat (n - 48)) else None.

(** Digits of an integer literal, most significant first; a single
    underscore is allowed between two digits.  [acc] is the value read so
    far, [after_digit] tells whether the previous character was a digit. *)
Fixpoint digits (acc : Z) (after_digit : bool) (s : list ascii) : option Z :=
  match s with
  | [] => if after_digit then Some acc else None
  | c :: s' =>
      match digit_of c with
      | Some d => digits (10 * acc + d) true s'
      | None =>
          if Ascii.eqb c "_" && after_digit
          then match s' with
               | [] => None
               | _ => digits acc false s'
               end
          else None
      end
  end.

(** [int(s)] in base ten: surrounding white space, an optional sign, then
    digits.  [None] is [ValueError]. *)
Definition int (s : string) : option Z :=
  match strip_chars (list_ascii_of_string s) with
  | c :: s' =>
      if Ascii.eqb c "-" then option_map Z.opp (digits 0 false s')
      else if Ascii.eqb c "+" then digits 0 false s'
      else digits 0 false (c :: s')
  | [] => None
  end.

(** [list(range(start, stop))] *)
Definition range (start stop : Z) : list Z :=
  map (fun k => start + Z.of_nat k) (seq 0 (Z.to_nat (stop - start))).

(** [list(range(0, stop, step))] for [step > 0]. *)
Definition range_step (stop step : nat) : list nat :=
  map (fun k => (k * step)%nat) (seq 0 ((stop + step - 1) / step)).

(** [l[i:j]] for [0 <= i <= j]. *)
Definition slice {A} (l : list A) (i j : nat) : list A :=
  firstn (j - i) (skipn i l).

Fixpoint insert (x : Z) (l : list Z) : list Z :=
  match l with
  | [] => [x]
  | y :: l' => if x <=? y then x :: l else y :: insert x l'
  end.

(** [sorted(l)] on integers. *)
Fixpoint sorted (l : list Z) : list Z :=
  match l with
  | [] => []
  | x :: l' => insert x (sorted l')
  end.

(** What [list(set(l))] may be: the distinct elements of [l] in an order
    the language leaves open. *)
Definition set_listing (enum : list Z -> list Z) : Prop :=
  forall l, NoDup (enum l) /\ (forall x, In x (enum l) <-> In x l).

(** One listing: first occurrences dropped, last ones kept. *)
Definition list_set (l : list Z) : list Z := nodup Z.eq_dec l.

(** Another one, in the opposite order. *)
Definition list_set_rev (l : list Z) : list Z := rev (nodup Z.eq_dec l).

End Py.

(** ** distributed_renderers.py *)

Module DistributedRenderer.

(** The body of the [for part in parts] loop of [parse_frame_range]: the
    frames one part contributes. *)
Definition parse_part (part : string) : option (list Z) :=
  let part := Py.strip part in
  if Py.contains "-" part then
    match map Py.int (Py.split "-" part) with
    | [Some start; Some end_] => Some (Py.range start (end_ + 1))
    | _ => None
    end
  else
    match Py.int part with
    | Some n => Some [n]
    | None => None
    end.

Fixpoint parse_parts (parts : list string) (frames : list Z)
  : option (list Z) :=
  match parts with
  | [] => Some frames
  | part :: parts' =>
      match parse_part part with
      | Some fs => parse_parts parts' (frames ++ fs)
      | None => None
      end
  end.

(** [parse_frame_range], with the order in which [set] lists its elements
    as a parameter. *)
Definition parse_frame_range_with (enum : list Z -> list Z)
    (frame_range_str : string) : option (list Z) :=
  match parse_parts (Py.split "," frame_range_str) [] with
  | Some frames => Some (Py.sorted (enum frames))
  | None => None
  end.

Definition parse_frame_range : string -> option (list Z) :=
  parse_frame_range_with Py.list_set.

(** The label of one batch: ["a"] for a single frame, ["a-b"] otherwise. *)
Definition batch_label (batch_frames : list Z) : string :=
  match batch_frames with
  | [a] => Py.str_of_int a
  | _ => (Py.str_of_int (hd 0 batch_frames) ++ "-"
          ++ Py.str_of_int (last batch_frames 0))%string
  end.

(** The slices [frames[i:i + batch_size]] the loop of [create_batches]
    visits. *)
Definition batch_slices (frames : list Z) (batch_size : nat)
  : list (list Z) :=
  map (fun i => Py.slice frames i (i + batch_size)%nat)
      (Py.range_step (List.length frames) batch_size).

(** [create_batches]: [range] raises on a zero step and is empty on a
    negative one. *)
Definition create_batches (frames : list Z) (batch_size : Z)
  : option (list string) :=
  if batch_size =? 0 then None
  else if batch_size <? 0 then Some []
  else Some (map batch_label (batch_slices frames (Z.to_nat batch_size))).

(** The sub-job rows [create_sub_jobs] inserts: id suffix and batch
    number count from 1. *)
Definition batch_numbers (batches : list string) : list (nat * string) :=
  combine (seq 1 (List.length batches)) batches.

(** [parse_frame_range] followed by [create_batches], as in
    [process_job]. *)
Definition batches_of_with (enum : list Z -> list Z)
    (frame_range_str : string) (batch_size : Z) : option (list string) :=
  match parse_frame_range_with enum frame_range_str with
  | Some frames => create_batches frames batch_size
  | None => None
  end.

Definition batches_of : string -> Z -> option (list string) :=
  batches_of_with Py.list_set.

(** The frames a batch label denotes to the worker that renders it
    ([-F a-b], [/start a /end b]). *)
Definition frames_of_label (label : string) : option (list Z) :=
  parse_part label.

End DistributedRenderer.

Import DistributedRenderer.

(** ** JSON values *)

Module Json.

(** What [json.loads] returns.  A dict is an association list in which
    the first entry of a key counts.  A number is given by its value; the
    [NaN] and [Infinity] that [json.loads] reads as well behave like any
    other non-zero number in what follows. *)
#[warnings="-register-all"] Inductive value : Set :=
| Null
| Bool (b : bool)
| Number (q : Q)
| Str (s : string)
| Array (items : list value)
| Object (entries : list (string * value)).

(** [d.get(key, default)] *)
Definition get (key : string) (entries : list (string * value))
    (default : value) : value :=
  match find (fun kv => String.eqb (fst kv) key) entries with
  | Some kv => snd kv
  | None => default
  end.

(** [bool(v)] *)
Definition truthy (v : value) : bool :=
  match v with
  | Null => false
  | Bool b => b
  | Number q => negb (Qeq_bool q 0)
  | Str s => negb (String.eqb s "")
  | Array items => negb (Nat.eqb (List.length items) 0)
  | Object entries => negb (Nat.eqb (List.length entries) 0)
  end.

(** Whether [f"{v:.1f}"] is defined: on numbers and booleans. *)
Definition formats_f (v : value) : bool :=
  match v with
  | Bool _ | Number _ => true
  | _ => false
  end.

(** Whether [for x in v] is defined. *)
Definition iterable (v : value) : bool :=
  match v with
  | Str _ | Array _ | Object _ => true
  | _ => false
  end.


End Json.

(** ** Python floats *)

Module Double.

Local Open Scope Q_scope.

(** [2 ** k] *)
Definition pow2 (k : Z) : Q := 2 ^ k.

(** The integer nearest to [x]; of two nearest ones, the even one. *)
Definition rne (x : Q) : Z :=
  let f := Qfloor x in
  match Qcompare (x - inject_Z f) (1 # 2) with
  | Lt => f
  | Gt => (f + 1)%Z
  | Eq => if Z.even f then f else (f + 1)%Z
  end.

(** [floor (log2 q)] for [q > 0]. *)
Definition flog2 (q : Q) : Z :=
  let k := (Z.log2 (Qnum q) - Z.log2 (Zpos (Qden q)))%Z in
  if Qle_bool (pow2 k) q then k else (k - 1)%Z.

(** The exponent of the last binary place of the binary64 numbers around
    [q > 0]: 53 significant bits in the normal range, [2 ** -1074]
    below it. *)
Definition ulp_exp (q : Q) : Z := Z.max (flog2 q - 52) (-1074).

Definition round_pos (q : Q) : Q :=
  inject_Z (rne (q / pow2 (ulp_exp q))) * pow2 (ulp_exp q).

(** The value of the binary64 number nearest to [q], ties to even, as a
    fraction in lowest terms; for [q] below [2 ** 1024] in absolute value,
    where nothing overflows. *)
Definition round (q : Q) : Q :=
  Qred match Qcompare q 0 with
       | Eq => 0
       | Gt => round_pos q
       | Lt => - round_pos (- q)
       end.

(** [a / b] on two ints: the quotient, correctly rounded. *)
Definition div_int (a b : Z) : Q := round (inject_Z a / inject_Z b).

(** [x * y] on two floats, or on a float and an int that is a float. *)
Definition mul (x y : Q) : Q := round (x * y).

End Double.

(** ** job_queue_manager.py: the store and the job cache *)

Module JobQueueManager.

(** The values the code writes to a [status] column. *)
Inductive status : Set :=
  pending | running | paused | cancelled | completed | failed.

Definition status_eqb (a b : status) : bool :=
  match a, b with
  | pending, pending | running, running | paused, paused
  | cancelled, cancelled | completed, completed | failed, failed => true
  | _, _ => false
  end.

(** The submission payload, stored as JSON in [jobs.job_data] and handed
    back to workers; [priority] may be absent. *)
Record job_data : Set := mk_job_data {
  job_title : string;
  renderer : string;
  frame_range : string;
  batch_size : Z;
  priority : option string;
  extra_args : string
}.

(** A row of [jobs].  The columns [worker_id] and [error_message], which
    no statement writes, are left out. *)
Record job_row : Set := mk_job_row {
  j_id : string;
  j_title : string;
  j_renderer : string;
  j_status : status;
  j_progress : Q;
  j_priority : string;
  j_job_data : job_data;
  j_created_at : Z;
  j_started_at : option Z;
  j_completed_at : option Z
}.

(** A row of [sub_jobs]. *)
Record sub_job_row : Set := mk_sub_job_row {
  sj_id : string;
  sj_parent_job_id : string;
  sj_batch_number : nat;
  sj_frame_range : string;
  sj_status : status;
  sj_worker_id : option string;
  sj_started_at : option Z;
  sj_completed_at : option Z;
  sj_error_message : option string
}.

(** The [metrics] of a completion report: whatever JSON value the
    request carried. *)
Definition metrics : Set := Json.value.

(** An entry of [job_cache]: the dict built by [_cache_pending_jobs],
    with the keys later calls add. *)
Record cached_job : Set := mk_cached_job {
  c_sub_job_id : string;
  c_parent_job_id : string;
  c_frame_range : string;
  c_job_data : job_data;
  c_status : status;
  c_cached_at : Z;
  c_worker_id : option string;
  c_started_at : option Z;
  c_completed_at : option Z;
  c_error_message : option string;
  c_metrics : option metrics
}.

(** The manager: the two tables in rowid order, and [job_cache], an
    [OrderedDict], as an association list in insertion order.  The
    [workers] table and [worker_cache] play no part in job dispatch and
    are left out. *)
Record manager : Set := mk_manager {
  db_jobs : list job_row;
  db_sub_jobs : list sub_job_row;
  job_cache : list (string * cached_job);
  cache_max_size : nat;
  cache_enabled : bool;
  cache_optimization_counter : option nat
}.

(** [__init__] on a fresh database file. *)
Definition init : manager :=
  mk_manager [] [] [] 1000 true None.

Definition set_db (m : manager) (js : list job_row)
    (sjs : list sub_job_row) : manager :=
  mk_manager js sjs (job_cache m) (cache_max_size m) (cache_enabled m)
             (cache_optimization_counter m).

Definition set_job_cache (m : manager) (c : list (string * cached_job))
  : manager :=
  mk_manager (db_jobs m) (db_sub_jobs m) c (cache_max_size m)
             (cache_enabled m) (cache_optimization_counter m).

Definition set_counter (m : manager) (n : nat) : manager :=
  mk_manager (db_jobs m) (db_sub_jobs m) (job_cache m) (cache_max_size m)
             (cache_enabled m) (Some n).

Definition set_j_status (j : job_row) (s : status) : job_row :=
  mk_job_row (j_id j) (j_title j) (j_renderer j) s (j_progress j)
             (j_priority j) (j_job_data j) (j_created_at j)
             (j_started_at j) (j_completed_at j).

Definition set_j_started (j : job_row) (s : status) (now : Z) : job_row :=
  mk_job_row (j_id j) (j_title j) (j_renderer j) s (j_progress j)
             (j_priority j) (j_job_data j) (j_created_at j)
             (Some now) (j_completed_at j).

Definition set_j_completed (j : job_row) (s : status) (now : Z) : job_row :=
  mk_job_row (j_id j) (j_title j) (j_renderer j) s (j_progress j)
             (j_priority j) (j_job_data j) (j_created_at j)
             (j_started_at j) (Some now).

Definition set_j_progress (j : job_row) (p : Q) : job_row :=
  mk_job_row (j_id j) (j_title j) (j_renderer j) (j_status j) p
             (j_priority j) (j_job_data j) (j_created_at j)
             (j_started_at j) (j_completed_at j).

Definition set_sj_status (sj : sub_job_row) (s : status) : sub_job_row :=
  mk_sub_job_row (sj_id sj) (sj_parent_job_id sj) (sj_batch_number sj)
                 (sj_frame_range sj) s (sj_worker_id sj) (sj_started_at sj)
                 (sj_completed_at sj) (sj_error_message sj).

Definition set_sj_running (sj : sub_job_row) (worker_id : string) (now : Z)
  : sub_job_row :=
  mk_sub_job_row (sj_id sj) (sj_parent_job_id sj) (sj_batch_number sj)
                 (sj_frame_range sj) running (Some worker_id) (Some now)
                 (sj_completed_at sj) (sj_error_message sj).

Definition set_sj_done (sj : sub_job_row) (s : status) (now : Z)
    (error_message : option string) : sub_job_row :=
  mk_sub_job_row (sj_id sj) (sj_parent_job_id sj) (sj_batch_number sj)
                 (sj_frame_range sj) s (sj_worker_id sj) (sj_started_at sj)
                 (Some now) error_message.

(** [UPDATE t SET ... WHERE cond]: every row that meets [cond] is
    rewritten, in place. *)
Definition update {A} (cond : A -> bool) (set : A -> A) (rows : list A)
  : list A :=
  map (fun r => if cond r then set r else r) rows.

Definition lower_char (c : ascii) : ascii :=
  let n := nat_of_ascii c in
  if ((65 <=? n) && (n <=? 90))%nat then ascii_of_nat (n + 32) else c.

(** [s.lower()] on ASCII text. *)
Fixpoint lower (s : string) : string :=
  match s with
  | EmptyString => EmptyString
  | String c s' => String (lower_char c) (lower s')
  end.

(** [submit_job]; the fresh [uuid4] and the time stamp are arguments.  A
    taken id violates the primary key: [None]. *)
Definition submit_job (job_id : string) (now : Z) (data : job_data)
    (m : manager) : option manager :=
  if existsb (fun j => String.eqb (j_id j) job_id) (db_jobs m) then None
  else
    let prio := lower (match priority data with
                       | Some p => p
                       | None => "normal"
                       end) in
    Some (set_db m
            (db_jobs m ++
             [mk_job_row job_id (job_title data) (renderer data) pending 0
                         prio data now None None])
            (db_sub_jobs m)).

(** [f"{n:03d}"] *)
Definition pad3 (n : nat) : string :=
  let s := NilZero.string_of_uint (Nat.to_uint n) in
  (match String.length s with
   | 1%nat => "00" ++ s
   | 2%nat => "0" ++ s
   | _ => s
   end)%string.

Definition sub_job_id_of (job_id : string) (batch_number : nat) : string :=
  (job_id ++ "_batch_" ++ pad3 batch_number)%string.

(** [create_sub_jobs] of [distributed_renderers.py]: one pending row per
    batch, numbered from 1; a taken id aborts the call before its
    commit. *)
Fixpoint insert_sub_jobs (job_id : string) (rows : list (nat * string))
    (sjs : list sub_job_row) : option (list sub_job_row) :=
  match rows with
  | [] => Some sjs
  | (n, batch) :: rows' =>
      let id := sub_job_id_of job_id n in
      if existsb (fun sj => String.eqb (sj_id sj) id) sjs then None
      else insert_sub_jobs job_id rows'
             (sjs ++ [mk_sub_job_row id job_id n batch pending None None
                                     None None])
  end.

Definition create_sub_jobs (job_id : string) (batches : list string)
    (m : manager) : option manager :=
  match insert_sub_jobs job_id (batch_numbers batches) (db_sub_jobs m) with
  | Some sjs => Some (set_db m (db_jobs m) sjs)
  | None => None
  end.

(** [process_job] of the three renderers, without the optional script
    rewriting. *)
Definition process_job (job_id : string) (data : job_data) (m : manager)
  : option manager :=
  match batches_of (frame_range data) (batch_size data) with
  | Some batches => create_sub_jobs job_id batches m
  | None => None
  end.

(** *** Pulling work: [get_next_job] *)

(** The [CASE j.priority ...] of the ordering query. *)
Definition priority_rank (p : string) : Z :=
  if String.eqb p "critical" then 1
  else if String.eqb p "high" then 2
  else if String.eqb p "normal" then 3
  else if String.eqb p "low" then 4
  else 5.

(** [sub_jobs sj JOIN jobs j ON sj.parent_job_id = j.id
    WHERE sj.status = 'pending'], scanning [sub_jobs] in rowid order. *)
Definition pending_rows (m : manager) : list (sub_job_row * job_row) :=
  flat_map
    (fun sj =>
       map (pair sj)
           (filter (fun j => String.eqb (sj_parent_job_id sj) (j_id j))
                   (db_jobs m)))
    (filter (fun sj => status_eqb (sj_status sj) pending) (db_sub_jobs m)).

(** The [ORDER BY] key: priority rank, then [j.created_at]. *)
Definition order_key (r : sub_job_row * job_row) : Z * Z :=
  (priority_rank (j_priority (snd r)), j_created_at (snd r)).

Definition key_le (a b : Z * Z) : bool :=
  (fst a <? fst b) || ((fst a =? fst b) && (snd a <=? snd b)).

Fixpoint insert_row (r : sub_job_row * job_row)
    (l : list (sub_job_row * job_row)) : list (sub_job_row * job_row) :=
  match l with
  | [] => [r]
  | r' :: l' =>
      if key_le (order_key r) (order_key r') then r :: l
      else r' :: insert_row r l'
  end.

(** [ORDER BY]: SQL leaves the order of rows with equal keys open; here
    they keep their scan order (a stable sort). *)
Fixpoint order_by (l : list (sub_job_row * job_row))
  : list (sub_job_row * job_row) :=
  match l with
  | [] => []
  | r :: l' => insert_row r (order_by l')
  end.

(** The whole [SELECT ... LIMIT 5]. *)
Definition select_pending (m : manager) : list (sub_job_row * job_row) :=
  firstn 5 (order_by (pending_rows m)).

(** What [get_next_job] returns: the four-key dict built from a store
    row, or the cache entry itself. *)
Inductive next_job : Set :=
  | FromStore (sub_job_id parent_job_id frame_range : string)
            (data : job_data)
  | FromCache (entry : cached_job).

Definition sub_job_id (r : next_job) : string :=
  match r with
  | FromStore id _ _ _ => id
  | FromCache c => c_sub_job_id c
  end.

Definition mark_cached_running (c : cached_job) (worker_id : string)
    (now : Z) : cached_job :=
  mk_cached_job (c_sub_job_id c) (c_parent_job_id c) (c_frame_range c)
                (c_job_data c) running (c_cached_at c) (Some worker_id)
                (Some now) (c_completed_at c) (c_error_message c)
                (c_metrics c).

(** The loop of [_get_job_from_cache] over the keys in order: the first
    entry whose status is pending, with the entries before and after
    it. *)
Fixpoint first_pending (seen rest : list (string * cached_job))
  : option (list (string * cached_job) * (string * cached_job)
            * list (string * cached_job)) :=
  match rest with
  | [] => None
  | (k, c) :: rest' =>
      if status_eqb (c_status c) pending then Some (seen, (k, c), rest')
      else first_pending (seen ++ [(k, c)]) rest'
  end.

(** [_get_job_from_cache]: the entry found is moved to the end and
    marked running in the cache only; no SQL statement is issued. *)
Definition _get_job_from_cache (now : Z) (worker_id : string) (m : manager)
  : option cached_job * manager :=
  match first_pending [] (job_cache m) with
  | Some (before, (k, c), after) =>
      let c' := mark_cached_running c worker_id now in
      (Some c', set_job_cache m (before ++ after ++ [(k, c')]))
  | None => (None, m)
  end.

(** [d[k] = v] on an [OrderedDict]: a present key keeps its place. *)
Fixpoint dict_set (k : string) (v : cached_job)
    (d : list (string * cached_job)) : list (string * cached_job) :=
  match d with
  | [] => [(k, v)]
  | (k', v') :: d' =>
      if String.eqb k' k then (k, v) :: d' else (k', v') :: dict_set k v d'
  end.

(** The loop of [_cache_pending_jobs].  [popitem] on an empty dict raises
    [KeyError], which the surrounding [except] swallows: the loop
    stops. *)
Fixpoint cache_rows (now : Z) (max_size : nat)
    (rows : list (sub_job_row * job_row)) (d : list (string * cached_job))
  : list (string * cached_job) :=
  match rows with
  | [] => d
  | (sj, j) :: rows' =>
      let entry :=
        mk_cached_job (sj_id sj) (sj_parent_job_id sj) (sj_frame_range sj)
                      (j_job_data j) pending now None None None None None in
      if (max_size <=? List.length d)%nat then
        match d with
        | [] => d
        | _ :: d' =>
            cache_rows now max_size rows' (dict_set (sj_id sj) entry d')
        end
      else cache_rows now max_size rows' (dict_set (sj_id sj) entry d)
  end.

Definition _cache_pending_jobs (now : Z)
    (job_results : list (sub_job_row * job_row)) (m : manager) : manager :=
  set_job_cache m
    (cache_rows now (cache_max_size m) (firstn 10 job_results)
                (job_cache m)).

(** [get_next_job]: a pending cache entry is returned as it is;
    otherwise the first row of the query is claimed in the store and the
    other rows are cached. *)
Definition get_next_job (now : Z) (worker_id : string) (m : manager)
  : option next_job * manager :=
  let (cached, m) :=
    if cache_enabled m then _get_job_from_cache now worker_id m
    else (None, m) in
  match cached with
  | Some c => (Some (FromCache c), m)
  | None =>
      let results := select_pending m in
      match results with
      | (sj, j) :: others =>
          let m :=
            if cache_enabled m && (1 <? List.length results)%nat
            then _cache_pending_jobs now others m else m in
          let sjs :=
            update (fun r => String.eqb (sj_id r) (sj_id sj))
                   (fun r => set_sj_running r worker_id now)
                   (db_sub_jobs m) in
          let js :=
            update (fun r => String.eqb (j_id r) (sj_parent_job_id sj)
                             && status_eqb (j_status r) pending)
                   (fun r => set_j_started r running now)
                   (db_jobs m) in
          (Some (FromStore (sj_id sj) (sj_parent_job_id sj)
                           (sj_frame_range sj) (j_job_data j)),
           set_db m js sjs)
      | [] => (None, m)
      end
  end.

(** *** Reporting: [complete_sub_job] *)

(** ['completed' if success else 'failed'] *)
Definition outcome (success : bool) : status :=
  if success then completed else failed.

(** [optimize_cache]: entries cached more than five minutes ago go. *)
Definition optimize_cache (now : Z) (m : manager) : manager :=
  if cache_enabled m then
    set_job_cache m
      (filter (fun kc => negb (300 <? now - c_cached_at (snd kc)))
              (job_cache m))
  else m.

Definition sub_jobs_of (parent_job_id : string) (sjs : list sub_job_row)
  : list sub_job_row :=
  filter (fun sj => String.eqb (sj_parent_job_id sj) parent_job_id) sjs.

(** [COUNT( * )] over the sub-jobs of a job. *)
Definition total_count (parent_job_id : string) (sjs : list sub_job_row)
  : Z :=
  Z.of_nat (List.length (sub_jobs_of parent_job_id sjs)).

(** [SUM(CASE WHEN status = 'completed' THEN 1 ELSE 0 END)] *)
Definition completed_count (parent_job_id : string)
    (sjs : list sub_job_row) : Z :=
  Z.of_nat (List.length
              (filter (fun sj => status_eqb (sj_status sj) completed)
                      (sub_jobs_of parent_job_id sjs))).

(** [(completed / total) * 100 if total > 0 else 0], in floats. *)
Definition progress_of (completed total : Z) : Q :=
  if 0 <? total then Double.mul (Double.div_int completed total) 100 else 0.

(** The cache entry of a reported sub-job; [metrics or {}]. *)
Definition mark_cached_done (c : cached_job) (success : bool) (now : Z)
    (error_message : option string) (mt : metrics) : cached_job :=
  mk_cached_job (c_sub_job_id c) (c_parent_job_id c) (c_frame_range c)
                (c_job_data c) (outcome success) (c_cached_at c)
                (c_worker_id c) (c_started_at c) (Some now) error_message
                (Some (if Json.truthy mt then mt else Json.Object [])).

(** The first [UPDATE] of [complete_sub_job], on [sub_jobs]. *)
Definition sub_jobs_after (now : Z) (sub_job_id : string) (success : bool)
    (error_message : option string) (sjs : list sub_job_row)
  : list sub_job_row :=
  update (fun r => String.eqb (sj_id r) sub_job_id)
         (fun r => set_sj_done r (outcome success) now error_message) sjs.

(** The two [UPDATE]s on [jobs]: progress always, status only when the
    two counts agree.  [sjs] is [sub_jobs] after the first [UPDATE]. *)
Definition jobs_after (now : Z) (parent_job_id : string)
    (sjs : list sub_job_row) (js : list job_row) : list job_row :=
  let total := total_count parent_job_id sjs in
  let completed := completed_count parent_job_id sjs in
  let progress := progress_of completed total in
  let js :=
    update (fun r => String.eqb (j_id r) parent_job_id)
           (fun r => set_j_progress r progress) js in
  if completed =? total then
    update (fun r => String.eqb (j_id r) parent_job_id)
           (fun r => set_j_completed r JobQueueManager.completed now) js
  else js.

(** The logging block of [complete_sub_job] (lines 311-319), entered when
    the job is complete: [true] when it runs to its end, [false] when it
    raises.  [metrics.get] needs a dict, and so does [output_info.get];
    the [for] loop needs something to iterate over and the [:.1f] a
    number.  The standard output is taken to accept what is printed. *)
Definition logs_completion (mt : metrics) : bool :=
  if Json.truthy mt then
    match mt with
    | Json.Object entries =>
        match Json.get "output_info" entries (Json.Object []) with
        | Json.Object output_info =>
            let directories := Json.get "directories" output_info Json.Null in
            if Json.truthy directories then
              Json.iterable directories
              && Json.formats_f
                   (Json.get "total_size_mb" output_info (Json.Number 0))
            else true
        | _ => false
        end
    | _ => false
    end
  else true.

(** How a call ends. *)
Inductive ending : Set := returns | raises.

(** [complete_sub_job].  The cache entry, if any, is rewritten first.  An
    unknown id returns before the commit and before the counter.  When
    the logging block raises, the connection is dropped before its
    commit: the three [UPDATE]s are lost, the cache entry stays
    rewritten, the counter is not reached. *)
Definition complete_sub_job (now : Z) (sub_job_id : string)
    (success : bool) (error_message : option string)
    (mt : metrics) (m : manager) : ending * manager :=
  let m :=
    if cache_enabled m then
      set_job_cache m
        (update (fun kc => String.eqb (fst kc) sub_job_id)
                (fun kc => (fst kc,
                            mark_cached_done (snd kc) success now
                                             error_message mt))
                (job_cache m))
    else m in
  let sjs :=
    sub_jobs_after now sub_job_id success error_message (db_sub_jobs m) in
  match find (fun r => String.eqb (sj_id r) sub_job_id) sjs with
  | None => (returns, m)
  | Some sj =>
      let parent_job_id := sj_parent_job_id sj in
      if (completed_count parent_job_id sjs =? total_count parent_job_id sjs)
         && negb (logs_completion mt)
      then (raises, m)
      else
        let m := set_db m (jobs_after now parent_job_id sjs (db_jobs m))
                        sjs in
        let n := match cache_optimization_counter m with
                 | Some n => (n + 1)%nat
                 | None => 1%nat
                 end in
        let m := set_counter m n in
        (returns, if (n mod 50 =? 0)%nat then optimize_cache now m else m)
  end.

(** *** Pausing, resuming, cancelling, clearing *)

Definition pause_all_jobs (m : manager) : manager :=
  set_db m
    (update (fun j => status_eqb (j_status j) running)
            (fun j => set_j_status j paused) (db_jobs m))
    (update (fun sj => status_eqb (sj_status sj) running)
            (fun sj => set_sj_status sj paused) (db_sub_jobs m)).

Definition resume_all_jobs (m : manager) : manager :=
  set_db m
    (update (fun j => status_eqb (j_status j) paused)
            (fun j => set_j_status j running) (db_jobs m))
    (update (fun sj => status_eqb (sj_status sj) paused)
            (fun sj => set_sj_status sj pending) (db_sub_jobs m)).

Definition pause_job (job_id : string) (m : manager) : manager :=
  set_db m
    (update (fun j => String.eqb (j_id j) job_id)
            (fun j => set_j_status j paused) (db_jobs m))
    (update (fun sj => String.eqb (sj_parent_job_id sj) job_id
                       && status_eqb (sj_status sj) running)
            (fun sj => set_sj_status sj paused) (db_sub_jobs m)).

Definition resume_job (job_id : string) (m : manager) : manager :=
  set_db m
    (update (fun j => String.eqb (j_id j) job_id)
            (fun j => set_j_status j running) (db_jobs m))
    (update (fun sj => String.eqb (sj_parent_job_id sj) job_id
                       && status_eqb (sj_status sj) paused)
            (fun sj => set_sj_status sj pending) (db_sub_jobs m)).

Definition cancel_job (job_id : string) (m : manager) : manager :=
  set_db m
    (update (fun j => String.eqb (j_id j) job_id)
            (fun j => set_j_status j cancelled) (db_jobs m))
    (update (fun sj => String.eqb (sj_parent_job_id sj) job_id)
            (fun sj => set_sj_status sj cancelled) (db_sub_jobs m)).

Definition clear_completed_jobs (m : manager) : manager :=
  let m :=
    if cache_enabled m then
      set_job_cache m
        (filter (fun kc => negb (status_eqb (c_status (snd kc)) completed))
                (job_cache m))
    else m in
  let done j := status_eqb (j_status j) completed in
  set_db m
    (filter (fun j => negb (done j)) (db_jobs m))
    (filter (fun sj =>
               negb (existsb (fun j => done j
                                && String.eqb (j_id j) (sj_parent_job_id sj))
                             (db_jobs m)))
            (db_sub_jobs m)).

End JobQueueManager.

(** ** server.py: the [/api/jobs/complete] route *)

Module Server.

Import JobQueueManager.






End Server.

(** ** worker_node.py: the timeout budget of a render *)

Module WorkerNode.

(** The part of the worker configuration that concerns timeouts:
    [timeout_per_frame] and, per renderer, [timeout_multiplier]. *)
Record config : Set := mk_config {
  timeout_per_frame : option Z;
  timeout_multiplier : string -> option Q
}.

(** [default_config] of [load_config]. *)
Definition default_config : config :=
  mk_config (Some 1800)
    (fun r => if String.eqb r "nuke" then Some 1%Q
              else if String.eqb r "silhouette" then Some (3 # 2)%Q
              else if String.eqb r "fusion" then Some 2%Q
              else None).

(** [self.config.get('timeout_per_frame', 1800)] *)
Definition per_frame (c : config) : Z :=
  match timeout_per_frame c with
  | Some t => t
  | None => 1800
  end.

(** [start_frame, end_frame = frame_range.split('-')] when the range has
    a dash, both set to the range otherwise; [None] when the unpacking
    raises. *)
Definition start_end (frame_range : string) : option (string * string) :=
  if Py.contains "-" frame_range then
    match Py.split "-" frame_range with
    | [a; b] => Some (a, b)
    | _ => None
    end
  else Some (frame_range, frame_range).

(** [frame_count] as [render_nuke_production] and
    [render_fusion_production] compute it. *)
Definition frame_count_start_end (frame_range : string) : option Z :=
  match start_end frame_range with
  | Some (start_frame, end_frame) =>
      if Py.contains "-" frame_range then
        match Py.int end_frame, Py.int start_frame with
        | Some e, Some s => Some (e - s + 1)
        | _, _ => None
        end
      else Some 1
  | None => None
  end.

(** [frame_count] as [render_silhouette_production] computes it: the
    number of pieces the dash splits the range into. *)
Definition frame_count_silhouette (frame_range : string) : Z :=
  if Py.contains "-" frame_range
  then Z.of_nat (List.length (Py.split "-" frame_range))
  else 1.

(** The [timeout] passed to [monitor_process]. *)
Definition render_nuke_timeout (c : config) (frame_range : string)
  : option Z :=
  option_map (fun n => n * per_frame c) (frame_count_start_end frame_range).

Definition render_silhouette_timeout (c : config) (frame_range : string)
  : option Z :=
  Some (frame_count_silhouette frame_range * per_frame c).

Definition render_fusion_timeout (c : config) (frame_range : string)
  : option Z :=
  option_map (fun n => n * per_frame c) (frame_count_start_end frame_range).

(** The budget for a renderer by name. *)
Definition render_timeout (c : config) (renderer frame_range : string)
  : option Z :=
  if String.eqb renderer "nuke" then render_nuke_timeout c frame_range
  else if String.eqb renderer "silhouette"
       then render_silhouette_timeout c frame_range
  else if String.eqb renderer "fusion"
       then render_fusion_timeout c frame_range
  else None.

End WorkerNode.

(** ** Notions used by the statements *)

Module Properties.

Import JobQueueManager.

(** The primary key of [sub_jobs]. *)
Definition well_formed (m : manager) : Prop :=
  NoDup (map sj_id (db_sub_jobs m)).

(** A job with a running sub-job holds as progress what
    [complete_sub_job] computes from its sub-jobs. *)
Definition progress_invariant (m : manager) : Prop :=
  forall j sj, In j (db_jobs m) -> In sj (db_sub_jobs m) ->
    sj_parent_job_id sj = j_id j -> sj_status sj = running ->
    (j_progress j ==
     progress_of (completed_count (j_id j) (db_sub_jobs m))
                 (total_count (j_id j) (db_sub_jobs m)))%Q.

(** One call of [complete_sub_job]. *)
Record completion : Set := mk_completion {
  at_time : Z;
  target : string;
  success : bool;
  error_message : option string;
  report : metrics
}.

Definition apply_completion (c : completion) (m : manager) : manager :=
  snd (complete_sub_job (at_time c) (target c) (success c)
                        (error_message c) (report c) m).

Fixpoint run_completions (calls : list completion) (m : manager)
  : manager :=
  match calls with
  | [] => m
  | c :: calls' => run_completions calls' (apply_completion c m)
  end.

(** A completion is valid when its sub-job is stored as running. *)
Definition valid_completion (c : completion) (m : manager) : bool :=
  match find (fun r => String.eqb (sj_id r) (target c)) (db_sub_jobs m) with
  | Some sj => status_eqb (sj_status sj) running
  | None => false
  end.

Fixpoint valid_run (calls : list completion) (m : manager) : bool :=
  match calls with
  | [] => true
  | c :: calls' =>
      valid_completion c m && valid_run calls' (apply_completion c m)
  end.

(** What a pause makes of a sub-job row: within [scope] a running row
    becomes paused; every other row is left as it is. *)
Definition paused_sub_job (scope : sub_job_row -> bool)
    (sj sj' : sub_job_row) : Prop :=
  sj' = if scope sj && status_eqb (sj_status sj) running
        then set_sj_status sj paused else sj.

(** What a pause makes of a job row: within [scope] it becomes paused. *)
Definition paused_job (scope : job_row -> bool) (j j' : job_row) : Prop :=
  j' = if scope j then set_j_status j paused else j.

(** No cache entry is pending: [get_next_job] goes to the store. *)
Definition cache_exhausted (m : manager) : bool :=
  negb (cache_enabled m)
  || forallb (fun kc => negb (status_eqb (c_status (snd kc)) pending))
             (job_cache m).

(** The timeout budget in the words of the specification: number of
    frames of the range, times [timeout_per_frame], times the renderer's
    multiplier. *)
Definition budget_per_spec (c : WorkerNode.config)
    (renderer frame_range : string) : option Q :=
  match frames_of_label frame_range,
        WorkerNode.timeout_multiplier c renderer with
  | Some frames, Some k =>
      Some (inject_Z (Z.of_nat (List.length frames))
            * inject_Z (WorkerNode.per_frame c) * k)%Q
  | _, _ => None
  end.

End Properties.

(** ** Concrete farms *)

Module Scenario.

Import JobQueueManager Properties.

Definition payload (prio frames : string) (size : Z) : job_data :=
  mk_job_data "shot" "nuke" frames size (Some prio) "".

(** [submit_job] and then [process_job], as the operator UI calls
    them. *)
Definition submit (job_id : string) (now : Z) (data : job_data)
    (m : manager) : option manager :=
  match submit_job job_id now data m with
  | Some m' => process_job job_id data m'
  | None => None
  end.

Definition or_init (m : option manager) : manager :=
  match m with
  | Some m' => m'
  | None => init
  end.

(** One normal job, frames 1-4 in batches of two. *)
Definition one_job : manager :=
  or_init (submit "A" 100 (payload "normal" "1-4" 2) init).

(** Two workers pull from [one_job]. *)
Definition two_pulls : list (option string) * manager :=
  let '(r1, m) := get_next_job 101 "w1" one_job in
  let '(r2, m) := get_next_job 102 "w2" m in
  ([option_map sub_job_id r1; option_map sub_job_id r2], m).

(** A third worker pulls. *)
Definition three_pulls : list (option string) * manager :=
  let '(r3, m) := get_next_job 103 "w3" (snd two_pulls) in
  (fst two_pulls ++ [option_map sub_job_id r3], m).



(** A normal job of three batches, then a critical job of two, then five
    pulls. *)
Definition overtake : list (option string) :=
  let m := or_init (submit "J1" 100 (payload "normal" "1-3" 1) init) in
  let m := or_init (submit "J2" 101 (payload "critical" "1-2" 1) m) in
  let '(r1, m) := get_next_job 102 "w1" m in
  let '(r2, m) := get_next_job 103 "w1" m in
  let '(r3, m) := get_next_job 104 "w1" m in
  let '(r4, m) := get_next_job 105 "w1" m in
  let '(r5, m) := get_next_job 106 "w1" m in
  map (option_map sub_job_id) [r1; r2; r3; r4; r5].

(** [one_job] with the cache switched off, both batches pulled. *)
Definition both_running : manager :=
  let m := one_job in
  let m := mk_manager (db_jobs m) (db_sub_jobs m) [] 1000 false None in
  let '(_, m) := get_next_job 101 "w1" m in
  let '(_, m) := get_next_job 102 "w2" m in
  m.

(** The first batch done, the second still running. *)
Definition half_done : manager :=
  snd (complete_sub_job 110 "A_batch_001" true None (Json.Object [])
                        both_running).

(** One batch of [one_job] pulled with the cache off, the job paused,
    then a second pull. *)
Definition pull_after_pause : option string * manager :=
  let m := one_job in
  let m := mk_manager (db_jobs m) (db_sub_jobs m) [] 1000 false None in
  let '(_, m) := get_next_job 101 "w1" m in
  let m := pause_job "A" m in
  let '(r, m) := get_next_job 103 "w2" m in
  (option_map sub_job_id r, m).

Definition status_of (sub_job_id : string) (m : manager) : option status :=
  option_map sj_status
    (find (fun r => String.eqb (sj_id r) sub_job_id) (db_sub_jobs m)).

Definition job_status_of (job_id : string) (m : manager) : option status :=
  option_map j_status
    (find (fun r => String.eqb (j_id r) job_id) (db_jobs m)).

Definition progress_of_job (job_id : string) (m : manager) : option Q :=
  option_map j_progress
    (find (fun r => String.eqb (j_id r) job_id) (db_jobs m)).


End Scenario.

(** ** Plain dicts keyed by strings *)

Module Dict.

(** [k in d] *)
Definition mem {A} (k : string) (d : list (string * A)) : bool :=
  existsb (fun kv => String.eqb (fst kv) k) d.

(** [d.get(k)] *)
Definition get {A} (k : string) (d : list (string * A)) : option A :=
  option_map snd (find (fun kv => String.eqb (fst kv) k) d).

(** [d[k] = v]: a present key keeps its place, a new one goes last. *)
Fixpoint set {A} (k : string) (v : A) (d : list (string * A))
  : list (string * A) :=
  match d with
  | [] => [(k, v)]
  | (k', v') :: d' =>
      if String.eqb k' k then (k, v) :: d' else (k', v') :: set k v d'
  end.

(** [del d[k]] for a present key; nothing to do for an absent one. *)
Definition remove {A} (k : string) (d : list (string * A))
  : list (string * A) :=
  filter (fun kv => negb (String.eqb (fst kv) k)) d.

(** [d.move_to_end(k)] for a present key. *)
Definition move_to_end {A} (k : string) (d : list (string * A))
  : list (string * A) :=
  match get k d with
  | Some v => remove k d ++ [(k, v)]
  | None => d
  end.

End Dict.

(** ** job_queue_manager.py: the workers *)

Module WorkerRegistry.

(** The values the code writes to [workers.status]; [offline] is the
    column default. *)
Inductive worker_status : Set := online | offline | stopped.

Definition worker_status_eqb (a b : worker_status) : bool :=
  match a, b with
  | online, online | offline, offline | stopped, stopped => true
  | _, _ => false
  end.

(** A row of [workers].  The columns [current_job_id], [cpu_count] and
    [memory_gb], which no statement writes, are left out. *)
Record worker_row : Set := mk_worker_row {
  w_id : string;
  w_ip_address : string;
  w_hostname : string;
  w_status : worker_status;
  w_last_heartbeat : Z;
  w_capabilities : string
}.

(** An entry of [worker_cache]. *)
Record worker_entry : Set := mk_worker_entry {
  e_last_heartbeat : Z;
  e_status : worker_status;
  e_system_metrics : list (string * string);
  e_updated_at : Z
}.

(** The worker side of the manager: the [workers] table in rowid order,
    [worker_cache] (an [OrderedDict]), the [_last_db_heartbeat] dict, and
    the two cache settings it shares with the job side. *)
Record registry : Set := mk_registry {
  db_workers : list worker_row;
  worker_cache : list (string * worker_entry);
  last_db_heartbeat : list (string * Z);
  cache_max_size : nat;
  cache_enabled : bool
}.

(** [__init__] on a fresh database file. *)
Definition init : registry := mk_registry [] [] [] 1000 true.

Definition set_db_workers (r : registry) (ws : list worker_row) : registry :=
  mk_registry ws (worker_cache r) (last_db_heartbeat r) (cache_max_size r)
              (cache_enabled r).

(** [register_worker]: [INSERT OR REPLACE] deletes the row that holds the
    key, if any, and inserts the new one. *)
Definition register_worker (now : Z)
    (worker_id ip_address hostname capabilities : string) (r : registry)
  : registry :=
  set_db_workers r
    (filter (fun w => negb (String.eqb (w_id w) worker_id)) (db_workers r)
     ++ [mk_worker_row worker_id ip_address hostname online now
                       capabilities]).

(** The trimming loop of [worker_heartbeat]: [popitem(last=False)] once
    per entry in excess. *)
Definition trim {A} (max_size : nat) (d : list (string * A))
  : list (string * A) :=
  skipn (List.length d - max_size) d.

(** [worker_heartbeat]: the cache entry is always rewritten; the row is
    rewritten only when more than 30 seconds have passed since this
    manager last wrote it. *)
Definition worker_heartbeat (now : Z) (worker_id : string)
    (system_metrics : option (list (string * string))) (r : registry)
  : registry :=
  let cache :=
    if cache_enabled r then
      trim (cache_max_size r)
        (Dict.set worker_id
           (mk_worker_entry now online
              (match system_metrics with Some x => x | None => [] end) now)
           (worker_cache r))
    else worker_cache r in
  let last_update :=
    match Dict.get worker_id (last_db_heartbeat r) with
    | Some t => t
    | None => 0
    end in
  if 30 <? now - last_update then
    mk_registry
      (JobQueueManager.update
         (fun w => String.eqb (w_id w) worker_id)
         (fun w => mk_worker_row (w_id w) (w_ip_address w) (w_hostname w)
                                 online now (w_capabilities w))
         (db_workers r))
      cache (Dict.set worker_id now (last_db_heartbeat r))
      (cache_max_size r) (cache_enabled r)
  else
    mk_registry (db_workers r) cache (last_db_heartbeat r)
                (cache_max_size r) (cache_enabled r).

(** The cache entries updated less than a minute ago. *)
Definition fresh_entries (now : Z) (r : registry)
  : list (string * worker_entry) :=
  filter (fun kv => now - e_updated_at (snd kv) <? 60) (worker_cache r).

(** The rows the fallback query counts. *)
Definition online_rows (now : Z) (r : registry) : list worker_row :=
  filter (fun w => worker_status_eqb (w_status w) online
                   && (now - 30 <? w_last_heartbeat w))
         (db_workers r).

(** [get_online_workers]: the cache answers when it is enabled, not empty
    and counts at least one worker; the table answers otherwise. *)
Definition get_online_workers (now : Z) (r : registry) : nat :=
  let cached := List.length (fresh_entries now r) in
  if cache_enabled r && negb (Nat.eqb (List.length (worker_cache r)) 0)
     && (0 <? cached)%nat
  then cached
  else List.length (online_rows now r).

(** [remove_worker] *)
Definition remove_worker (worker_id : string) (r : registry) : registry :=
  set_db_workers r
    (filter (fun w => negb (String.eqb (w_id w) worker_id)) (db_workers r)).

(** [stop_worker] *)
Definition stop_worker (worker_id : string) (r : registry) : registry :=
  set_db_workers r
    (JobQueueManager.update
       (fun w => String.eqb (w_id w) worker_id)
       (fun w => mk_worker_row (w_id w) (w_ip_address w) (w_hostname w)
                               stopped (w_last_heartbeat w)
                               (w_capabilities w))
       (db_workers r)).

End WorkerRegistry.

(** ** server.py: the [/api/jobs/next] route *)

Module ServerRoutes.

Import JobQueueManager.

(** The [/api/jobs/next] branch of [do_GET]: status code, the job sent
    back if any, and the manager afterwards.  [worker_id] is the first
    value of the query parameter; an absent or empty one is falsy. *)
Definition do_GET_next (now : Z) (worker_id : option string) (m : manager)
  : nat * option next_job * manager :=
  match worker_id with
  | Some w =>
      if String.eqb w "" then (400%nat, None, m)
      else
        match get_next_job now w m with
        | (Some job, m') => (200%nat, Some job, m')
        | (None, m') => (204%nat, None, m')
        end
  | None => (400%nat, None, m)
  end.

End ServerRoutes.

(** ** worker_node.py: the asset cache and the render buffer pool *)

Module AssetCache.

(** The cache: [cache] is an [OrderedDict] from path to file content,
    oldest use first; sizes in bytes. *)
Record asset_cache : Set := mk_asset_cache {
  cache : list (string * string);
  max_size_bytes : Z;
  current_size : Z;
  access_times : list (string * Z);
  hit_count : nat;
  miss_count : nat
}.

(** [__init__] *)
Definition init (max_size_gb : Z) : asset_cache :=
  mk_asset_cache [] (max_size_gb * 1024 ^ 3) 0 [] 0 0.

(** [len(data)] *)
Definition size (data : string) : Z := Z.of_nat (String.length data).

(** The [while] loop of [_add_to_cache]: [_evict_lru] pops the first
    entry as long as the new file does not fit and the cache is not
    empty. *)
Fixpoint evict_for (file_size limit : Z) (entries : list (string * string))
    (current : Z) (times : list (string * Z))
  : list (string * string) * Z * list (string * Z) :=
  match entries with
  | [] => ([], current, times)
  | (oldest_path, oldest_data) :: rest =>
      if limit <? current + file_size
      then evict_for file_size limit rest (current - size oldest_data)
                     (Dict.remove oldest_path times)
      else (entries, current, times)
  end.

(** [_add_to_cache]: a file larger than half the capacity is not cached
    (the float product [max_size_bytes * 0.5] is exact for the integer
    capacities [__init__] produces). *)
Definition _add_to_cache (now : Z) (file_path data : string)
    (c : asset_cache) : asset_cache :=
  let file_size := size data in
  if max_size_bytes c <? 2 * file_size then c
  else
    let '(entries, current, times) :=
      evict_for file_size (max_size_bytes c) (cache c) (current_size c)
                (access_times c) in
    mk_asset_cache (Dict.set file_path data entries) (max_size_bytes c)
                   (current + file_size) (Dict.set file_path now times)
                   (hit_count c) (miss_count c).

(** [get_file]; [fs] is the file system, [None] where [open] raises, and
    then [get_file] raises too. *)
Definition get_file (fs : string -> option string) (now : Z)
    (file_path : string) (c : asset_cache) : option string * asset_cache :=
  match Dict.get file_path (cache c) with
  | Some data =>
      (Some data,
       mk_asset_cache (Dict.move_to_end file_path (cache c))
                      (max_size_bytes c) (current_size c)
                      (Dict.set file_path now (access_times c))
                      (S (hit_count c)) (miss_count c))
  | None =>
      match fs file_path with
      | Some data =>
          let c' := _add_to_cache now file_path data c in
          (Some data,
           mk_asset_cache (cache c') (max_size_bytes c') (current_size c')
                          (access_times c') (hit_count c')
                          (S (miss_count c')))
      | None => (None, c)
      end
  end.

End AssetCache.

Module RenderBufferPool.

(** The pool.  A buffer is named by its rank of creation, which stands
    for the identity of the [SharedMemory] object; [created] counts the
    buffers made so far. *)
Record pool : Set := mk_pool {
  max_buffers : nat;
  available_buffers : list nat;
  in_use_buffers : list (string * nat);
  created : nat
}.

(** [__init__] *)
Definition init (max_buffers : nat) : pool := mk_pool max_buffers [] [] 0.

(** [get_buffer]: the last returned buffer if there is one, else a new
    one while fewer than [max_buffers] are in use; [can_create] tells
    whether the allocation succeeds. *)
Definition get_buffer (can_create : bool) (job_id : string) (p : pool)
  : option nat * pool :=
  match rev (available_buffers p) with
  | buffer :: others =>
      (Some buffer,
       mk_pool (max_buffers p) (rev others)
               (Dict.set job_id buffer (in_use_buffers p)) (created p))
  | [] =>
      if (List.length (in_use_buffers p) <? max_buffers p)%nat then
        if can_create then
          (Some (created p),
           mk_pool (max_buffers p) []
                   (Dict.set job_id (created p) (in_use_buffers p))
                   (S (created p)))
        else (None, p)
      else (None, p)
  end.

(** [return_buffer] *)
Definition return_buffer (job_id : string) (p : pool) : pool :=
  match Dict.get job_id (in_use_buffers p) with
  | Some buffer =>
      mk_pool (max_buffers p) (available_buffers p ++ [buffer])
              (Dict.remove job_id (in_use_buffers p)) (created p)
  | None => p
  end.

(** [cleanup] *)
Definition cleanup (p : pool) : pool :=
  mk_pool (max_buffers p) [] [] (created p).

End RenderBufferPool.

(** ** Notions used by the further statements *)

Module Invariants.

Import JobQueueManager.

(** A string without white space and without a dash. *)
Definition plain (s : string) : Prop :=
  Forall (fun c => Py.isspace c = false /\ Ascii.eqb "-" c = false)
         (list_ascii_of_string s).

(** The sub-job row [create_sub_jobs] inserts for a numbered batch. *)
Definition new_sub_job (job_id : string) (row : nat * string)
  : sub_job_row :=
  mk_sub_job_row (sub_job_id_of job_id (fst row)) job_id (fst row) (snd row)
                 pending None None None None.

(** The parent job of what [get_next_job] returns. *)
Definition parent_job_id (r : next_job) : string :=
  match r with
  | FromStore _ parent _ _ => parent
  | FromCache c => c_parent_job_id c
  end.

(** The number of sub-jobs stored with a status. *)
Definition count_status (s : status) (m : manager) : nat :=
  List.length (filter (fun sj => status_eqb (sj_status sj) s)
                      (db_sub_jobs m)).

(** The foreign key of [sub_jobs]: every sub-job has its job. *)
Definition referential_integrity (m : manager) : Prop :=
  forall sj, In sj (db_sub_jobs m) ->
    exists j, In j (db_jobs m) /\ j_id j = sj_parent_job_id sj.

(** The job cache as a bounded dict: one entry per key, filed under its
    own sub-job id, no more entries than [cache_max_size]. *)
Definition cache_ok (m : manager) : Prop :=
  NoDup (map fst (job_cache m))
  /\ (List.length (job_cache m) <= cache_max_size m)%nat.

(** The asset cache accounts for what it holds, within its capacity. *)
Definition accounted (c : AssetCache.asset_cache) : Prop :=
  AssetCache.current_size c
  = fold_right (fun kv acc => AssetCache.size (snd kv) + acc) 0
               (AssetCache.cache c)
  /\ AssetCache.current_size c <= AssetCache.max_size_bytes c
  /\ NoDup (map fst (AssetCache.cache c)).

(** The pool tracks at most [max_buffers] buffers, each made by the pool
    and none twice. *)
Definition pool_ok (p : RenderBufferPool.pool) : Prop :=
  (List.length (RenderBufferPool.available_buffers p)
   + List.length (RenderBufferPool.in_use_buffers p)
   <= RenderBufferPool.max_buffers p)%nat
  /\ NoDup (RenderBufferPool.available_buffers p
            ++ map snd (RenderBufferPool.in_use_buffers p))
  /\ Forall (fun b => (b < RenderBufferPool.created p)%nat)
            (RenderBufferPool.available_buffers p
             ++ map snd (RenderBufferPool.in_use_buffers p))
  /\ NoDup (map fst (RenderBufferPool.in_use_buffers p)).

End Invariants.

(** ** Concrete workers, caches and pools *)

Module Cases.

Import JobQueueManager.

(** The first pull from [Scenario.one_job]: the first batch comes from
    the store, the second one is cached. *)
Definition first_pull : option next_job * manager :=
  get_next_job 101 "w1" Scenario.one_job.

(** A registry with one worker. *)
Definition one_worker : WorkerRegistry.registry :=
  WorkerRegistry.register_worker 10 "w1" "10.0.0.5" "render01" "nuke"
                                 WorkerRegistry.init.

(** A file system with one file of four bytes. *)
Definition disk (file_path : string) : option string :=
  if String.eqb file_path "plate.exr" then Some "abcd" else None.

(** A pool of two buffers: job A holds buffer 1, buffer 0 was returned
    by job B. *)
Definition used_pool : RenderBufferPool.pool :=
  let p := RenderBufferPool.init 2 in
  let p := snd (RenderBufferPool.get_buffer true "B" p) in
  let p := snd (RenderBufferPool.get_buffer true "A" p) in
  RenderBufferPool.return_buffer "B" p.

End Cases.

(** * Theorems *)

Import JobQueueManager Properties.

(** ** Parsing and batching on examples *)

Example parse_mixed :
  parse_frame_range "1-5,8,10-12" = Some [1; 2; 3; 4; 5; 8; 10; 11; 12].
Proof. reflexivity. Qed.

Example parse_dedup :
  parse_frame_range " 3, 1-2 ,2,+1_0" = Some [1; 2; 3; 10].
Proof. reflexivity. Qed.

Example parse_bad :
  parse_frame_range "1-2-3" = None /\ parse_frame_range "" = None.
Proof. split; reflexivity. Qed.

Example batches_single : batches_of "5" 10 = Some ["5"].
Proof. reflexivity. Qed.

Example batches_full : batches_of "1-10" 10 = Some ["1-10"].
Proof. reflexivity. Qed.

Example batches_zero : batches_of "1-10" 0 = None.
Proof. reflexivity. Qed.

(** ** Sorting and the listing of a set *)

Section Sorting.

Lemma insert_swap (x y : Z) (l : list Z) :
  Py.insert x (Py.insert y l) = Py.insert y (Py.insert x l).
Proof.
  induction l as [|a l IH]; simpl.
  - destruct (Z.leb_spec x y), (Z.leb_spec y x); try reflexivity; try lia.
    assert (x = y) by lia. now subst.
  - destruct (Z.leb_spec y a), (Z.leb_spec x a); simpl;
      repeat match goal with
             | |- context [?u <=? ?v] => destruct (Z.leb_spec u v)
             end; try reflexivity; try lia.
    + assert (x = y) by lia. now subst.
    + now rewrite IH.
Qed.

(** Sorting forgets the order of its input. *)
Lemma sorted_perm (l l' : list Z) :
  Permutation l l' -> Py.sorted l = Py.sorted l'.
Proof.
  induction 1; simpl; try congruence.
  apply insert_swap.
Qed.

Lemma insert_perm (x : Z) (l : list Z) :
  Permutation (x :: l) (Py.insert x l).
Proof.
  induction l as [|a l IH]; simpl; [reflexivity|].
  destruct (x <=? a); [reflexivity|].
  rewrite perm_swap. now apply perm_skip.
Qed.

Lemma sorted_is_perm (l : list Z) : Permutation l (Py.sorted l).
Proof.
  induction l as [|a l IH]; simpl; [constructor|].
  rewrite <- insert_perm. now apply perm_skip.
Qed.

Lemma insert_ascending (x : Z) (l : list Z) :
  Sorted Z.le l -> Sorted Z.le (Py.insert x l).
Proof.
  induction 1 as [|a l Hs IH Hhd]; simpl.
  - repeat constructor.
  - destruct (Z.leb_spec x a).
    + repeat constructor; assumption.
    + constructor; [assumption|].
      destruct l as [|b l]; simpl.
      * constructor. lia.
      * destruct (Z.leb_spec x b); constructor; try lia.
        now inversion Hhd.
Qed.

Lemma sorted_ascending (l : list Z) : Sorted Z.le (Py.sorted l).
Proof.
  induction l; simpl; [constructor|]. now apply insert_ascending.
Qed.

Lemma list_set_listing : Py.set_listing Py.list_set.
Proof.
  intros l. split; [apply NoDup_nodup|].
  intros x. apply nodup_In.
Qed.

Lemma list_set_rev_listing : Py.set_listing Py.list_set_rev.
Proof.
  intros l. unfold Py.list_set_rev. split.
  - apply NoDup_rev, NoDup_nodup.
  - intros x. rewrite <- in_rev. apply nodup_In.
Qed.

(** Two listings of one set sort to the same list. *)
Lemma sorted_listing (enum1 enum2 : list Z -> list Z) (l : list Z) :
  Py.set_listing enum1 -> Py.set_listing enum2 ->
  Py.sorted (enum1 l) = Py.sorted (enum2 l).
Proof.
  intros H1 H2. apply sorted_perm.
  destruct (H1 l) as [N1 I1], (H2 l) as [N2 I2].
  apply NoDup_Permutation; try assumption.
  intros x. rewrite I1, I2. tauto.
Qed.

(** A parse is ascending, without repetition, and holds the frames the
    parts name. *)
Lemma parse_frame_range_sorted (s : string) (frames : list Z) :
  parse_frame_range s = Some frames ->
  Sorted Z.le frames /\ NoDup frames.
Proof.
  unfold parse_frame_range, parse_frame_range_with.
  destruct (parse_parts _ _) as [fs|]; [|discriminate].
  intros [= <-]. split; [apply sorted_ascending|].
  eapply Permutation_NoDup; [apply sorted_is_perm|].
  apply list_set_listing.
Qed.

End Sorting.

(** ** The slices of [create_batches] *)

Section Batches.

Lemma firstn_app_skipn {A} (a b : nat) (l : list A) :
  firstn a l ++ firstn b (skipn a l) = firstn (a + b) l.
Proof.
  revert l; induction a as [|a IH]; intros [|x l]; simpl;
    try reflexivity.
  - now rewrite firstn_nil.
  - now rewrite IH.
Qed.

Lemma slice_width {A} (l : list A) (i w : nat) :
  Py.slice l i (i + w) = firstn w (skipn i l).
Proof. unfold Py.slice. now replace (i + w - i)%nat with w by lia. Qed.

Lemma range_step_covers (len step : nat) :
  (0 < step)%nat -> (len <= (len + step - 1) / step * step)%nat.
Proof.
  intros Hs.
  pose proof (Nat.div_mod_eq (len + step - 1) step) as E.
  pose proof (Nat.mod_upper_bound (len + step - 1) step) as U.
  nia.
Qed.

Lemma range_step_below (len step k : nat) :
  (0 < step)%nat -> (k < (len + step - 1) / step)%nat ->
  (k * step < len)%nat.
Proof.
  intros Hs Hk.
  pose proof (Nat.div_mod_eq (len + step - 1) step) as E.
  nia.
Qed.

Lemma batch_slices_prefix (frames : list Z) (b n : nat) :
  List.concat (map (fun i => Py.slice frames i (i + b)%nat)
                   (map (fun k => (k * b)%nat) (seq 0 n)))
  = firstn (n * b) frames.
Proof.
  induction n as [|n IH]; [reflexivity|].
  rewrite seq_S, !map_app, concat_app, IH. simpl.
  rewrite app_nil_r, slice_width, firstn_app_skipn.
  f_equal. lia.
Qed.

(** The slices, put end to end, are the frames: nothing is lost,
    repeated or reordered. *)
Lemma batch_slices_concat (frames : list Z) (b : nat) :
  (0 < b)%nat -> List.concat (batch_slices frames b) = frames.
Proof.
  intros Hb. unfold batch_slices, Py.range_step.
  rewrite batch_slices_prefix. apply firstn_all2.
  now apply range_step_covers.
Qed.

(** Every slice holds between one and [batch_size] frames. *)
Lemma batch_slices_sizes (frames : list Z) (b : nat) :
  (0 < b)%nat ->
  Forall (fun s => (1 <= List.length s <= b)%nat) (batch_slices frames b).
Proof.
  intros Hb. unfold batch_slices, Py.range_step.
  rewrite Forall_map, Forall_map. apply Forall_forall. intros k Hk.
  apply in_seq in Hk. rewrite slice_width.
  split.
  - rewrite length_firstn, length_skipn.
    assert (k * b < List.length frames)%nat
      by (apply range_step_below; lia).
    lia.
  - apply firstn_le_length.
Qed.

Lemma combine_seq (batches : list string) (start : nat) :
  map fst (combine (seq start (List.length batches)) batches)
  = seq start (List.length batches)
  /\ map snd (combine (seq start (List.length batches)) batches) = batches.
Proof.
  revert start; induction batches as [|b bs IH]; intros start; simpl.
  - now split.
  - destruct (IH (S start)) as [-> ->]. now split.
Qed.

(** Batch numbers run from 1 without a hole, in batch order. *)
Lemma batch_numbers_dense (batches : list string) :
  map fst (batch_numbers batches) = seq 1 (List.length batches)
  /\ map snd (batch_numbers batches) = batches.
Proof. apply combine_seq. Qed.

End Batches.

(** X6.  What [create_batches] does guarantee for a positive batch size:
    it returns one label per slice; the slices partition the frames in order,
    each holds between one and [batch_size] frames, and they are numbered
    1, 2, ... in that order.  Nothing ties a slice to a run of consecutive
    integers. *)
Lemma create_batches_partition (frames : list Z) (batch_size : Z) :
  0 < batch_size ->
  let slices := batch_slices frames (Z.to_nat batch_size) in
  create_batches frames batch_size = Some (map batch_label slices)
  /\ List.concat slices = frames
  /\ Forall (fun s => (1 <= List.length s <= Z.to_nat batch_size)%nat) slices
  /\ map fst (batch_numbers (map batch_label slices))
     = seq 1 (List.length slices).
Proof.
  intros Hb slices. unfold create_batches.
  destruct (Z.eqb_spec batch_size 0); [lia|].
  destruct (Z.ltb_spec batch_size 0); [lia|].
  repeat split.
  - apply batch_slices_concat. lia.
  - apply batch_slices_sizes. lia.
  - rewrite (proj1 (batch_numbers_dense _)). now rewrite length_map.
Qed.

Lemma create_batches_partition_witness :
  0 < 2
  /\ create_batches [1; 2; 3; 5; 8] 2 = Some ["1-2"; "3-5"; "8"]
  /\ List.concat (batch_slices [1; 2; 3; 5; 8] 2) = [1; 2; 3; 5; 8].
Proof.
  split; [lia|].
  destruct (create_batches_partition [1; 2; 3; 5; 8] 2 eq_refl)
    as (H1 & H2 & _).
  split; [exact H1 | exact H2].
Defined.

(** C1.  The claim: batches are contiguous runs of at most [batch_size]
    frames whose union is the parse, a gap starting a new run, so that
    ["1-5,8,10-12"] in batches of 3 gives ["1-3"], ["4-5"], ["8"],
    ["10-12"].  The code cuts the sorted frames every [batch_size]
    positions whatever their values: on that input the second slice is
    [4; 5; 8], labelled ["4-8"], three batches come out instead of four, and
    the label denotes frames 6 and 7, which are not in the parse. *)
Theorem batches_ignore_gaps :
  parse_frame_range "1-5,8,10-12" = Some [1; 2; 3; 4; 5; 8; 10; 11; 12]
  /\ batch_slices [1; 2; 3; 4; 5; 8; 10; 11; 12] 3
     = [[1; 2; 3]; [4; 5; 8]; [10; 11; 12]]
  /\ batches_of "1-5,8,10-12" 3 = Some ["1-3"; "4-8"; "10-12"]
  /\ batches_of "1-5,8,10-12" 3 <> Some ["1-3"; "4-5"; "8"; "10-12"]
  /\ frames_of_label "4-8" = Some [4; 5; 6; 7; 8]
  /\ ~ In 6 [1; 2; 3; 4; 5; 8; 10; 11; 12].
Proof.
  repeat split; try reflexivity.
  - discriminate.
  - simpl. intuition discriminate.
Qed.

(** C9.  Batching is deterministic: two runs of [parse_frame_range] then
    [create_batches] on the same frame range and batch size give the same
    batches in the same order (or fail alike), whatever order [set] lists
    its elements in during either run. *)
Theorem batching_deterministic
    (enum1 enum2 : list Z -> list Z) (frame_range_str : string)
    (batch_size : Z) :
  Py.set_listing enum1 -> Py.set_listing enum2 ->
  batches_of_with enum1 frame_range_str batch_size
  = batches_of_with enum2 frame_range_str batch_size.
Proof.
  intros H1 H2. unfold batches_of_with, parse_frame_range_with.
  destruct (parse_parts _ _) as [frames|]; [|reflexivity].
  now rewrite (sorted_listing enum1 enum2 frames H1 H2).
Qed.

Lemma batching_deterministic_witness :
  Py.set_listing Py.list_set /\ Py.set_listing Py.list_set_rev
  /\ batches_of_with Py.list_set "3,1-2,2,7" 2
     = batches_of_with Py.list_set_rev "3,1-2,2,7" 2.
Proof.
  split; [exact list_set_listing|].
  split; [exact list_set_rev_listing|].
  apply (batching_deterministic Py.list_set Py.list_set_rev "3,1-2,2,7" 2).
  - exact list_set_listing.
  - exact list_set_rev_listing.
Defined.

(** ** Rows and updates *)

Lemma status_eqb_eq a b : status_eqb a b = true <-> a = b.
Proof. destruct a, b; simpl; split; congruence. Qed.

Section Updates.

Context {A : Type}.
Variables (c : A -> bool) (set : A -> A).

Lemma in_update r' l :
  In r' (update c set l) ->
  exists r, In r l /\ r' = if c r then set r else r.
Proof.
  unfold update. rewrite in_map_iff. intros [r [E H]]. eauto.
Qed.

Lemma update_rows (R : A -> A -> Prop) l :
  (forall r, In r l -> R r (if c r then set r else r)) ->
  Forall2 R l (update c set l).
Proof.
  induction l as [|r l IH]; intros H; simpl; constructor.
  - apply H. now left.
  - apply IH. intros r' Hr'. apply H. now right.
Qed.

Lemma update_untouched l :
  (forall r, In r l -> c r = false) -> update c set l = l.
Proof.
  induction l as [|r l IH]; intros H; simpl; [reflexivity|].
  rewrite (H r (or_introl eq_refl)), IH; [reflexivity|].
  intros r' Hr'. apply H. now right.
Qed.

Lemma find_update l :
  (forall r, c (set r) = c r) ->
  find c (update c set l) = option_map set (find c l).
Proof.
  intros H. induction l as [|r l IH]; simpl; [reflexivity|].
  destruct (c r) eqn:E.
  - now rewrite H, E.
  - now rewrite E.
Qed.

Lemma update_twice (set' : A -> A) l :
  (forall r, c (set r) = c r) ->
  update c set' (update c set l)
  = update c (fun r => set' (set r)) l.
Proof.
  intros H. unfold update. rewrite map_map. apply map_ext.
  intros r. destruct (c r) eqn:E; [now rewrite H, E|now rewrite E].
Qed.

(** Rows counted by [q] among those selected by [p]: an update that
    keeps [p] and [q] on the rows it rewrites keeps the count. *)
Lemma count_update (p q : A -> bool) l :
  (forall r, In r l -> c r = true ->
             p (set r) = p r /\ (p r = true -> q (set r) = q r)) ->
  List.length (filter q (filter p (update c set l)))
  = List.length (filter q (filter p l)).
Proof.
  induction l as [|r l IH]; intros H; simpl; [reflexivity|].
  assert (IH' := IH (fun r' Hr' => H r' (or_intror Hr'))).
  destruct (c r) eqn:E.
  - destruct (H r (or_introl eq_refl) E) as [Hp Hq]. rewrite Hp.
    destruct (p r); simpl;
      [rewrite Hq by reflexivity; destruct (q r); simpl|];
      now rewrite IH'.
  - destruct (p r); simpl; [destruct (q r); simpl|]; now rewrite IH'.
Qed.

(** An update that can only switch [q] on does not lower the count. *)
Lemma count_update_le (p q : A -> bool) l :
  (forall r, In r l -> c r = true ->
             p (set r) = p r /\ (p r = true -> q r = false)) ->
  (List.length (filter q (filter p l))
   <= List.length (filter q (filter p (update c set l))))%nat.
Proof.
  induction l as [|r l IH]; intros H; simpl; [lia|].
  assert (IH' := IH (fun r' Hr' => H r' (or_intror Hr'))).
  destruct (c r) eqn:E.
  - destruct (H r (or_introl eq_refl) E) as [Hp Hq]. rewrite Hp.
    destruct (p r); simpl;
      [rewrite Hq by reflexivity; destruct (q (set r)); simpl|]; lia.
  - destruct (p r); simpl; [destruct (q r); simpl|]; lia.
Qed.

Lemma filter_update_comm (p : A -> bool) l :
  (forall r, p (set r) = p r) ->
  filter p (update c set l) = update c set (filter p l).
Proof.
  intros H. induction l as [|r l IH]; simpl; [reflexivity|].
  destruct (c r) eqn:E.
  - rewrite H. destruct (p r); simpl; now rewrite ?E, IH.
  - destruct (p r); simpl; now rewrite ?E, IH.
Qed.

Lemma update_length l : List.length (update c set l) = List.length l.
Proof. apply length_map. Qed.

End Updates.

Lemma map_rows {A} (R : A -> A -> Prop) (f : A -> A) (l : list A) :
  (forall r, In r l -> R r (f r)) -> Forall2 R l (map f l).
Proof.
  induction l as [|r l IH]; intros H; simpl; constructor.
  - apply H. now left.
  - apply IH. intros r' Hr'. apply H. now right.
Qed.

Lemma unique_key {A B} (f : A -> B) (l : list A) (x y : A) :
  NoDup (map f l) -> In x l -> In y l -> f x = f y -> x = y.
Proof.
  induction l as [|a l IH]; simpl; [contradiction|].
  intros N Hx Hy E. inversion N as [|? ? Hnot N']; subst.
  destruct Hx as [->|Hx], Hy as [->|Hy]; auto.
  - exfalso. apply Hnot. rewrite E. now apply in_map.
  - exfalso. apply Hnot. rewrite <- E. now apply in_map.
Qed.

(** An update of the one row with a key moves a count by that row
    alone. *)
Lemma count_update_one {A K} (key : A -> K) (keyb : A -> A -> bool)
    (q : A -> bool) (set : A -> A) (l : list A) (x : A) :
  (forall a b, keyb a b = true <-> key a = key b) ->
  NoDup (map key l) -> In x l ->
  (List.length (filter q (update (fun r => keyb r x) set l))
   + (if q x then 1 else 0)
   = List.length (filter q l) + (if q (set x) then 1 else 0))%nat.
Proof.
  intros K0 N Hx. induction l as [|a l IH]; [contradiction|].
  simpl in N. inversion N as [|? ? Hnot N']; subst.
  simpl. destruct (keyb a x) eqn:E.
  - apply K0 in E.
    assert (a = x).
    { destruct Hx as [->|Hx]; [reflexivity|]. exfalso. apply Hnot.
      rewrite E. now apply in_map. }
    subst a.
    rewrite update_untouched.
    + destruct (q x), (q (set x)); simpl; lia.
    + intros r Hr. destruct (keyb r x) eqn:E'; [|reflexivity].
      exfalso. apply Hnot. apply K0 in E'. rewrite <- E'. now apply in_map.
  - destruct Hx as [->|Hx].
    + exfalso. assert (keyb x x = true) by now apply K0. congruence.
    + specialize (IH N' Hx). destruct (q a); simpl; lia.
Qed.


Lemma Forall2_chain {A} (R : A -> A -> Prop) (l1 l2 l3 : list A) :
  (forall x y z, R x y -> R y z -> R x z) ->
  Forall2 R l1 l2 -> Forall2 R l2 l3 -> Forall2 R l1 l3.
Proof.
  intros T H. revert l3. induction H; intros l3 H3; inversion H3; subst;
    constructor; eauto.
Qed.

Lemma filter_all_length {A} (q : A -> bool) (l : list A) :
  List.length (filter q l) = List.length l <-> Forall (fun r => q r = true) l.
Proof.
  induction l as [|r l IH]; simpl; [split; constructor|].
  pose proof (filter_length_le q l) as Hle.
  destruct (q r) eqn:E; simpl; split; intros H.
  - constructor; [assumption|]. apply IH. lia.
  - inversion H; subst. f_equal. now apply IH.
  - lia.
  - inversion H; congruence.
Qed.

Lemma filter_update {A} (p c : A -> bool) (set : A -> A) (l : list A) :
  (forall r, c r = true -> p r = false /\ p (set r) = false) ->
  filter p (update c set l) = filter p l.
Proof.
  intros H. induction l as [|r l IH]; simpl; [reflexivity|].
  destruct (c r) eqn:E.
  - destruct (H r E) as [-> ->]. exact IH.
  - destruct (p r); now rewrite IH.
Qed.

(** ** The ordering query under a rewriting of job rows *)

Section Ordering.

(** A rewriting of job rows that leaves alone what the query reads. *)
Variable relabel : job_row -> job_row.
Hypothesis relabel_id : forall j, j_id (relabel j) = j_id j.
Hypothesis relabel_priority :
  forall j, j_priority (relabel j) = j_priority j.
Hypothesis relabel_created :
  forall j, j_created_at (relabel j) = j_created_at j.
Hypothesis relabel_data : forall j, j_job_data (relabel j) = j_job_data j.

Let on_row (r : sub_job_row * job_row) := (fst r, relabel (snd r)).

Lemma order_key_relabel r : order_key (on_row r) = order_key r.
Proof.
  unfold order_key, on_row. simpl.
  now rewrite relabel_priority, relabel_created.
Qed.

Lemma insert_row_relabel r l :
  insert_row (on_row r) (map on_row l) = map on_row (insert_row r l).
Proof.
  induction l as [|r' l IH]; simpl; [reflexivity|].
  rewrite !order_key_relabel.
  destruct (key_le _ _); simpl; [reflexivity|]. now rewrite IH.
Qed.

Lemma order_by_relabel l :
  order_by (map on_row l) = map on_row (order_by l).
Proof.
  induction l as [|r l IH]; simpl; [reflexivity|].
  now rewrite IH, insert_row_relabel.
Qed.

Lemma join_relabel sj js :
  map (pair sj)
      (filter (fun j => String.eqb (sj_parent_job_id sj) (j_id j))
              (map relabel js))
  = map on_row
      (map (pair sj)
           (filter (fun j => String.eqb (sj_parent_job_id sj) (j_id j)) js)).
Proof.
  induction js as [|j js IH]; simpl; [reflexivity|].
  rewrite relabel_id.
  destruct (String.eqb _ _); simpl; now rewrite IH.
Qed.

Lemma pending_rows_relabel m m' :
  filter (fun sj => status_eqb (sj_status sj) pending) (db_sub_jobs m')
  = filter (fun sj => status_eqb (sj_status sj) pending) (db_sub_jobs m) ->
  db_jobs m' = map relabel (db_jobs m) ->
  pending_rows m' = map on_row (pending_rows m).
Proof.
  intros Hs Hj. unfold pending_rows. rewrite Hs, Hj.
  generalize (filter (fun sj => status_eqb (sj_status sj) pending)
                     (db_sub_jobs m)).
  intros l. induction l as [|sj l IH]; simpl; [reflexivity|].
  now rewrite map_app, IH, join_relabel.
Qed.

Lemma select_pending_relabel m m' :
  filter (fun sj => status_eqb (sj_status sj) pending) (db_sub_jobs m')
  = filter (fun sj => status_eqb (sj_status sj) pending) (db_sub_jobs m) ->
  db_jobs m' = map relabel (db_jobs m) ->
  select_pending m' = map on_row (select_pending m).
Proof.
  intros Hs Hj. unfold select_pending.
  rewrite (pending_rows_relabel m m' Hs Hj), order_by_relabel.
  apply firstn_map.
Qed.

(** Such a rewriting leaves the ordered candidates as they are, up to the
    job rows they are joined with. *)
Lemma ordered_pending_relabel m m' :
  filter (fun sj => status_eqb (sj_status sj) pending) (db_sub_jobs m')
  = filter (fun sj => status_eqb (sj_status sj) pending) (db_sub_jobs m) ->
  db_jobs m' = map relabel (db_jobs m) ->
  map fst (order_by (pending_rows m')) = map fst (order_by (pending_rows m)).
Proof.
  intros Hs Hj.
  rewrite (pending_rows_relabel m m' Hs Hj), order_by_relabel, map_map.
  reflexivity.
Qed.

(** Such a rewriting changes nothing in what the next pull hands out. *)
Lemma get_next_job_relabel now worker_id m m' :
  job_cache m' = job_cache m -> cache_enabled m' = cache_enabled m ->
  filter (fun sj => status_eqb (sj_status sj) pending) (db_sub_jobs m')
  = filter (fun sj => status_eqb (sj_status sj) pending) (db_sub_jobs m) ->
  db_jobs m' = map relabel (db_jobs m) ->
  fst (get_next_job now worker_id m') = fst (get_next_job now worker_id m).
Proof.
  intros Hc He Hs Hj. unfold get_next_job, _get_job_from_cache.
  rewrite He, Hc.
  destruct (cache_enabled m);
    [destruct (first_pending [] (job_cache m)) as [[[before [k c]] after]|];
     [reflexivity|]|];
    rewrite (select_pending_relabel m m' Hs Hj);
    destruct (select_pending m) as [|[sj j] others]; simpl;
    try reflexivity; now rewrite relabel_data.
Qed.

End Ordering.

Lemma pause_job_pending (job_id : string) (sjs : list sub_job_row) :
  filter (fun sj => status_eqb (sj_status sj) pending)
         (update (fun sj => String.eqb (sj_parent_job_id sj) job_id
                            && status_eqb (sj_status sj) running)
                 (fun sj => set_sj_status sj paused) sjs)
  = filter (fun sj => status_eqb (sj_status sj) pending) sjs.
Proof.
  apply filter_update. intros r Hr.
  apply andb_prop in Hr as [_ Hr]. apply status_eqb_eq in Hr.
  simpl. now rewrite Hr.
Qed.

Lemma pause_all_jobs_pending (sjs : list sub_job_row) :
  filter (fun sj => status_eqb (sj_status sj) pending)
         (update (fun sj => status_eqb (sj_status sj) running)
                 (fun sj => set_sj_status sj paused) sjs)
  = filter (fun sj => status_eqb (sj_status sj) pending) sjs.
Proof.
  apply filter_update. intros r Hr.
  apply status_eqb_eq in Hr. simpl. now rewrite Hr.
Qed.

(** ** Rounding to binary64 *)

Section Rounding.

Import Double.
Local Open Scope Q_scope.

Lemma pow2_pos (k : Z) : 0 < pow2 k.
Proof. apply Qpower_0_lt. reflexivity. Qed.

Lemma pow2_le (a b : Z) : (a <= b)%Z -> pow2 a <= pow2 b.
Proof. intros H. apply Qpower_le_compat_l; [assumption|discriminate]. Qed.

Lemma pow2_lt_inv (a b : Z) : pow2 a < pow2 b -> (a < b)%Z.
Proof.
  intros H. apply (Qpower_lt_compat_l_inv 2); [assumption|reflexivity].
Qed.

Lemma pow2_add (a b : Z) : pow2 (a + b) == pow2 a * pow2 b.
Proof. apply Qpower_plus. discriminate. Qed.

Lemma pow2_Z (a : Z) : (0 <= a)%Z -> inject_Z (2 ^ a) == pow2 a.
Proof. intros H. now apply Zpower_Qpower. Qed.

Lemma Qpos_num (q : Q) : 0 < q -> (0 < Qnum q)%Z.
Proof. unfold Qlt. simpl. lia. Qed.

(** [flog2] is the floor of the binary logarithm. *)
Lemma flog2_spec (q : Q) :
  0 < q -> pow2 (flog2 q) <= q /\ q < pow2 (flog2 q + 1).
Proof.
  intros Hq. pose proof (Qpos_num q Hq) as Hn. unfold flog2.
  set (a := Z.log2 (Qnum q)). set (b := Z.log2 (Z.pos (Qden q))).
  assert (Ha : (2 ^ a <= Qnum q < 2 ^ (a + 1))%Z).
  { unfold a. replace (Z.log2 (Qnum q) + 1)%Z with (Z.succ (Z.log2 (Qnum q)))
      by lia. now apply Z.log2_spec. }
  assert (Hb : (2 ^ b <= Z.pos (Qden q) < 2 ^ (b + 1))%Z).
  { unfold b. replace (Z.log2 (Z.pos (Qden q)) + 1)%Z
      with (Z.succ (Z.log2 (Z.pos (Qden q)))) by lia.
    now apply Z.log2_spec. }
  assert (Ha0 : (0 <= a)%Z) by apply Z.log2_nonneg.
  assert (Hb0 : (0 <= b)%Z) by apply Z.log2_nonneg.
  assert (Eq : q == inject_Z (Qnum q) / inject_Z (Z.pos (Qden q))).
  { rewrite <- Qmake_Qdiv. now destruct q. }
  assert (Hd : 0 < inject_Z (Z.pos (Qden q))) by reflexivity.
  destruct (Qle_bool (pow2 (a - b)) q) eqn:E.
  - apply Qle_bool_iff in E. split; [assumption|].
    rewrite Eq. apply Qlt_shift_div_r; [assumption|].
    apply Qlt_le_trans with (inject_Z (2 ^ (a + 1))).
    + rewrite <- Zlt_Qlt. lia.
    + rewrite pow2_Z by lia.
      replace (a + 1)%Z with ((a - b + 1) + b)%Z by lia.
      rewrite pow2_add. apply Qmult_le_l; [apply pow2_pos|].
      rewrite <- pow2_Z by lia. rewrite <- Zle_Qle. lia.
  - assert (E' : q < pow2 (a - b)).
    { apply Qnot_le_lt. intros H. apply Qle_bool_iff in H. congruence. }
    replace (a - b - 1 + 1)%Z with (a - b)%Z by lia.
    split; [|assumption].
    rewrite Eq. apply Qle_shift_div_l; [assumption|].
    apply Qle_trans with (pow2 (a - b - 1) * inject_Z (2 ^ (b + 1))).
    + apply Qmult_le_l; [apply pow2_pos|]. rewrite <- Zle_Qle. lia.
    + rewrite pow2_Z by lia. rewrite <- pow2_add.
      replace (a - b - 1 + (b + 1))%Z with a by lia.
      rewrite <- pow2_Z by lia. rewrite <- Zle_Qle. lia.
Qed.

Lemma flog2_mono (q q' : Q) : 0 < q -> q <= q' -> (flog2 q <= flog2 q')%Z.
Proof.
  intros Hq Hle.
  assert (Hq' : 0 < q') by (eapply Qlt_le_trans; eassumption).
  destruct (flog2_spec q Hq) as [L _].
  destruct (flog2_spec q' Hq') as [_ U].
  assert (H : pow2 (flog2 q) < pow2 (flog2 q' + 1)).
  { eapply Qle_lt_trans; [exact L|]. eapply Qle_lt_trans; eassumption. }
  apply pow2_lt_inv in H. lia.
Qed.

Lemma flog2_below (q : Q) (k : Z) : 0 < q -> q < pow2 k -> (flog2 q < k)%Z.
Proof.
  intros Hq H. destruct (flog2_spec q Hq) as [L _].
  apply pow2_lt_inv. eapply Qle_lt_trans; eassumption.
Qed.

Lemma ulp_exp_mono (q q' : Q) :
  0 < q -> q <= q' -> (ulp_exp q <= ulp_exp q')%Z.
Proof.
  intros Hq Hle. unfold ulp_exp.
  pose proof (flog2_mono q q' Hq Hle). lia.
Qed.

(** [rne] picks one of the two neighbours. *)
Lemma rne_cases (x : Q) :
  let f := Qfloor x in
  let r := x - inject_Z f in
  0 <= r /\ r < 1
  /\ ((rne x = f /\ r <= 1 # 2) \/ (rne x = (f + 1)%Z /\ 1 # 2 <= r))
  /\ (r < 1 # 2 -> rne x = f) /\ (1 # 2 < r -> rne x = (f + 1)%Z)
  /\ (r == 1 # 2 -> rne x = if Z.even f then f else (f + 1)%Z).
Proof.
  intros f r.
  assert (H0 : 0 <= r)
    by (unfold r; pose proof (Qfloor_le x) as H; fold f in H; lra).
  assert (H1 : r < 1).
  { unfold r. pose proof (Qlt_floor x) as H. fold f in H.
    rewrite inject_Z_plus in H. change (inject_Z 1) with 1 in H. lra. }
  split; [assumption|]. split; [assumption|].
  unfold rne. cbv zeta. fold f. fold r.
  destruct (Qcompare_spec r (1 # 2)) as [E|E|E].
  - split; [|split; [|split]].
    + destruct (Z.even f); [left|right]; split; try reflexivity; lra.
    + intros H. exfalso. lra.
    + intros H. exfalso. lra.
    + reflexivity.
  - split; [|split; [|split]].
    + left. split; [reflexivity|lra].
    + reflexivity.
    + intros H. exfalso. lra.
    + intros H. exfalso. lra.
  - split; [|split; [|split]].
    + right. split; [reflexivity|lra].
    + intros H. exfalso. lra.
    + reflexivity.
    + intros H. exfalso. lra.
Qed.

Lemma rne_mono (x y : Q) : x <= y -> (rne x <= rne y)%Z.
Proof.
  intros H. pose proof (Qfloor_resp_le x y H) as Hf.
  destruct (rne_cases x) as (_ & _ & Cx & Lx & Gx & Ex).
  destruct (rne_cases y) as (_ & _ & Cy & Ly & Gy & Ey).
  destruct (Z.eq_dec (Qfloor x) (Qfloor y)) as [E|Hne].
  - rewrite <- E in *.
    destruct (Qcompare_spec (x - inject_Z (Qfloor x)) (1 # 2)) as [E1|E1|E1].
    + rewrite (Ex E1).
      destruct (Qcompare_spec (y - inject_Z (Qfloor x)) (1 # 2)) as [E2|E2|E2].
      * rewrite (Ey E2). lia.
      * exfalso. lra.
      * rewrite (Gy E2). destruct (Z.even (Qfloor x)); lia.
    + rewrite (Lx E1). destruct Cy as [[-> _]|[-> _]]; lia.
    + rewrite (Gx E1). rewrite Gy; [lia|lra].
  - destruct Cx as [[-> _]|[-> _]], Cy as [[-> _]|[-> _]]; lia.
Qed.

Lemma rne_comp (x y : Q) : x == y -> rne x = rne y.
Proof.
  intros E. apply Z.le_antisymm; apply rne_mono; rewrite E; apply Qle_refl.
Qed.

Lemma rne_Z (n : Z) : rne (inject_Z n) = n.
Proof.
  destruct (rne_cases (inject_Z n)) as (_ & _ & _ & L & _).
  rewrite Qfloor_Z in L. apply L. lra.
Qed.

Lemma rne_error (x : Q) : Qabs (inject_Z (rne x) - x) <= 1 # 2.
Proof.
  destruct (rne_cases x) as (H0 & H1 & C & _).
  apply Qabs_Qle_condition.
  destruct C as [[-> Hr]|[-> Hr]].
  - lra.
  - rewrite inject_Z_plus. change (inject_Z 1) with 1. lra.
Qed.

Lemma round_pos_nonneg (q : Q) : 0 <= q -> 0 <= round_pos q.
Proof.
  intros Hq. unfold round_pos.
  apply Qmult_le_0_compat; [|apply Qlt_le_weak, pow2_pos].
  change 0 with (inject_Z 0). rewrite <- Zle_Qle.
  rewrite <- (rne_Z 0). apply rne_mono.
  apply Qle_shift_div_l; [apply pow2_pos|]. now rewrite Qmult_0_l.
Qed.

Lemma round_pos_mono (q q' : Q) :
  0 < q -> q <= q' -> round_pos q <= round_pos q'.
Proof.
  intros Hq Hle.
  assert (Hq' : 0 < q') by (eapply Qlt_le_trans; eassumption).
  pose proof (ulp_exp_mono q q' Hq Hle) as He.
  unfold round_pos.
  destruct (Z.eq_dec (ulp_exp q) (ulp_exp q')) as [E|Hne].
  - rewrite <- E. apply Qmult_le_compat_r; [|apply Qlt_le_weak, pow2_pos].
    rewrite <- Zle_Qle. apply rne_mono.
    apply Qmult_le_compat_r; [assumption|].
    apply Qlt_le_weak, Qinv_lt_0_compat, pow2_pos.
  - set (e := ulp_exp q) in *. set (e' := ulp_exp q') in *.
    assert (He' : e' = (flog2 q' - 52)%Z) by (unfold e', ulp_exp in *; lia).
    assert (Hfe : (flog2 q - 52 <= e)%Z) by (unfold e, ulp_exp; lia).
    apply Qle_trans with (pow2 (e' + 52)).
    + apply Qle_trans with (inject_Z (2 ^ 53) * pow2 e).
      * apply Qmult_le_compat_r; [|apply Qlt_le_weak, pow2_pos].
        rewrite <- Zle_Qle. rewrite <- (rne_Z (2 ^ 53)). apply rne_mono.
        apply Qle_shift_div_r; [apply pow2_pos|].
        rewrite pow2_Z by lia. rewrite <- pow2_add.
        destruct (flog2_spec q Hq) as [_ U].
        apply Qlt_le_weak. eapply Qlt_le_trans; [exact U|].
        apply pow2_le. lia.
      * rewrite pow2_Z by lia. rewrite <- pow2_add. apply pow2_le. lia.
    + apply Qle_trans with (inject_Z (2 ^ 52) * pow2 e').
      * rewrite pow2_Z by lia. rewrite <- pow2_add.
        apply pow2_le. lia.
      * apply Qmult_le_compat_r; [|apply Qlt_le_weak, pow2_pos].
        rewrite <- Zle_Qle. rewrite <- (rne_Z (2 ^ 52)). apply rne_mono.
        apply Qle_shift_div_l; [apply pow2_pos|].
        rewrite pow2_Z by lia. rewrite <- pow2_add.
        destruct (flog2_spec q' Hq') as [L _].
        eapply Qle_trans; [|exact L]. apply pow2_le. lia.
Qed.

Lemma round_nonneg_eq (q : Q) :
  0 <= q -> round q == (if Qeq_bool q 0 then 0 else round_pos q).
Proof.
  intros Hq. unfold round. rewrite Qred_correct.
  destruct (Qcompare_spec q 0) as [E|E|E].
  - apply Qeq_bool_iff in E. now rewrite E.
  - exfalso. apply (Qlt_irrefl q). eapply Qlt_le_trans; eassumption.
  - destruct (Qeq_bool q 0) eqn:B; [|reflexivity].
    apply Qeq_bool_iff in B. rewrite B in E. now apply Qlt_irrefl in E.
Qed.

(** Rounding is monotone. *)
Lemma round_mono (q q' : Q) : 0 <= q -> q <= q' -> round q <= round q'.
Proof.
  intros Hq Hle.
  assert (Hq' : 0 <= q') by (eapply Qle_trans; eassumption).
  rewrite (round_nonneg_eq q Hq), (round_nonneg_eq q' Hq').
  destruct (Qeq_bool q 0) eqn:B.
  - destruct (Qeq_bool q' 0); [apply Qle_refl|].
    now apply round_pos_nonneg.
  - assert (Hpos : 0 < q).
    { apply Qle_lteq in Hq as [H|H]; [assumption|].
      symmetry in H. apply Qeq_bool_iff in H. congruence. }
    destruct (Qeq_bool q' 0) eqn:B'.
    + apply Qeq_bool_iff in B'. rewrite B' in Hle. exfalso.
      apply (Qlt_irrefl q). eapply Qle_lt_trans; eassumption.
    + now apply round_pos_mono.
Qed.

(** Equal rationals round to the same fraction. *)
Lemma round_comp (q q' : Q) : 0 <= q -> q == q' -> round q = round q'.
Proof.
  intros Hq E.
  assert (Hq' : 0 <= q') by now rewrite <- E.
  assert (H : round q == round q').
  { apply Qle_antisym; apply round_mono; try assumption;
      rewrite E; apply Qle_refl. }
  unfold round in *. now apply Qred_complete, Qeq_Qred_iff.
Qed.

(** Rounding moves a number by at most half a unit of its last place. *)
Lemma round_error (q : Q) :
  0 < q -> Qabs (round q - q) <= pow2 (ulp_exp q - 1).
Proof.
  intros Hq. rewrite (round_nonneg_eq q (Qlt_le_weak _ _ Hq)).
  destruct (Qeq_bool q 0) eqn:B.
  { apply Qeq_bool_iff in B. rewrite B in Hq. now apply Qlt_irrefl in Hq. }
  unfold round_pos. set (e := ulp_exp q).
  pose proof (pow2_pos e) as He.
  assert (E : inject_Z (rne (q / pow2 e)) * pow2 e - q
              == (inject_Z (rne (q / pow2 e)) - q / pow2 e) * pow2 e).
  { field. intros H. rewrite H in He. now apply Qlt_irrefl in He. }
  rewrite E, Qabs_Qmult, (Qabs_pos (pow2 e)) by now apply Qlt_le_weak.
  replace (e - 1)%Z with (-1 + e)%Z by lia. rewrite pow2_add.
  apply Qmult_le_compat_r; [|now apply Qlt_le_weak].
  apply rne_error.
Qed.

End Rounding.

(** ** Progress as a float *)

Section Percent.

Local Open Scope Q_scope.

Lemma round_zero : Double.round 0 = 0.
Proof. reflexivity. Qed.

Lemma round_one : Double.round 1 = 1.
Proof. vm_compute. reflexivity. Qed.

Lemma div_int_nonneg (c t : Z) :
  (0 <= c)%Z -> (0 < t)%Z -> 0 <= inject_Z c / inject_Z t.
Proof.
  intros Hc Ht. apply Qle_shift_div_l.
  - change 0 with (inject_Z 0). now rewrite <- Zlt_Qlt.
  - rewrite Qmult_0_l. change 0 with (inject_Z 0). now rewrite <- Zle_Qle.
Qed.

Lemma div_int_le (c c' t : Z) :
  (c <= c')%Z -> (0 < t)%Z ->
  inject_Z c / inject_Z t <= inject_Z c' / inject_Z t.
Proof.
  intros Hc Ht. apply Qmult_le_compat_r; [now rewrite <- Zle_Qle|].
  apply Qinv_le_0_compat. change 0 with (inject_Z 0).
  rewrite <- Zle_Qle. lia.
Qed.

Lemma round_nonneg (q : Q) : 0 <= q -> 0 <= Double.round q.
Proof.
  intros Hq. rewrite <- round_zero at 1.
  apply round_mono; [apply Qle_refl|assumption].
Qed.

Lemma div_int_unit (c t : Z) :
  (0 <= c <= t)%Z -> (0 < t)%Z ->
  0 <= Double.div_int c t <= 1.
Proof.
  intros [H0 H1] Ht. unfold Double.div_int. split.
  - now apply round_nonneg, div_int_nonneg.
  - rewrite <- round_one. apply round_mono; [now apply div_int_nonneg|].
    apply Qle_shift_div_r.
    + change 0 with (inject_Z 0). now rewrite <- Zlt_Qlt.
    + rewrite Qmult_1_l. now rewrite <- Zle_Qle.
Qed.

(** More completed sub-jobs, no less progress. *)
Lemma progress_of_le (c c' t : Z) :
  (0 <= c <= c')%Z -> progress_of c t <= progress_of c' t.
Proof.
  intros [H0 H]. unfold progress_of.
  destruct (Z.ltb_spec 0 t) as [Ht|Ht]; [|apply Qle_refl].
  unfold Double.mul, Double.div_int.
  assert (Hq : 0 <= Double.round (inject_Z c / inject_Z t))
    by now apply round_nonneg, div_int_nonneg.
  apply round_mono.
  - apply Qmult_le_0_compat; [assumption|discriminate].
  - apply Qmult_le_compat_r; [|discriminate].
    apply round_mono; [now apply div_int_nonneg|now apply div_int_le].
Qed.

(** Progress is a percentage. *)
Lemma progress_of_percent (c t : Z) :
  (0 <= c <= t)%Z -> 0 <= progress_of c t <= 100.
Proof.
  intros Hc. unfold progress_of.
  destruct (Z.ltb_spec 0 t) as [Ht|Ht]; [|split; discriminate].
  destruct (div_int_unit c t Hc Ht) as [L U].
  unfold Double.mul. split.
  - apply round_nonneg. apply Qmult_le_0_compat; [assumption|discriminate].
  - assert (E : Double.round 100 = 100) by (vm_compute; reflexivity).
    rewrite <- E at 2. apply round_mono.
    + apply Qmult_le_0_compat; [assumption|discriminate].
    + lra.
Qed.

Lemma progress_of_full (t : Z) : (0 < t)%Z -> progress_of t t = 100.
Proof.
  intros Ht. unfold progress_of.
  destruct (Z.ltb_spec 0 t) as [_|?]; [|lia].
  assert (E : Double.div_int t t = 1).
  { unfold Double.div_int. rewrite <- round_one.
    apply round_comp; [apply div_int_nonneg; lia|].
    field. intros H. apply (inject_Z_injective t 0) in H. lia. }
  rewrite E. vm_compute. reflexivity.
Qed.

(** With at most [2 ** 53] sub-jobs, anything short of all of them is
    short of 100. *)
Lemma progress_of_not_full (c t : Z) :
  (0 <= c < t)%Z -> (t <= 2 ^ 53)%Z -> progress_of c t < 100.
Proof.
  intros [H0 H1] Hb. unfold progress_of.
  destruct (Z.ltb_spec 0 t) as [Ht|?]; [|lia].
  set (p := 1 - (1 # 2 ^ 53)).
  assert (Hq0 : 0 <= inject_Z c / inject_Z t) by now apply div_int_nonneg.
  assert (Hq : inject_Z c / inject_Z t <= p).
  { apply Qle_shift_div_r.
    - change 0 with (inject_Z 0). now rewrite <- Zlt_Qlt.
    - unfold p.
      assert (Hc : inject_Z c <= inject_Z t - 1).
      { setoid_replace (inject_Z t - 1) with (inject_Z (t - 1)).
        - rewrite <- Zle_Qle. lia.
        - unfold Z.sub. rewrite inject_Z_plus, inject_Z_opp. reflexivity. }
      assert (Hs : (1 # 2 ^ 53) * inject_Z t <= 1).
      { change (2 ^ 53)%Z with 9007199254740992%Z in Hb.
        change (2 ^ 53)%positive with 9007199254740992%positive.
        unfold Qle, Qmult, inject_Z. cbn [Qnum Qden]. lia. }
      lra. }
  assert (Hx : Double.div_int c t <= p).
  { unfold Double.div_int.
    apply Qle_trans with (Double.round p).
    - now apply round_mono.
    - unfold p. vm_compute. discriminate. }
  assert (Hx0 : 0 <= Double.div_int c t)
    by now apply round_nonneg.
  unfold Double.mul.
  apply Qle_lt_trans with (Double.round (p * 100)).
  - apply round_mono; [|lra].
    apply Qmult_le_0_compat; [assumption|discriminate].
  - unfold p. vm_compute. reflexivity.
Qed.

Lemma ulp_exp_below (q : Q) (k : Z) :
  0 < q -> q < Double.pow2 k -> (-1074 <= k - 53)%Z ->
  Double.pow2 (Double.ulp_exp q - 1) <= Double.pow2 (k - 54).
Proof.
  intros Hq H Hk. apply pow2_le.
  pose proof (flog2_below q k Hq H). unfold Double.ulp_exp. lia.
Qed.

Lemma round_near (q : Q) (k : Z) :
  0 <= q -> q < Double.pow2 k -> (-1074 <= k - 53)%Z ->
  Qabs (Double.round q - q) <= Double.pow2 (k - 54).
Proof.
  intros Hq H Hk. apply Qle_lteq in Hq as [Hq|Hq].
  - eapply Qle_trans; [now apply round_error|now apply ulp_exp_below].
  - assert (E : Double.round q = 0)
      by (rewrite <- round_zero; apply round_comp;
          [rewrite <- Hq; apply Qle_refl|now symmetry]).
    rewrite E, <- Hq. apply Qlt_le_weak, pow2_pos.
Qed.

(** The stored progress is the percentage of completed sub-jobs up to
    the rounding of a division and of a product. *)
Lemma progress_of_near (c t : Z) :
  (0 <= c <= t)%Z -> (0 < t)%Z ->
  Qabs (progress_of c t - 100 * inject_Z c / inject_Z t) <= 1 # 2 ^ 46.
Proof.
  intros [H0 H1] Ht. unfold progress_of.
  destruct (Z.ltb_spec 0 t) as [_|?]; [|lia].
  assert (Hq0 : 0 <= inject_Z c / inject_Z t) by now apply div_int_nonneg.
  destruct (div_int_unit c t (conj H0 H1) Ht) as [Hx0 Hx1].
  set (q := inject_Z c / inject_Z t) in *.
  set (x := Double.div_int c t) in *.
  assert (E1 : Qabs (x - q) <= 1 # 2 ^ 54).
  { destruct (Z.eq_dec c t) as [->|Hne].
    - assert (Eq : q == 1).
      { unfold q. field. intros H.
        apply (inject_Z_injective t 0) in H. lia. }
      assert (Ex : x = 1).
      { unfold x, Double.div_int. fold q. rewrite <- round_one.
        now apply round_comp. }
      rewrite Ex, Eq. discriminate.
    - assert (Hq1 : q < Double.pow2 0).
      { unfold q. apply Qlt_shift_div_r.
        - change 0 with (inject_Z 0). now rewrite <- Zlt_Qlt.
        - change (Double.pow2 0) with 1. rewrite Qmult_1_l.
          rewrite <- Zlt_Qlt. lia. }
      apply (round_near q 0 Hq0 Hq1). lia. }
  assert (E2 : Qabs (Double.mul x 100 - x * 100) <= 1 # 2 ^ 47).
  { unfold Double.mul.
    assert (Hy : x * 100 < Double.pow2 7)
      by (change (Double.pow2 7) with 128; lra).
    apply (round_near (x * 100) 7); [lra|assumption|lia]. }
  apply Qabs_Qle_condition in E1, E2. apply Qabs_Qle_condition.
  assert (Eq : 100 * inject_Z c / inject_Z t == 100 * q)
    by (unfold q; field; intros H;
        apply (inject_Z_injective t 0) in H; lia).
  rewrite Eq.
  change (1 # 2 ^ 54) with (1 # 18014398509481984) in E1.
  change (1 # 2 ^ 47) with (1 # 140737488355328) in E2.
  change (1 # 2 ^ 46) with (1 # 70368744177664).
  lra.
Qed.

(** One sub-job of three, then 11 of 20: the floats Python prints as
    [33.33333333333333] and [55.00000000000001]. *)
Example progress_of_thirds :
  progress_of 1 3 = 2345624805922133 # 70368744177664
  /\ progress_of 1 3 < 100 # 3
  /\ progress_of 11 20 == 55 + (1 # 2 ^ 47).
Proof. split; [|split]; vm_compute; reflexivity. Qed.

End Percent.

(** ** Completion *)

Lemma optimize_cache_db t m :
  db_jobs (optimize_cache t m) = db_jobs m
  /\ db_sub_jobs (optimize_cache t m) = db_sub_jobs m.
Proof. unfold optimize_cache. now destruct (cache_enabled m). Qed.

Lemma optimize_cache_counter t m :
  cache_optimization_counter (optimize_cache t m)
  = cache_optimization_counter m.
Proof. unfold optimize_cache. now destruct (cache_enabled m). Qed.

(** The three ways through [complete_sub_job] and the tables each one
    leaves: no such sub-job; the job complete and the logging block
    raising; the commit. *)
Lemma complete_sub_job_tables (now : Z) (sub_job_id : string)
    (success : bool) (error_message : option string) (mt : metrics)
    (m : manager) :
  let out := complete_sub_job now sub_job_id success error_message mt m in
  let sjs :=
    sub_jobs_after now sub_job_id success error_message (db_sub_jobs m) in
  match find (fun r => String.eqb (sj_id r) sub_job_id) (db_sub_jobs m) with
  | None =>
      fst out = returns
      /\ db_sub_jobs (snd out) = db_sub_jobs m
      /\ db_jobs (snd out) = db_jobs m
      /\ cache_optimization_counter (snd out) = cache_optimization_counter m
  | Some sj =>
      if (completed_count (sj_parent_job_id sj) sjs
          =? total_count (sj_parent_job_id sj) sjs)
         && negb (logs_completion mt)
      then
        fst out = raises
        /\ db_sub_jobs (snd out) = db_sub_jobs m
        /\ db_jobs (snd out) = db_jobs m
        /\ cache_optimization_counter (snd out)
           = cache_optimization_counter m
      else
        fst out = returns
        /\ db_sub_jobs (snd out) = sjs
        /\ db_jobs (snd out)
           = jobs_after now (sj_parent_job_id sj) sjs (db_jobs m)
  end.
Proof.
  intros out sjs. subst out sjs. unfold complete_sub_job, sub_jobs_after.
  set (m0 := if cache_enabled m then _ else m).
  assert (Hj : db_jobs m0 = db_jobs m)
    by (subst m0; now destruct (cache_enabled m)).
  assert (Hs : db_sub_jobs m0 = db_sub_jobs m)
    by (subst m0; now destruct (cache_enabled m)).
  assert (Hc : cache_optimization_counter m0 = cache_optimization_counter m)
    by (subst m0; now destruct (cache_enabled m)).
  rewrite Hj, Hs.
  rewrite (find_update (fun r => String.eqb (sj_id r) sub_job_id)
             (fun r => set_sj_done r (outcome success) now error_message))
    by reflexivity.
  destruct (find _ (db_sub_jobs m)) as [sj|] eqn:F; cbn [option_map].
  - change (sj_parent_job_id (set_sj_done sj (outcome success) now
                                          error_message))
      with (sj_parent_job_id sj).
    destruct (_ && _); cbn [fst snd].
    + now rewrite Hj, Hs, Hc.
    + match goal with
      | |- context [if ?b then _ else _] => destruct b
      end;
        [rewrite (proj1 (optimize_cache_db _ _)),
                 (proj2 (optimize_cache_db _ _))|];
        simpl; now repeat split.
  - cbn [fst snd]. now rewrite Hj, Hs, Hc.
Qed.


(** Whatever way the call takes, the tables are as they were or as the
    commit leaves them. *)
Lemma complete_sub_job_cases (now : Z) (sub_job_id : string)
    (success : bool) (error_message : option string) (mt : metrics)
    (m : manager) :
  let out := complete_sub_job now sub_job_id success error_message mt m in
  (db_sub_jobs (snd out) = db_sub_jobs m /\ db_jobs (snd out) = db_jobs m
   /\ (fst out = raises
       \/ find (fun r => String.eqb (sj_id r) sub_job_id) (db_sub_jobs m)
          = None))
  \/ (fst out = returns
      /\ exists sj,
           find (fun r => String.eqb (sj_id r) sub_job_id) (db_sub_jobs m)
           = Some sj
           /\ db_sub_jobs (snd out)
              = sub_jobs_after now sub_job_id success error_message
                               (db_sub_jobs m)
           /\ db_jobs (snd out)
              = jobs_after now (sj_parent_job_id sj)
                  (sub_jobs_after now sub_job_id success error_message
                                  (db_sub_jobs m))
                  (db_jobs m)).
Proof.
  intros out. subst out.
  pose proof (complete_sub_job_tables now sub_job_id success error_message
                                      mt m) as T.
  cbv zeta in T.
  destruct (find _ (db_sub_jobs m)) as [sj|].
  - destruct (_ && _).
    + left. destruct T as (R & S & J & _). auto.
    + right. destruct T as (R & S & J). split; [assumption|].
      exists sj. auto.
  - left. destruct T as (R & S & J & _). auto.
Qed.

Section ParentStatus.

Lemma jobs_after_rows now parent sjs js :
  jobs_after now parent sjs js
  = map (fun r =>
           if String.eqb (j_id r) parent then
             let r' := set_j_progress r
                         (progress_of (completed_count parent sjs)
                                      (total_count parent sjs)) in
             if completed_count parent sjs =? total_count parent sjs
             then set_j_completed r' completed now else r'
           else r) js.
Proof.
  unfold jobs_after.
  destruct (completed_count parent sjs =? total_count parent sjs).
  - now rewrite update_twice by reflexivity.
  - reflexivity.
Qed.

Lemma all_completed_counts parent sjs :
  completed_count parent sjs = total_count parent sjs
  <-> Forall (fun r => sj_status r = completed) (sub_jobs_of parent sjs).
Proof.
  unfold completed_count, total_count.
  rewrite Nat2Z.inj_iff, filter_all_length, !Forall_forall.
  split; intros H r Hr; apply status_eqb_eq; auto.
Qed.



End ParentStatus.

Lemma counts_ordered parent sjs :
  0 <= completed_count parent sjs <= total_count parent sjs.
Proof.
  unfold completed_count, total_count. split; [lia|].
  apply Nat2Z.inj_le, filter_length_le.
Qed.

Section Step.

Variables (now : Z) (sub_job_id : string) (success : bool)
          (error_message : option string) (mt : metrics).
Variables (m : manager) (sj : sub_job_row).
Hypothesis Hwf : well_formed m.
Hypothesis Hfind :
  find (fun r => String.eqb (sj_id r) sub_job_id) (db_sub_jobs m) = Some sj.

Let parent := sj_parent_job_id sj.
Let sjs' :=
  sub_jobs_after now sub_job_id success error_message (db_sub_jobs m).

Lemma target_unique r :
  In r (db_sub_jobs m) -> String.eqb (sj_id r) sub_job_id = true -> r = sj.
Proof.
  intros Hr E. destruct (find_some _ _ Hfind) as [Hin Hid].
  apply String.eqb_eq in E, Hid.
  apply (unique_key sj_id (db_sub_jobs m)); try assumption.
  congruence.
Qed.

Lemma reported_well_formed : NoDup (map sj_id sjs').
Proof.
  unfold sjs', sub_jobs_after, update. rewrite map_map.
  erewrite map_ext; [exact Hwf|].
  intros r. now destruct (String.eqb _ _).
Qed.

Lemma reported_total job_id :
  total_count job_id sjs' = total_count job_id (db_sub_jobs m).
Proof.
  unfold total_count, sub_jobs_of, sjs', sub_jobs_after.
  now rewrite filter_update_comm, update_length.
Qed.

Lemma reported_completed_elsewhere job_id :
  job_id <> parent ->
  completed_count job_id sjs' = completed_count job_id (db_sub_jobs m).
Proof.
  intros Hne. unfold completed_count, sub_jobs_of, sjs', sub_jobs_after.
  f_equal. apply count_update. intros r Hr E.
  split; [reflexivity|]. intros Hp. exfalso. apply Hne.
  apply String.eqb_eq in Hp. rewrite <- Hp.
  now rewrite (target_unique r Hr E).
Qed.

Lemma reported_completed_grows :
  sj_status sj <> completed ->
  completed_count parent (db_sub_jobs m) <= completed_count parent sjs'.
Proof.
  intros Hs. unfold completed_count, sub_jobs_of, sjs', sub_jobs_after.
  apply Nat2Z.inj_le, count_update_le. intros r Hr E.
  split; [reflexivity|]. intros _.
  rewrite (target_unique r Hr E).
  destruct (status_eqb _ _) eqn:S; [|reflexivity].
  now apply status_eqb_eq in S.
Qed.

Lemma parent_has_sub_jobs : 0 < total_count parent (db_sub_jobs m).
Proof.
  unfold total_count, sub_jobs_of.
  destruct (find_some _ _ Hfind) as [Hin _].
  assert (In sj (filter (fun r => String.eqb (sj_parent_job_id r) parent)
                        (db_sub_jobs m)))
    by (apply filter_In; split; [assumption|apply String.eqb_refl]).
  destruct (filter _ _); [contradiction|simpl; lia].
Qed.

(** The sub-jobs of the other jobs are not rewritten. *)
Lemma reported_elsewhere r' :
  In r' sjs' -> sj_parent_job_id r' <> parent -> In r' (db_sub_jobs m).
Proof.
  intros Hin Hne. unfold sjs', sub_jobs_after in Hin.
  apply in_update in Hin as [r [Hr ->]].
  destruct (String.eqb (sj_id r) sub_job_id) eqn:E; [|assumption].
  exfalso. apply Hne. now rewrite (target_unique r Hr E).
Qed.

(** What a commit leaves in the rows of the parent job. *)
Lemma committed_progress j' :
  In j' (jobs_after now parent sjs' (db_jobs m)) -> j_id j' = parent ->
  j_progress j' = progress_of (completed_count parent sjs')
                              (total_count parent sjs').
Proof.
  rewrite jobs_after_rows.
  intros Hin Hid. apply in_map_iff in Hin as [j [<- _]].
  destruct (String.eqb (j_id j) parent) eqn:E.
  - simpl. now destruct (_ =? _).
  - apply String.eqb_neq in E. contradiction.
Qed.

(** ... and in the rows of the other jobs. *)
Lemma committed_elsewhere :
  Forall2 (fun j j' => j_id j' = j_id j
                       /\ (j_id j <> parent -> j' = j))
          (db_jobs m) (jobs_after now parent sjs' (db_jobs m)).
Proof.
  rewrite jobs_after_rows. apply map_rows. intros j _.
  destruct (String.eqb (j_id j) parent) eqn:E.
  - apply String.eqb_eq in E. split.
    + cbv zeta. now destruct (_ =? _).
    + intros Hne. contradiction.
  - now split.
Qed.

Let out := complete_sub_job now sub_job_id success error_message mt m.

Lemma step_cases :
  (db_sub_jobs (snd out) = db_sub_jobs m /\ db_jobs (snd out) = db_jobs m
   /\ fst out = raises)
  \/ (db_sub_jobs (snd out) = sjs'
      /\ db_jobs (snd out) = jobs_after now parent sjs' (db_jobs m)
      /\ fst out = returns).
Proof.
  destruct (complete_sub_job_cases now sub_job_id success error_message mt m)
    as [(S & J & [R|N])|(R & sj' & F & S & J)].
  - left. now repeat split.
  - rewrite Hfind in N. discriminate.
  - right. rewrite Hfind in F. injection F as <-. now repeat split.
Qed.

Lemma step_well_formed : well_formed (snd out).
Proof.
  unfold well_formed.
  destruct step_cases as [(-> & _)|(-> & _)];
    [exact Hwf|exact reported_well_formed].
Qed.

Lemma step_total job_id :
  total_count job_id (db_sub_jobs (snd out))
  = total_count job_id (db_sub_jobs m).
Proof.
  destruct step_cases as [(-> & _)|(-> & _)];
    [reflexivity|apply reported_total].
Qed.

Lemma step_invariant : progress_invariant m -> progress_invariant (snd out).
Proof.
  intros I. unfold progress_invariant.
  destruct step_cases as [(-> & -> & _)|(-> & -> & _)]; [exact I|].
  intros j' r' Hj Hr Hp Hs.
  destruct (string_dec (j_id j') parent) as [E|E].
  - rewrite E. rewrite (committed_progress j' Hj E). apply Qeq_refl.
  - pose proof committed_elsewhere as C.
    assert (Hin : In j' (db_jobs m)).
    { revert C Hj. generalize (jobs_after now parent sjs' (db_jobs m)).
      induction (db_jobs m) as [|j js IH]; intros l C Hj;
        inversion C as [|? y ? l' [Hid Hsame] C']; subst;
        [contradiction|].
      destruct Hj as [<-|Hj].
      - left. rewrite Hid in E. now rewrite (Hsame E).
      - right. now apply (IH l'). }
    rewrite reported_total, reported_completed_elsewhere by assumption.
    apply (I j' r'); try assumption.
    apply reported_elsewhere; [assumption|]. now rewrite Hp.
Qed.

Lemma step_monotone :
  progress_invariant m -> sj_status sj = running ->
  Forall2 (fun j j' => j_id j' = j_id j /\ (j_progress j <= j_progress j')%Q)
          (db_jobs m) (db_jobs (snd out)).
Proof.
  intros I Hs.
  destruct step_cases as [(_ & -> & _)|(_ & -> & _)].
  - rewrite <- (map_id (db_jobs m)) at 2. apply map_rows.
    intros j _. split; [reflexivity|apply Qle_refl].
  - rewrite jobs_after_rows. apply map_rows. intros j Hin.
    destruct (String.eqb (j_id j) parent) eqn:E.
    + apply String.eqb_eq in E.
      assert (Hp : (j_progress j <= progress_of (completed_count parent sjs')
                                             (total_count parent sjs'))%Q).
      { rewrite (I j sj Hin (proj1 (find_some _ _ Hfind))
                   (eq_sym E) Hs).
        rewrite E, reported_total. apply progress_of_le.
        split; [apply counts_ordered|].
        apply reported_completed_grows. rewrite Hs. discriminate. }
      simpl. now destruct (_ =? _).
    + split; [reflexivity|apply Qle_refl].
Qed.

End Step.

(** ** Runs of completions *)

(** Along a valid run the primary key and the progress of the jobs at
    work are kept, the number of sub-jobs of a job does not change, and
    no stored progress goes down. *)
Lemma run_completions_invariants (calls : list completion) (m : manager) :
  well_formed m -> progress_invariant m -> valid_run calls m = true ->
  well_formed (run_completions calls m)
  /\ progress_invariant (run_completions calls m)
  /\ (forall job_id,
        total_count job_id (db_sub_jobs (run_completions calls m))
        = total_count job_id (db_sub_jobs m))
  /\ Forall2 (fun j j' => j_id j' = j_id j
                          /\ (j_progress j <= j_progress j')%Q)
             (db_jobs m) (db_jobs (run_completions calls m)).
Proof.
  revert m. induction calls as [|c calls IH]; intros m Hwf Hinv Hrun; simpl.
  - repeat split; try assumption.
    rewrite <- (map_id (db_jobs m)) at 2. apply map_rows.
    intros j _. split; [reflexivity|apply Qle_refl].
  - simpl in Hrun. apply andb_prop in Hrun as [Hv Hrun].
    unfold valid_completion in Hv.
    destruct (find _ (db_sub_jobs m)) as [sj|] eqn:F; [|discriminate].
    apply status_eqb_eq in Hv.
    unfold apply_completion in *.
    destruct (IH _
                 (step_well_formed (at_time c) (target c) (success c)
                    (error_message c) (report c) m sj Hwf F)
                 (step_invariant (at_time c) (target c) (success c)
                    (error_message c) (report c) m sj Hwf F Hinv) Hrun)
      as (W & I & T & M).
    repeat split; try assumption.
    + intros job_id. rewrite T.
      apply (step_total (at_time c) (target c) (success c)
                        (error_message c) (report c) m sj F).
    + eapply Forall2_chain;
        [|apply (step_monotone (at_time c) (target c) (success c)
                   (error_message c) (report c) m sj Hwf F Hinv Hv)
         |exact M].
      intros x y z [E1 L1] [E2 L2]. split; [congruence|].
      eapply Qle_trans; eassumption.
Qed.

(** C4, as amended.  Progress is stored as a percentage, computed in
    floats.  A [complete_sub_job] on a stored sub-job never changes the
    number [K] of sub-jobs of the parent; when it commits, every row of
    the parent holds the float [(completed / K) * 100], a value between 0
    and 100 that is within [2 ** -46] of 100 * completed / K; the
    progress of the other jobs is never touched.  Over a sequence of
    completion calls that each name a running sub-job, from a store with
    unique sub-job ids in which every job with a running sub-job holds
    that float: [K] does not change and no job's progress is lower after
    the run than before. *)
Theorem progress_is_percentage_and_monotone :
  (forall (now : Z) (sub_job_id : string) (success : bool)
          (error_message : option string) (mt : metrics) (m : manager)
          (sj : sub_job_row),
     find (fun r => String.eqb (sj_id r) sub_job_id) (db_sub_jobs m)
     = Some sj ->
     let out := complete_sub_job now sub_job_id success error_message mt m in
     let parent := sj_parent_job_id sj in
     let K := total_count parent (db_sub_jobs m) in
     let done := completed_count parent (db_sub_jobs (snd out)) in
     0 < K
     /\ total_count parent (db_sub_jobs (snd out)) = K
     /\ 0 <= done <= K
     /\ (fst out = returns ->
         forall j', In j' (db_jobs (snd out)) -> j_id j' = parent ->
           j_progress j' = progress_of done K
           /\ (0 <= j_progress j' <= 100)%Q
           /\ (Qabs (j_progress j' - 100 * inject_Z done / inject_Z K)
               <= 1 # 2 ^ 46)%Q)
     /\ Forall2 (fun j j' => j_id j' = j_id j
                             /\ (j_id j <> parent ->
                                 j_progress j' = j_progress j))
                (db_jobs m) (db_jobs (snd out)))
  /\ (forall (calls : list completion) (m : manager),
        well_formed m -> progress_invariant m -> valid_run calls m = true ->
        let m' := run_completions calls m in
        (forall job_id,
           total_count job_id (db_sub_jobs m')
           = total_count job_id (db_sub_jobs m))
        /\ Forall2 (fun j j' => j_id j' = j_id j
                                /\ (j_progress j <= j_progress j')%Q)
                   (db_jobs m) (db_jobs m')
        /\ well_formed m' /\ progress_invariant m').
Proof.
  split.
  - intros now sub_job_id success error_message mt m sj F
           out parent K done. subst out parent K done.
    pose proof (parent_has_sub_jobs sub_job_id m sj F) as HK.
    pose proof (step_total now sub_job_id success error_message mt m sj F
                           (sj_parent_job_id sj)) as HT.
    split; [exact HK|]. split; [exact HT|].
    split; [rewrite <- HT; apply counts_ordered|]. split.
    + intros R j' Hin Hid.
      destruct (step_cases now sub_job_id success error_message mt m sj F)
        as [(_ & _ & R')|(S & J & _)]; [congruence|].
      rewrite S, J in *.
      rewrite (committed_progress now sub_job_id success error_message
                                  m sj j' Hin Hid).
      rewrite HT.
      split; [reflexivity|]. split.
      * apply progress_of_percent. rewrite <- HT. apply counts_ordered.
      * apply progress_of_near; [|exact HK].
        rewrite <- HT. apply counts_ordered.
    + destruct (step_cases now sub_job_id success error_message mt m sj F)
        as [(_ & -> & _)|(_ & -> & _)].
      * rewrite <- (map_id (db_jobs m)) at 2. apply map_rows. now split.
      * eapply Forall2_impl;
          [|apply (committed_elsewhere now sub_job_id success
                                       error_message)].
        intros j j' [E H]. split; [assumption|].
        intros Hne. now rewrite (H Hne).
  - intros calls m Hwf Hinv Hrun m'.
    destruct (run_completions_invariants calls m Hwf Hinv Hrun)
      as (W & I & T & M).
    now repeat split.
Qed.

Lemma progress_is_percentage_and_monotone_witness :
  let calls := [mk_completion 110 "A_batch_001" true None (Json.Object []);
                mk_completion 120 "A_batch_002" false (Some "exit 1")
                              Json.Null] in
  let m := Scenario.both_running in
  well_formed m /\ progress_invariant m /\ valid_run calls m = true
  /\ Scenario.progress_of_job "A" m = Some 0%Q
  /\ Scenario.progress_of_job "A" (run_completions calls m) = Some 50%Q
  /\ Forall2 (fun j j' => j_id j' = j_id j
                          /\ (j_progress j <= j_progress j')%Q)
             (db_jobs m) (db_jobs (run_completions calls m)).
Proof.
  intros calls m.
  assert (W : well_formed m).
  { unfold well_formed. vm_compute.
    repeat constructor; simpl; intuition discriminate. }
  assert (I : progress_invariant m).
  { intros j sj [<-|[]] _ _ _. vm_compute. reflexivity. }
  assert (V : valid_run calls m = true) by (vm_compute; reflexivity).
  split; [exact W|]. split; [exact I|]. split; [exact V|].
  split; [vm_compute; reflexivity|]. split; [vm_compute; reflexivity|].
  apply (proj2 progress_is_percentage_and_monotone calls m W I V).
Defined.

(** C4, the claim as written fails: with one of two sub-jobs completed the
    stored progress is 50, which is neither 1/2 nor a value of [0,1]. *)
Lemma progress_is_not_a_fraction :
  Scenario.progress_of_job "A" Scenario.half_done = Some 50%Q
  /\ completed_count "A" (db_sub_jobs Scenario.half_done) = 1
  /\ total_count "A" (db_sub_jobs Scenario.half_done) = 2
  /\ ~ (50 == 1 # 2)%Q
  /\ ~ (50 <= 1)%Q.
Proof.
  split; [vm_compute; reflexivity|]. split; [reflexivity|].
  split; [reflexivity|].
  split; intros H; vm_compute in H; congruence.
Qed.



(** ** Completion reports over HTTP *)


Section Repeat.

Variables (now : Z) (sub_job_id : string) (success : bool)
          (error_message : option string).
Variables (m : manager) (sj : sub_job_row).
Hypothesis Hwf : well_formed m.
Hypothesis Hfind :
  find (fun r => String.eqb (sj_id r) sub_job_id) (db_sub_jobs m) = Some sj.

Let sjs' :=
  sub_jobs_after now sub_job_id success error_message (db_sub_jobs m).


Hypothesis Hsame : sj_status sj = outcome success.




End Repeat.









(** ** Pulling work *)

Lemma first_pending_none (seen rest : list (string * cached_job)) :
  forallb (fun kc => negb (status_eqb (c_status (snd kc)) pending)) rest
  = true ->
  first_pending seen rest = None.
Proof.
  revert seen. induction rest as [|[k c] rest IH]; intros seen H; simpl in *;
    [reflexivity|].
  apply andb_prop in H as [Hc H].
  destruct (status_eqb (c_status c) pending); [discriminate|].
  now apply IH.
Qed.

Lemma first_pending_some (seen rest : list (string * cached_job)) x :
  first_pending seen rest = Some x ->
  c_status (snd (snd (fst x))) = pending.
Proof.
  revert seen. induction rest as [|[k c] rest IH]; intros seen H; simpl in *;
    [discriminate|].
  destruct (status_eqb (c_status c) pending) eqn:E.
  - injection H as <-. now apply status_eqb_eq.
  - now apply IH in H.
Qed.

Lemma first_pending_in (seen rest before after : list (string * cached_job))
    (k : string) (e : cached_job) :
  first_pending seen rest = Some (before, (k, e), after) ->
  In (k, e) rest /\ c_status e = pending.
Proof.
  revert seen. induction rest as [|[k' c'] rest IH]; intros seen H;
    simpl in *; [discriminate|].
  destruct (status_eqb (c_status c') pending) eqn:E.
  - injection H as _ <- <- _. split; [now left|now apply status_eqb_eq].
  - apply IH in H as [Hin Hs]. split; [now right|assumption].
Qed.

(** X7.  A pull served from the cache issues no statement: both tables
    are as before.  What it hands out is an entry that was pending in the
    cache, marked running for the caller there; the row of that sub-job
    in the store is not looked at and keeps whatever status it has, which
    need not be pending. *)
Lemma cache_hit_leaves_store (now : Z) (worker_id : string)
    (m m' : manager) (c : cached_job) :
  get_next_job now worker_id m = (Some (FromCache c), m') ->
  db_jobs m' = db_jobs m /\ db_sub_jobs m' = db_sub_jobs m
  /\ exists k e, In (k, e) (job_cache m) /\ c_status e = pending
                 /\ c = mark_cached_running e worker_id now.
Proof.
  unfold get_next_job, _get_job_from_cache.
  destruct (cache_enabled m).
  - destruct (first_pending [] (job_cache m)) as [[[before [k e]] after]|]
      eqn:F.
    + intros [= <- <-]. split; [reflexivity|]. split; [reflexivity|].
      apply first_pending_in in F as [Hin Hs]. now exists k, e.
    + destruct (select_pending m) as [|[sj j] others]; discriminate.
  - destruct (select_pending m) as [|[sj j] others]; discriminate.
Qed.

Lemma cache_hit_leaves_store_witness :
  let m := cancel_job "A" (snd Cases.first_pull) in
  option_map sub_job_id (fst (get_next_job 103 "w2" m))
  = Some "A_batch_002"
  /\ Scenario.status_of "A_batch_002" m = Some cancelled
  /\ db_jobs (snd (get_next_job 103 "w2" m)) = db_jobs m
  /\ db_sub_jobs (snd (get_next_job 103 "w2" m)) = db_sub_jobs m.
Proof.
  intros m. split; [reflexivity|]. split; [reflexivity|].
  destruct (cache_hit_leaves_store 103 "w2" m (snd (get_next_job 103 "w2" m))
              (mk_cached_job "A_batch_002" "A" "3-4"
                 (Scenario.payload "normal" "1-4" 2) running 101
                 (Some "w2") (Some 103) None None None)
              eq_refl) as (H1 & H2 & _).
  split; [exact H1 | exact H2].
Defined.

(** X8.  A pull served from the store claims what it hands out: every row of
    that sub-job is running under the caller's name. *)
Lemma store_pull_claims (now : Z) (worker_id : string) (m m' : manager)
    (id parent frames : string) (data : job_data) :
  get_next_job now worker_id m = (Some (FromStore id parent frames data), m') ->
  forall r, In r (db_sub_jobs m') -> sj_id r = id ->
            sj_status r = running /\ sj_worker_id r = Some worker_id.
Proof.
  unfold get_next_job, _get_job_from_cache.
  set (m0 := if cache_enabled m then _ else _).
  destruct m0 as [[c|] m1]; [discriminate|].
  destruct (select_pending m1) as [|[sj j] others]; [discriminate|].
  intros [= <- _ _ _ <-] r Hin Hid. simpl in Hin.
  apply in_update in Hin as [r0 [_ ->]].
  destruct (String.eqb (sj_id r0) (sj_id sj)) eqn:E; [now split|].
  apply String.eqb_neq in E. contradiction.
Qed.

Lemma store_pull_claims_witness :
  get_next_job 101 "w1" Scenario.one_job
  = (Some (FromStore "A_batch_001" "A" "1-2"
                     (Scenario.payload "normal" "1-4" 2)),
     snd Cases.first_pull)
  /\ forall r, In r (db_sub_jobs (snd Cases.first_pull)) ->
               sj_id r = "A_batch_001" ->
               sj_status r = running /\ sj_worker_id r = Some "w1".
Proof.
  split; [reflexivity|].
  apply (store_pull_claims 101 "w1" Scenario.one_job (snd Cases.first_pull)
           "A_batch_001" "A" "1-2" (Scenario.payload "normal" "1-4" 2)).
  reflexivity.
Defined.

(** C2.  The claim: a sub-job goes to at most one caller, a pull served
    from the cache claiming it in the store.  The code: a cache hit marks
    only the cache entry.  Two batches are pending; [w1] pulls batch 1 from
    the store and batch 2 is cached; [w2] pulls batch 2 from the cache and
    the store still has it pending with no worker; [w3] finds no pending
    cache entry, goes to the store and is handed batch 2 again. *)
Theorem cached_pull_is_handed_out_twice :
  fst Scenario.two_pulls = [Some "A_batch_001"; Some "A_batch_002"]
  /\ Scenario.status_of "A_batch_002" (snd Scenario.two_pulls) = Some pending
  /\ option_map sj_worker_id
       (find (fun r => String.eqb (sj_id r) "A_batch_002")
             (db_sub_jobs (snd Scenario.two_pulls))) = Some None
  /\ map (fun kc => (fst kc, c_status (snd kc), c_worker_id (snd kc)))
         (job_cache (snd Scenario.two_pulls))
     = [("A_batch_002", running, Some "w2")]
  /\ fst Scenario.three_pulls
     = [Some "A_batch_001"; Some "A_batch_002"; Some "A_batch_002"]
  /\ option_map sj_worker_id
       (find (fun r => String.eqb (sj_id r) "A_batch_002")
             (db_sub_jobs (snd Scenario.three_pulls))) = Some (Some "w3").
Proof. repeat split; reflexivity. Qed.

(** ** The order of the store query *)

Section QueryOrder.

Let before (a b : sub_job_row * job_row) : Prop :=
  key_le (order_key a) (order_key b) = true.

Lemma key_le_refl a : key_le a a = true.
Proof.
  unfold key_le. rewrite Z.eqb_refl, Z.leb_refl. apply orb_true_r.
Qed.

Lemma key_le_total a b : key_le a b = false -> key_le b a = true.
Proof.
  unfold key_le.
  destruct (Z.ltb_spec (fst a) (fst b)), (Z.ltb_spec (fst b) (fst a)),
    (Z.eqb_spec (fst a) (fst b)), (Z.eqb_spec (fst b) (fst a)),
    (Z.leb_spec (snd a) (snd b)), (Z.leb_spec (snd b) (snd a));
    simpl; try congruence; lia.
Qed.

Lemma key_le_trans a b c :
  key_le a b = true -> key_le b c = true -> key_le a c = true.
Proof.
  unfold key_le.
  destruct (Z.ltb_spec (fst a) (fst b)), (Z.ltb_spec (fst b) (fst c)),
    (Z.ltb_spec (fst a) (fst c)),
    (Z.eqb_spec (fst a) (fst b)), (Z.eqb_spec (fst b) (fst c)),
    (Z.eqb_spec (fst a) (fst c)),
    (Z.leb_spec (snd a) (snd b)), (Z.leb_spec (snd b) (snd c)),
    (Z.leb_spec (snd a) (snd c));
    simpl; try congruence; lia.
Qed.

Lemma insert_row_in r l x : In x (insert_row r l) <-> x = r \/ In x l.
Proof.
  induction l as [|r' l IH]; simpl.
  - intuition.
  - destruct (key_le _ _); simpl; [intuition|]. rewrite IH. intuition.
Qed.

Lemma order_by_in l x : In x (order_by l) <-> In x l.
Proof.
  induction l as [|r l IH]; simpl; [tauto|].
  rewrite insert_row_in, IH. intuition.
Qed.

Lemma insert_row_sorted r l :
  StronglySorted before l -> StronglySorted before (insert_row r l).
Proof.
  induction 1 as [|r' l Hs IH Hall]; simpl.
  - repeat constructor.
  - destruct (key_le (order_key r) (order_key r')) eqn:E.
    + constructor; [now constructor|].
      constructor; [exact E|].
      eapply Forall_impl; [|exact Hall].
      intros x Hx. unfold before in *. eapply key_le_trans; eassumption.
    + constructor; [assumption|].
      apply Forall_forall. intros x Hx.
      apply insert_row_in in Hx as [->|Hx].
      * now apply key_le_total.
      * rewrite Forall_forall in Hall. now apply Hall.
Qed.

Lemma order_by_sorted l : StronglySorted before (order_by l).
Proof.
  induction l; simpl; [constructor|]. now apply insert_row_sorted.
Qed.

(** The first row of the ordered result has the least key of all. *)
Lemma order_by_head_least l r rest :
  order_by l = r :: rest ->
  forall x, In x l -> key_le (order_key r) (order_key x) = true.
Proof.
  intros E x Hx. apply order_by_in in Hx.
  pose proof (order_by_sorted l) as S. rewrite E in *.
  inversion S as [|? ? _ Hall]; subst.
  destruct Hx as [<-|Hx]; [apply key_le_refl|].
  rewrite Forall_forall in Hall. now apply Hall.
Qed.

(** Among the rows of least key it is the first in scan order. *)
Lemma order_by_head_first l r rest :
  order_by l = r :: rest ->
  exists l1 l2,
    l = l1 ++ r :: l2
    /\ Forall (fun x => key_le (order_key x) (order_key r) = false) l1.
Proof.
  revert r rest. induction l as [|a l IH]; intros r rest E; simpl in E;
    [discriminate|].
  destruct (order_by l) as [|h t] eqn:O; simpl in E.
  - injection E as <- <-. exists [], l. split; [reflexivity|constructor].
  - destruct (key_le (order_key a) (order_key h)) eqn:K.
    + injection E as <- <-. exists [], l. split; [reflexivity|constructor].
    + injection E as <- <-.
      destruct (IH h t eq_refl) as (l1 & l2 & -> & F).
      exists (a :: l1), l2. split; [reflexivity|]. now constructor.
Qed.

(** With no pending cache entry [get_next_job] hands out the first row of
    the ordered pending rows. *)
Lemma get_next_job_store_path (now : Z) (worker_id : string) (m : manager) :
  cache_exhausted m = true ->
  fst (get_next_job now worker_id m)
  = match order_by (pending_rows m) with
    | (sj, j) :: _ =>
        Some (FromStore (sj_id sj) (sj_parent_job_id sj) (sj_frame_range sj)
                        (j_job_data j))
    | [] => None
    end.
Proof.
  unfold cache_exhausted, get_next_job, _get_job_from_cache, select_pending.
  intros H.
  destruct (cache_enabled m); simpl in H;
    [rewrite (first_pending_none [] _ H)|];
    now destruct (order_by (pending_rows m)) as [|[sj j] t].
Qed.

End QueryOrder.

(** The second scenario of the specification: with nothing cached when the
    critical job arrives, its batches are drained first. *)
Example priority_overtake :
  Scenario.overtake
  = [Some "J2_batch_001"; Some "J2_batch_002"; Some "J1_batch_001";
     Some "J1_batch_002"; Some "J1_batch_003"].
Proof. reflexivity. Qed.


(** ** Timeout budgets *)

(** No budget reads the renderer's multiplier. *)
Lemma timeout_multiplier_unused (t : option Z) (k k' : string -> option Q)
    (renderer frame_range : string) :
  WorkerNode.render_timeout (WorkerNode.mk_config t k) renderer frame_range
  = WorkerNode.render_timeout (WorkerNode.mk_config t k') renderer frame_range.
Proof. reflexivity. Qed.

(** C8.  The claim: the budget is the number of frames times
    [timeout_per_frame] times the renderer's multiplier.  The code never
    multiplies by [timeout_multiplier], and for silhouette takes as frame
    count the number of pieces the dash splits the range into.  With the
    default configuration, frames 1-10: silhouette gets 2 * 1800 = 3600
    seconds where the claim gives 10 * 1800 * 1.5 = 27000; fusion gets
    18000 where the claim gives 36000. *)
Theorem timeout_budget_misses_multiplier :
  let c := WorkerNode.default_config in
  WorkerNode.frame_count_silhouette "1-10" = 2
  /\ WorkerNode.render_timeout c "silhouette" "1-10" = Some 3600
  /\ (exists q, budget_per_spec c "silhouette" "1-10" = Some q
                /\ (q == 27000)%Q)
  /\ WorkerNode.render_timeout c "fusion" "1-10" = Some 18000
  /\ (exists q, budget_per_spec c "fusion" "1-10" = Some q
                /\ (q == 36000)%Q)
  /\ WorkerNode.render_timeout c "nuke" "1-10" = Some 18000
  /\ (exists q, budget_per_spec c "nuke" "1-10" = Some q
                /\ (q == 18000)%Q).
Proof.
  repeat split; try reflexivity; eexists; split; reflexivity.
Qed.

(** * Further properties *)

Import Invariants.

(** ** Integers in print and the strings of a frame range *)

Section Decimals.

Let chars (d : Decimal.uint) : list ascii :=
  list_ascii_of_string (NilEmpty.string_of_uint d).

Lemma digits_cons (acc k : Z) (b : bool) (c : ascii) (s : list ascii) :
  Py.digit_of c = Some k ->
  Py.digits acc b (c :: s) = Py.digits (10 * acc + k) true s.
Proof. intros H. simpl. now rewrite H. Qed.

Lemma digits_acc (d : Decimal.uint) (acc : positive) :
  Py.digits (Zpos acc) true (chars d) = Some (Zpos (Pos.of_uint_acc d acc)).
Proof.
  revert acc. unfold chars.
  induction d; intros acc;
    cbn [NilEmpty.string_of_uint list_ascii_of_string Pos.of_uint_acc];
    [reflexivity|..];
    erewrite digits_cons by reflexivity;
    rewrite <- IHd; f_equal;
    match goal with
    | |- context [Z.of_nat ?t] =>
        let v := eval vm_compute in (Z.of_nat t) in
        change (Z.of_nat t) with v
    end; lia.
Qed.

Lemma digits_zero (d : Decimal.uint) :
  Py.digits 0 true (chars d) = Some (Z.of_N (Pos.of_uint d)).
Proof.
  unfold chars.
  induction d;
    cbn [NilEmpty.string_of_uint list_ascii_of_string Pos.of_uint];
    [reflexivity|..];
    erewrite digits_cons by reflexivity;
    match goal with
    | |- context [Z.of_nat ?t] =>
        let v := eval vm_compute in (Z.of_nat t) in
        change (Z.of_nat t) with v
    end;
    [exact IHd|..]; apply (digits_acc d).
Qed.

Lemma digits_start (d : Decimal.uint) :
  d <> Decimal.Nil ->
  Py.digits 0 false (chars d) = Py.digits 0 true (chars d).
Proof. destruct d; [congruence|..]; reflexivity. Qed.

Lemma chars_not_space (d : Decimal.uint) :
  Forall (fun c => Py.isspace c = false /\ Ascii.eqb "-" c = false
                   /\ Ascii.eqb c "+" = false) (chars d).
Proof.
  unfold chars. induction d; simpl; constructor; try assumption;
    now repeat split.
Qed.

End Decimals.

Lemma lstrip_head (s : list ascii) :
  match s with [] => True | c :: _ => Py.isspace c = false end ->
  Py.lstrip s = s.
Proof. destruct s as [|c s]; simpl; [reflexivity|]. now intros ->. Qed.

Lemma strip_chars_clean (s : list ascii) :
  Forall (fun c => Py.isspace c = false) s -> Py.strip_chars s = s.
Proof.
  intros H. unfold Py.strip_chars.
  rewrite (lstrip_head s) by (destruct H; auto).
  rewrite lstrip_head, rev_involutive; [reflexivity|].
  apply Forall_rev in H. destruct H; auto.
Qed.

Lemma uint_string_nonnil p :
  NilZero.string_of_uint (Pos.to_uint p)
  = NilEmpty.string_of_uint (Pos.to_uint p).
Proof.
  generalize (Unsigned.to_uint_nonnil p).
  destruct (Pos.to_uint p); [congruence|..]; reflexivity.
Qed.

(** [int(str(n))] is [n]. *)
Lemma int_str (n : Z) : Py.int (Py.str_of_int n) = Some n.
Proof.
  unfold Py.int, Py.str_of_int. destruct n as [|p|p]; [reflexivity|..];
    cbn [Z.to_int NilZero.string_of_int]; rewrite ?uint_string_nonnil.
  - rewrite strip_chars_clean
      by (eapply Forall_impl; [|apply chars_not_space]; now intros c [H _]).
    pose proof (Unsigned.to_uint_nonnil p) as N.
    pose proof (digits_start _ N) as S.
    pose proof (digits_zero (Pos.to_uint p)) as Z0.
    pose proof (chars_not_space (Pos.to_uint p)) as F.
    destruct (list_ascii_of_string (NilEmpty.string_of_uint (Pos.to_uint p)))
      as [|c s] eqn:E.
    + destruct (Pos.to_uint p); simpl in E; congruence.
    + inversion F as [|? ? (_ & Hm & Hp) _]; subst.
      rewrite Ascii.eqb_sym in Hm. rewrite Hm, Hp, S, Z0.
      now rewrite Unsigned.of_to.
  - cbn [list_ascii_of_string].
    rewrite strip_chars_clean.
    + rewrite Ascii.eqb_refl. cbn [option_map].
      rewrite (digits_start _ (Unsigned.to_uint_nonnil p)), digits_zero.
      now rewrite Unsigned.of_to.
    + constructor; [reflexivity|].
      eapply Forall_impl; [|apply chars_not_space]. now intros c [H _].
Qed.

(** ** Strings *)

Lemma chars_app (s t : string) :
  list_ascii_of_string (s ++ t)
  = list_ascii_of_string s ++ list_ascii_of_string t.
Proof. induction s; simpl; [reflexivity|]. now rewrite IHs. Qed.

Lemma contains_in (c : ascii) (s : string) :
  Py.contains c s = true <-> In c (list_ascii_of_string s).
Proof.
  induction s as [|d s IH]; simpl; [split; [discriminate|contradiction]|].
  rewrite orb_true_iff, IH, Ascii.eqb_eq. intuition.
Qed.

Lemma contains_app (c : ascii) (s t : string) :
  Py.contains c (s ++ t) = Py.contains c s || Py.contains c t.
Proof.
  induction s as [|d s IH]; simpl; [reflexivity|].
  now rewrite IH, orb_assoc.
Qed.

Lemma split_without (c : ascii) (s : string) :
  Py.contains c s = false -> Py.split c s = [s].
Proof.
  induction s as [|d s IH]; simpl; [reflexivity|].
  intros H. apply orb_false_elim in H as [Hd Hs].
  rewrite Hd, (IH Hs). reflexivity.
Qed.

Lemma split_at (c : ascii) (s t : string) :
  Py.contains c s = false ->
  Py.split c (s ++ String c t) = s :: Py.split c t.
Proof.
  induction s as [|d s IH]; simpl; intros H.
  - now rewrite Ascii.eqb_refl.
  - apply orb_false_elim in H as [Hd Hs].
    rewrite Hd, (IH Hs). reflexivity.
Qed.

Lemma split_pieces (c : ascii) (s w : string) :
  In w (Py.split c s) -> Py.contains c w = false.
Proof.
  revert w. induction s as [|d s IH]; simpl; intros w H.
  - destruct H as [<-|[]]. reflexivity.
  - destruct (Ascii.eqb c d) eqn:E.
    + destruct H as [<-|H]; [reflexivity|now apply IH].
    + destruct (Py.split c s) as [|w0 ws] eqn:S.
      * destruct H as [<-|[]]. simpl. now rewrite E.
      * destruct H as [<-|H].
        -- simpl. rewrite E. apply IH. now left.
        -- apply IH. now right.
Qed.

Lemma strip_clean (s : string) :
  Forall (fun c => Py.isspace c = false) (list_ascii_of_string s) ->
  Py.strip s = s.
Proof.
  intros H. unfold Py.strip.
  now rewrite strip_chars_clean, string_of_list_ascii_of_string.
Qed.

Lemma lstrip_in (c : ascii) (s : list ascii) :
  In c (Py.lstrip s) -> In c s.
Proof.
  induction s as [|d s IH]; simpl; [tauto|].
  destruct (Py.isspace d); [|tauto]. intros H. right. now apply IH.
Qed.

Lemma strip_chars_in (c : ascii) (s : list ascii) :
  In c (Py.strip_chars s) -> In c s.
Proof.
  unfold Py.strip_chars. intros H.
  apply in_rev, lstrip_in, in_rev, lstrip_in in H. exact H.
Qed.

(** ** Non-negative integers in print *)

Lemma str_of_int_plain (n : Z) : 0 <= n -> plain (Py.str_of_int n).
Proof.
  intros H. unfold plain, Py.str_of_int.
  destruct n as [|p|p]; [repeat constructor| |lia].
  cbn [Z.to_int NilZero.string_of_int]. rewrite uint_string_nonnil.
  eapply Forall_impl; [|apply chars_not_space]. now intros c (A & B & _).
Qed.

Lemma plain_no_dash (s : string) :
  plain s -> Py.contains "-" s = false.
Proof.
  unfold plain. induction s as [|d s IH]; simpl; [reflexivity|].
  intros H. inversion H as [|? ? [_ Hd] Hs]; subst.
  now rewrite Hd, (IH Hs).
Qed.

Lemma plain_strip (s : string) : plain s -> Py.strip s = s.
Proof.
  intros H. apply strip_clean.
  eapply Forall_impl; [|exact H]. now intros c [A _].
Qed.

(** ** Labels *)

Lemma range_single (a : Z) : Py.range a (a + 1) = [a].
Proof.
  unfold Py.range. replace (a + 1 - a) with 1 by lia. simpl.
  now rewrite Z.add_0_r.
Qed.

Lemma dash_label_parts (a b : Z) :
  0 <= a -> 0 <= b ->
  let label := (Py.str_of_int a ++ "-" ++ Py.str_of_int b)%string in
  Py.strip label = label
  /\ Py.contains "-" label = true
  /\ Py.split "-" label = [Py.str_of_int a; Py.str_of_int b].
Proof.
  intros Ha Hb label.
  pose proof (str_of_int_plain a Ha) as Pa.
  pose proof (str_of_int_plain b Hb) as Pb.
  repeat split.
  - apply strip_clean. unfold label. rewrite chars_app. simpl.
    apply Forall_app. split; [|constructor; [reflexivity|]].
    + eapply Forall_impl; [|exact Pa]. now intros c [A _].
    + eapply Forall_impl; [|exact Pb]. now intros c [A _].
  - unfold label. rewrite contains_app. simpl. apply orb_true_r.
  - unfold label. simpl.
    rewrite split_at by now apply plain_no_dash.
    now rewrite split_without by now apply plain_no_dash.
Qed.

Lemma batch_label_cases (slice : list Z) :
  slice <> [] ->
  (exists a, slice = [a] /\ batch_label slice = Py.str_of_int a)
  \/ ((2 <= List.length slice)%nat
      /\ batch_label slice
         = (Py.str_of_int (hd 0 slice) ++ "-"
            ++ Py.str_of_int (last slice 0))%string).
Proof.
  destruct slice as [|a [|b rest]]; [congruence| |]; intros _.
  - left. now exists a.
  - right. split; [simpl; lia|reflexivity].
Qed.

Lemma frames_of_batch_label (slice : list Z) :
  slice <> [] -> 0 <= hd 0 slice -> 0 <= last slice 0 ->
  frames_of_label (batch_label slice)
  = Some (Py.range (hd 0 slice) (last slice 0 + 1)).
Proof.
  intros Hne Hh Hl. unfold frames_of_label, parse_part.
  destruct (batch_label_cases slice Hne) as [[a [-> ->]]|[_ ->]].
  - simpl in Hh. pose proof (str_of_int_plain a Hh) as P.
    rewrite (plain_strip _ P), (plain_no_dash _ P), int_str.
    simpl. now rewrite range_single.
  - destruct (dash_label_parts _ _ Hh Hl) as (-> & -> & ->).
    simpl. now rewrite !int_str.
Qed.

Lemma range_ends (a b : Z) :
  a <= b ->
  Py.range a (b + 1) <> [] /\ hd 0 (Py.range a (b + 1)) = a
  /\ last (Py.range a (b + 1)) 0 = b.
Proof.
  intros H. unfold Py.range.
  replace (Z.to_nat (b + 1 - a)) with (S (Z.to_nat (b - a))) by lia.
  rewrite seq_S, map_app. simpl.
  repeat split.
  - intros E. apply app_eq_nil in E as [_ E]. discriminate.
  - destruct (Z.to_nat (b - a)); simpl; lia.
  - rewrite last_last. lia.
Qed.

(** ** What a parse holds *)

Lemma digit_of_nonneg (c : ascii) (d : Z) : Py.digit_of c = Some d -> 0 <= d.
Proof.
  unfold Py.digit_of. cbv zeta. destruct (_ && _); [|discriminate].
  intros [= <-]. apply Nat2Z.is_nonneg.
Qed.

Lemma digits_nonneg (s : list ascii) (acc : Z) (b : bool) (n : Z) :
  0 <= acc -> Py.digits acc b s = Some n -> 0 <= n.
Proof.
  revert acc b. induction s as [|c s IH]; intros acc b Hacc;
    cbn [Py.digits].
  - destruct b; [|discriminate]. now intros [= <-].
  - destruct (Py.digit_of c) as [d|] eqn:D.
    + apply IH. apply digit_of_nonneg in D. lia.
    + destruct (_ && _); [|discriminate].
      destruct s; [discriminate|]. now apply IH.
Qed.

Lemma int_nonneg (s : string) (n : Z) :
  Py.contains "-" s = false -> Py.int s = Some n -> 0 <= n.
Proof.
  intros Hc. unfold Py.int.
  destruct (Py.strip_chars (list_ascii_of_string s)) as [|c s'] eqn:E;
    [discriminate|].
  destruct (Ascii.eqb c "-") eqn:Ec.
  - apply Ascii.eqb_eq in Ec. subst c. exfalso.
    assert (In "-"%char (list_ascii_of_string s))
      by (apply strip_chars_in; rewrite E; now left).
    apply contains_in in H. congruence.
  - destruct (Ascii.eqb c "+"); apply digits_nonneg; lia.
Qed.

Lemma strip_no_dash (s : string) :
  Py.contains "-" s = false -> Py.contains "-" (Py.strip s) = false.
Proof.
  intros H. destruct (Py.contains "-" (Py.strip s)) eqn:E; [|reflexivity].
  apply contains_in in E. unfold Py.strip in E.
  rewrite list_ascii_of_string_of_list_ascii in E.
  apply strip_chars_in, contains_in in E. congruence.
Qed.

Lemma range_from (a b x : Z) : In x (Py.range a b) <-> a <= x < b.
Proof.
  unfold Py.range. rewrite in_map_iff. split.
  - intros [k [<- H]]. apply in_seq in H. lia.
  - intros H. exists (Z.to_nat (x - a)). split; [lia|].
    apply in_seq. lia.
Qed.

Lemma parse_part_nonneg (part : string) (fs : list Z) :
  parse_part part = Some fs -> Forall (fun x => 0 <= x) fs.
Proof.
  unfold parse_part.
  destruct (Py.contains "-" (Py.strip part)) eqn:C.
  - destruct (Py.split "-" (Py.strip part)) as [|w1 [|w2 [|w3 ws]]] eqn:S;
      simpl; try discriminate;
      try (destruct (Py.int w1); discriminate).
    + destruct (Py.int w1) as [a|] eqn:I1; [|discriminate].
      destruct (Py.int w2) as [b|] eqn:I2; [|discriminate].
      intros [= <-]. apply Forall_forall. intros x Hx.
      apply range_from in Hx.
      assert (0 <= a); [|lia].
      apply (int_nonneg w1); [|assumption].
      apply (split_pieces "-" (Py.strip part)). rewrite S. now left.
    + destruct (Py.int w1); [destruct (Py.int w2)|]; discriminate.
  - destruct (Py.int (Py.strip part)) as [n|] eqn:I; [|discriminate].
    intros [= <-]. constructor; [|constructor].
    now apply (int_nonneg (Py.strip part)).
Qed.

(** The loop of [parse_frame_range] either fails on the first part that
    does not parse or appends the frames of every part. *)
Lemma parse_parts_spec (parts : list string) (acc : list Z) :
  match parse_parts parts acc with
  | Some frames =>
      exists fss,
        Forall2 (fun part fs => parse_part part = Some fs) parts fss
        /\ frames = acc ++ List.concat fss
  | None => exists part, In part parts /\ parse_part part = None
  end.
Proof.
  revert acc. induction parts as [|part parts IH]; intros acc; simpl.
  - exists []. split; [constructor|]. now rewrite app_nil_r.
  - destruct (parse_part part) as [fs|] eqn:P.
    + specialize (IH (acc ++ fs)).
      destruct (parse_parts parts (acc ++ fs)) as [frames|].
      * destruct IH as (fss & F & ->). exists (fs :: fss).
        split; [now constructor|]. simpl. now rewrite app_assoc.
      * destruct IH as (p & Hin & Hp). exists p. split; [now right|exact Hp].
    + exists part. split; [now left|exact P].
Qed.

Lemma sorted_strict (l : list Z) :
  Sorted Z.le l -> NoDup l -> StronglySorted Z.lt l.
Proof.
  intros S N. apply Sorted_StronglySorted in S; [|intros x y z; lia].
  induction S as [|a l S IH F]; [constructor|].
  inversion N as [|? ? Hnot N']; subst.
  constructor; [now apply IH|].
  rewrite Forall_forall in *. intros x Hx.
  assert (a <> x) by (intros ->; contradiction).
  specialize (F x Hx). lia.
Qed.

Lemma concat_parts (parts : list string) (fss : list (list Z)) (x : Z) :
  Forall2 (fun part fs => parse_part part = Some fs) parts fss ->
  In x (List.concat fss)
  <-> exists part fs, In part parts /\ parse_part part = Some fs /\ In x fs.
Proof.
  induction 1 as [|part fs parts fss P F IH]; simpl.
  - split; [contradiction|]. now intros (? & ? & [] & _).
  - rewrite in_app_iff, IH. split.
    + intros [H|(p & f & Hin & Hp & Hx)].
      * exists part, fs. auto.
      * exists p, f. auto.
    + intros (p & f & [<-|Hin] & Hp & Hx).
      * left. congruence.
      * right. exists p, f. auto.
Qed.

(** The frames of a parse are those the parts name. *)
Lemma parse_frame_range_members (s : string) (frames : list Z) (x : Z) :
  parse_frame_range s = Some frames ->
  In x frames
  <-> exists part fs,
        In part (Py.split "," s) /\ parse_part part = Some fs /\ In x fs.
Proof.
  unfold parse_frame_range, parse_frame_range_with.
  pose proof (parse_parts_spec (Py.split "," s) []) as P.
  destruct (parse_parts _ _) as [all|]; [|discriminate].
  destruct P as (fss & F & ->). intros [= <-].
  rewrite <- (concat_parts _ _ x F). simpl.
  split; intros Hx.
  - apply (Permutation_in _ (Permutation_sym (sorted_is_perm _))) in Hx.
    now apply nodup_In in Hx.
  - apply (Permutation_in _ (sorted_is_perm _)). now apply nodup_In.
Qed.

(** X1.  A successful [parse_frame_range] returns the frames in strictly
    increasing order, and a frame is in the result exactly when one of
    the comma-separated parts names it: the order of the parts and
    repeated frames leave no trace. *)
Theorem parse_frame_range_frames (s : string) (frames : list Z) :
  parse_frame_range s = Some frames ->
  StronglySorted Z.lt frames
  /\ forall x,
       In x frames
       <-> exists part fs,
             In part (Py.split "," s) /\ parse_part part = Some fs
             /\ In x fs.
Proof.
  intros H. split.
  - destruct (parse_frame_range_sorted s frames H). now apply sorted_strict.
  - intros x. now apply parse_frame_range_members.
Qed.

Lemma parse_frame_range_frames_witness :
  parse_frame_range "7,1-3,2" = Some [1; 2; 3; 7]
  /\ StronglySorted Z.lt [1; 2; 3; 7].
Proof.
  split; [reflexivity|].
  apply (parse_frame_range_frames "7,1-3,2" [1; 2; 3; 7] eq_refl).
Defined.

(** X2.  No parsed frame is negative: a part that starts with a minus
    sign is split at the sign and fails. *)
Theorem parse_frame_range_nonneg (s : string) (frames : list Z) :
  parse_frame_range s = Some frames -> Forall (fun x => 0 <= x) frames.
Proof.
  intros H. apply Forall_forall. intros x Hx.
  apply (parse_frame_range_members s frames x H) in Hx
    as (part & fs & _ & P & Hin).
  apply parse_part_nonneg in P. rewrite Forall_forall in P. now apply P.
Qed.

Lemma parse_frame_range_nonneg_witness :
  parse_frame_range "0,4-5" = Some [0; 4; 5]
  /\ Forall (fun x => 0 <= x) [0; 4; 5].
Proof.
  split; [reflexivity|].
  apply (parse_frame_range_nonneg "0,4-5" [0; 4; 5] eq_refl).
Defined.



(** X4.  The label of a non-empty slice of non-negative frames, read back
    the way a worker reads it, denotes every frame from the first to the
    last of the slice; it denotes the slice itself when the slice is a
    run of consecutive frames. *)
Theorem batch_label_denotes (slice : list Z) :
  slice <> [] -> 0 <= hd 0 slice -> 0 <= last slice 0 ->
  frames_of_label (batch_label slice)
  = Some (Py.range (hd 0 slice) (last slice 0 + 1))
  /\ (forall a b, a <= b -> slice = Py.range a (b + 1) ->
      frames_of_label (batch_label slice) = Some slice).
Proof.
  intros Hne Hh Hl.
  rewrite (frames_of_batch_label slice Hne Hh Hl).
  split; [reflexivity|].
  intros a b Hab ->.
  destruct (range_ends a b Hab) as (_ & -> & ->). reflexivity.
Qed.

Lemma batch_label_denotes_witness :
  frames_of_label (batch_label [4; 5; 8]) = Some [4; 5; 6; 7; 8]
  /\ frames_of_label (batch_label [10; 11; 12]) = Some [10; 11; 12].
Proof.
  split.
  - apply (batch_label_denotes [4; 5; 8]); [discriminate|simpl; lia..].
  - apply (proj2 (batch_label_denotes [10; 11; 12]
                    ltac:(discriminate) ltac:(simpl; lia) ltac:(simpl; lia))
                 10 12); [lia|reflexivity].
Defined.

(** X5.  On the label of a batch, the nuke and fusion renders budget
    [last - first + 1] frames times [timeout_per_frame], and the
    silhouette render budgets two frames for any batch of more than one
    frame, one otherwise. *)
Theorem budget_on_batch_label (c : WorkerNode.config) (slice : list Z) :
  slice <> [] -> 0 <= hd 0 slice -> 0 <= last slice 0 ->
  let label := batch_label slice in
  let span := last slice 0 - hd 0 slice + 1 in
  WorkerNode.render_nuke_timeout c label
  = Some (span * WorkerNode.per_frame c)
  /\ WorkerNode.render_fusion_timeout c label
     = Some (span * WorkerNode.per_frame c)
  /\ WorkerNode.render_silhouette_timeout c label
     = Some ((if (List.length slice =? 1)%nat then 1 else 2)
             * WorkerNode.per_frame c).
Proof.
  intros Hne Hh Hl label span. subst label span.
  unfold WorkerNode.render_nuke_timeout, WorkerNode.render_fusion_timeout,
    WorkerNode.render_silhouette_timeout, WorkerNode.frame_count_start_end,
    WorkerNode.frame_count_silhouette, WorkerNode.start_end.
  destruct (batch_label_cases slice Hne) as [[a [-> ->]]|[Hlen ->]].
  - simpl in Hh.
    rewrite (plain_no_dash _ (str_of_int_plain a Hh)).
    cbn [option_map hd last List.length Nat.eqb].
    repeat split; f_equal; lia.
  - destruct (dash_label_parts _ _ Hh Hl) as (_ & -> & ->).
    rewrite !int_str. cbn [option_map List.length].
    destruct (Nat.eqb_spec (List.length slice) 1); [lia|].
    repeat split.
Qed.

Lemma budget_on_batch_label_witness :
  WorkerNode.render_nuke_timeout WorkerNode.default_config
                                 (batch_label [4; 5; 8])
  = Some (5 * 1800)
  /\ WorkerNode.render_silhouette_timeout WorkerNode.default_config
                                          (batch_label [4; 5; 8])
     = Some (2 * 1800).
Proof.
  destruct (budget_on_batch_label WorkerNode.default_config [4; 5; 8])
    as (N & _ & S); [discriminate|simpl; lia..|].
  split; [exact N|exact S].
Defined.

(** ** Submitting *)

Lemma NoDup_snoc {A} (l : list A) (x : A) :
  NoDup l -> ~ In x l -> NoDup (l ++ [x]).
Proof.
  intros N H. apply (Permutation_NoDup (Permutation_cons_append l x)).
  now constructor.
Qed.

Lemma insert_sub_jobs_spec (job_id : string) (rows : list (nat * string))
    (sjs sjs' : list sub_job_row) :
  insert_sub_jobs job_id rows sjs = Some sjs' ->
  sjs' = sjs ++ map (new_sub_job job_id) rows
  /\ (NoDup (map sj_id sjs) -> NoDup (map sj_id sjs')).
Proof.
  revert sjs. induction rows as [|[n batch] rows IH]; intros sjs; simpl.
  - intros [= <-]. now rewrite app_nil_r.
  - destruct (existsb _ sjs) eqn:E; [discriminate|].
    intros H. apply IH in H as [-> N]. split.
    + now rewrite <- app_assoc.
    + intros Hs. apply N. rewrite map_app. simpl.
      apply NoDup_snoc; [assumption|].
      intros Hin. apply in_map_iff in Hin as [r [Hr Hin]].
      assert (existsb (fun sj => String.eqb (sj_id sj) (sub_job_id_of job_id n))
                      sjs = true).
      { apply existsb_exists. exists r. split; [assumption|].
        now apply String.eqb_eq. }
      congruence.
Qed.

(** X9.  When [create_sub_jobs] succeeds it appends, after the rows
    already stored, one pending row per batch, in the order of the
    batches and numbered from 1, under the id [<job>_batch_NNN]; the jobs
    and the job cache are left alone, and the sub-job ids stay unique. *)
Theorem create_sub_jobs_rows (job_id : string) (batches : list string)
    (m m' : manager) :
  create_sub_jobs job_id batches m = Some m' ->
  db_sub_jobs m'
  = db_sub_jobs m ++ map (new_sub_job job_id) (batch_numbers batches)
  /\ db_jobs m' = db_jobs m
  /\ job_cache m' = job_cache m
  /\ (well_formed m -> well_formed m').
Proof.
  unfold create_sub_jobs.
  destruct (insert_sub_jobs _ _ _) as [sjs|] eqn:E; [|discriminate].
  intros [= <-]. apply insert_sub_jobs_spec in E as [-> N].
  repeat split. exact N.
Qed.

Lemma create_sub_jobs_rows_witness :
  let m' := Scenario.or_init (create_sub_jobs "A" ["1-2"; "3-4"] init) in
  create_sub_jobs "A" ["1-2"; "3-4"] init = Some m'
  /\ db_sub_jobs m'
     = [new_sub_job "A" (1%nat, "1-2"); new_sub_job "A" (2%nat, "3-4")]
  /\ db_jobs m' = [].
Proof.
  intros m'.
  destruct (create_sub_jobs_rows "A" ["1-2"; "3-4"] init m' eq_refl)
    as (H1 & H2 & _).
  split; [reflexivity|]. split; [exact H1 | exact H2].
Defined.

(** ** Nothing to hand out *)

Lemma first_pending_found (seen rest : list (string * cached_job)) :
  first_pending seen rest = None ->
  forallb (fun kc => negb (status_eqb (c_status (snd kc)) pending)) rest
  = true.
Proof.
  revert seen. induction rest as [|[k c] rest IH]; intros seen; simpl;
    [reflexivity|].
  destruct (status_eqb (c_status c) pending); [discriminate|].
  intros H. simpl. now apply IH in H.
Qed.

Lemma order_by_empty l : order_by l = [] -> l = [].
Proof.
  destruct l as [|r l]; [reflexivity|]. intros E. exfalso.
  assert (H : In r (order_by (r :: l))) by (apply order_by_in; now left).
  now rewrite E in H.
Qed.

Lemma get_next_job_none (now : Z) (worker_id : string) (m : manager) :
  fst (get_next_job now worker_id m) = None
  <-> cache_exhausted m = true /\ pending_rows m = [].
Proof.
  split.
  - unfold get_next_job, _get_job_from_cache, cache_exhausted.
    destruct (cache_enabled m); simpl.
    + destruct (first_pending [] (job_cache m))
        as [[[before [k c]] after]|] eqn:F; [discriminate|].
      apply first_pending_found in F. rewrite F.
      unfold select_pending.
      destruct (order_by (pending_rows m)) as [|[sj j] t] eqn:O;
        [|discriminate].
      intros _. split; [reflexivity|now apply order_by_empty].
    + unfold select_pending.
      destruct (order_by (pending_rows m)) as [|[sj j] t] eqn:O;
        [|discriminate].
      intros _. split; [reflexivity|now apply order_by_empty].
  - intros [C P]. rewrite (get_next_job_store_path now worker_id m C).
    now rewrite P.
Qed.

Lemma get_next_job_none_state (now : Z) (worker_id : string) (m : manager) :
  fst (get_next_job now worker_id m) = None ->
  snd (get_next_job now worker_id m) = m.
Proof.
  unfold get_next_job, _get_job_from_cache.
  destruct (cache_enabled m).
  - destruct (first_pending [] (job_cache m))
      as [[[before [k c]] after]|]; [discriminate|].
    destruct (select_pending m) as [|[sj j] t]; [reflexivity|discriminate].
  - destruct (select_pending m) as [|[sj j] t]; [reflexivity|discriminate].
Qed.

(** X10.  [GET /api/jobs/next] with a non-empty [worker_id] answers 204
    and changes nothing exactly when no cache entry is pending (or the
    cache is off) and the store holds no pending sub-job of a stored job;
    every other answer is 200 with a job. *)
Theorem next_job_no_content (now : Z) (worker_id : string) (m : manager) :
  worker_id <> "" ->
  (ServerRoutes.do_GET_next now (Some worker_id) m = (204%nat, None, m)
   <-> cache_exhausted m = true /\ pending_rows m = [])
  /\ (fst (fst (ServerRoutes.do_GET_next now (Some worker_id) m)) = 204%nat
      \/ exists job,
           fst (ServerRoutes.do_GET_next now (Some worker_id) m)
           = (200%nat, Some job)).
Proof.
  intros Hw. unfold ServerRoutes.do_GET_next.
  apply String.eqb_neq in Hw. rewrite Hw.
  pose proof (get_next_job_none now worker_id m) as N.
  pose proof (get_next_job_none_state now worker_id m) as S.
  destruct (get_next_job now worker_id m) as [[job|] m']; simpl in *.
  - split; [|right; now exists job].
    split; [discriminate|]. intros H. apply N in H. discriminate.
  - split; [|now left].
    rewrite (S eq_refl). split; [intros _; now apply N|reflexivity].
Qed.

Lemma next_job_no_content_witness :
  "w1" <> ""
  /\ (ServerRoutes.do_GET_next 5 (Some "w1") init = (204%nat, None, init)
      <-> cache_exhausted init = true /\ pending_rows init = []).
Proof.
  split; [discriminate|].
  apply (next_job_no_content 5 "w1" init). discriminate.
Defined.

(** ** A pull from the store *)

Lemma in_pending_rows (m : manager) (sj : sub_job_row) (j : job_row) :
  In (sj, j) (pending_rows m)
  <-> In sj (db_sub_jobs m) /\ sj_status sj = pending
      /\ In j (db_jobs m) /\ j_id j = sj_parent_job_id sj.
Proof.
  unfold pending_rows. rewrite in_flat_map. split.
  - intros (sj' & Hsj & Hin).
    apply in_map_iff in Hin as (j' & [= <- <-] & Hj).
    apply filter_In in Hsj as [Hsj Hp]. apply filter_In in Hj as [Hj He].
    apply status_eqb_eq in Hp. apply String.eqb_eq in He. auto.
  - intros (Hsj & Hp & Hj & He). exists sj. split.
    + apply filter_In. split; [assumption|]. now apply status_eqb_eq.
    + apply in_map, filter_In. split; [assumption|].
      apply String.eqb_eq. congruence.
Qed.

(** What a pull from the store returns and does, read off the head of the
    ordered pending rows. *)
Lemma store_pull_inversion (now : Z) (worker_id : string) (m m' : manager)
    (id parent frames : string) (data : job_data) :
  get_next_job now worker_id m = (Some (FromStore id parent frames data), m')
  ->
  exists sj j rest,
    order_by (pending_rows m) = (sj, j) :: rest
    /\ id = sj_id sj /\ parent = sj_parent_job_id sj
    /\ frames = sj_frame_range sj /\ data = j_job_data j
    /\ db_sub_jobs m'
       = update (fun r => String.eqb (sj_id r) (sj_id sj))
                (fun r => set_sj_running r worker_id now) (db_sub_jobs m)
    /\ db_jobs m'
       = update (fun r => String.eqb (j_id r) (sj_parent_job_id sj)
                          && status_eqb (j_status r) pending)
                (fun r => set_j_started r running now) (db_jobs m).
Proof.
  unfold get_next_job, _get_job_from_cache, select_pending.
  destruct (cache_enabled m) eqn:En.
  - destruct (first_pending [] (job_cache m))
      as [[[before [k c]] after]|]; [discriminate|].
    destruct (order_by (pending_rows m)) as [|[sj j] rest] eqn:O;
      [discriminate|]. simpl. rewrite En. simpl.
    intros [= <- <- <- <- <-]. exists sj, j, rest.
    repeat split; now destruct (_ <? _)%nat.
  - destruct (order_by (pending_rows m)) as [|[sj j] rest] eqn:O;
      [discriminate|]. simpl. rewrite En. simpl.
    intros [= <- <- <- <- <-]. exists sj, j, rest. now repeat split.
Qed.

(** X11.  What a pull served from the store hands out is a pending
    sub-job of a stored job, and no pending sub-job belongs to a job of a
    more urgent priority, or of the same priority and created earlier. *)
Theorem store_pull_is_least (now : Z) (worker_id : string) (m m' : manager)
    (id parent frames : string) (data : job_data) :
  get_next_job now worker_id m = (Some (FromStore id parent frames data), m')
  ->
  exists sj j,
    In sj (db_sub_jobs m) /\ sj_status sj = pending /\ sj_id sj = id
    /\ In j (db_jobs m) /\ j_id j = parent /\ sj_parent_job_id sj = parent
    /\ forall sj' j',
         In sj' (db_sub_jobs m) -> sj_status sj' = pending ->
         In j' (db_jobs m) -> j_id j' = sj_parent_job_id sj' ->
         priority_rank (j_priority j) < priority_rank (j_priority j')
         \/ (priority_rank (j_priority j) = priority_rank (j_priority j')
             /\ j_created_at j <= j_created_at j').
Proof.
  intros H.
  apply store_pull_inversion in H
    as (sj & j & rest & O & -> & -> & _ & _ & _ & _).
  assert (Hin : In (sj, j) (pending_rows m))
    by (apply order_by_in; rewrite O; now left).
  apply in_pending_rows in Hin as (Hsj & Hp & Hj & He).
  exists sj, j. repeat split; try assumption.
  intros sj' j' Hsj' Hp' Hj' He'.
  assert (K : key_le (order_key (sj, j)) (order_key (sj', j')) = true).
  { apply (order_by_head_least _ _ _ O). apply in_pending_rows. auto. }
  unfold key_le, order_key in K. simpl in K.
  apply orb_prop in K as [K|K].
  - left. now apply Z.ltb_lt.
  - right. apply andb_prop in K as [K1 K2].
    split; [now apply Z.eqb_eq|now apply Z.leb_le].
Qed.

Lemma store_pull_is_least_witness :
  get_next_job 101 "w1" Scenario.one_job
  = (Some (FromStore "A_batch_001" "A" "1-2"
                     (Scenario.payload "normal" "1-4" 2)),
     snd Cases.first_pull)
  /\ exists sj j,
       In sj (db_sub_jobs Scenario.one_job) /\ sj_status sj = pending
       /\ sj_id sj = "A_batch_001"
       /\ In j (db_jobs Scenario.one_job) /\ j_id j = "A"
       /\ sj_parent_job_id sj = "A"
       /\ forall sj' j',
            In sj' (db_sub_jobs Scenario.one_job) ->
            sj_status sj' = pending ->
            In j' (db_jobs Scenario.one_job) ->
            j_id j' = sj_parent_job_id sj' ->
            priority_rank (j_priority j) < priority_rank (j_priority j')
            \/ (priority_rank (j_priority j) = priority_rank (j_priority j')
                /\ j_created_at j <= j_created_at j').
Proof.
  split; [reflexivity|].
  apply (store_pull_is_least 101 "w1" Scenario.one_job
           (snd Cases.first_pull) "A_batch_001" "A" "1-2"
           (Scenario.payload "normal" "1-4" 2)).
  reflexivity.
Defined.

(** X12.  With unique sub-job ids, a pull served from the store turns
    exactly one pending sub-job into a running one: one pending row
    fewer, one running row more, as many rows of every other status, and
    the ids stay unique. *)
Theorem store_pull_consumes_one (now : Z) (worker_id : string)
    (m m' : manager) (id parent frames : string) (data : job_data) :
  well_formed m ->
  get_next_job now worker_id m = (Some (FromStore id parent frames data), m')
  ->
  count_status pending m = S (count_status pending m')
  /\ count_status running m' = S (count_status running m)
  /\ (forall s, s <> pending -> s <> running ->
                count_status s m' = count_status s m)
  /\ well_formed m'.
Proof.
  intros W H.
  apply store_pull_inversion in H
    as (sj & j & rest & O & _ & _ & _ & _ & Hs & _).
  assert (Hin : In (sj, j) (pending_rows m))
    by (apply order_by_in; rewrite O; now left).
  apply in_pending_rows in Hin as (Hsj & Hp & _).
  assert (C : forall s,
             (count_status s m'
              + (if status_eqb (sj_status sj) s then 1 else 0)
              = count_status s m
                + (if status_eqb running s then 1 else 0))%nat).
  { intros s. unfold count_status. rewrite Hs.
    apply (count_update_one sj_id
             (fun a b => String.eqb (sj_id a) (sj_id b))
             (fun r => status_eqb (sj_status r) s)
             (fun r => set_sj_running r worker_id now));
      try assumption.
    intros a b. apply String.eqb_eq. }
  rewrite Hp in C. repeat split.
  - specialize (C pending). simpl in C. lia.
  - specialize (C running). simpl in C. lia.
  - intros s H1 H2. specialize (C s).
    destruct s; simpl in C; try congruence; lia.
  - unfold well_formed. rewrite Hs. unfold update. rewrite map_map.
    erewrite map_ext; [exact W|].
    intros r. now destruct (String.eqb _ _).
Qed.

Lemma store_pull_consumes_one_witness :
  well_formed Scenario.one_job
  /\ get_next_job 101 "w1" Scenario.one_job
     = (Some (FromStore "A_batch_001" "A" "1-2"
                        (Scenario.payload "normal" "1-4" 2)),
        snd Cases.first_pull)
  /\ count_status pending Scenario.one_job = 2%nat
  /\ count_status pending (snd Cases.first_pull) = 1%nat
  /\ count_status running (snd Cases.first_pull) = 1%nat
  /\ well_formed (snd Cases.first_pull).
Proof.
  assert (W : well_formed Scenario.one_job).
  { unfold well_formed. vm_compute.
    repeat constructor; simpl; intuition discriminate. }
  split; [exact W|]. split; [reflexivity|].
  split; [reflexivity|]. split; [reflexivity|]. split; [reflexivity|].
  apply (store_pull_consumes_one 101 "w1" Scenario.one_job
           (snd Cases.first_pull) "A_batch_001" "A" "1-2"
           (Scenario.payload "normal" "1-4" 2) W eq_refl).
Defined.

(** ** The job cache as a bounded dict *)

Lemma dict_set_keys (k : string) (v : cached_job)
    (d : list (string * cached_job)) :
  map fst (dict_set k v d) = map fst d
  \/ (~ In k (map fst d) /\ map fst (dict_set k v d) = map fst d ++ [k]).
Proof.
  induction d as [|[k' v'] d IH]; simpl.
  - right. split; [tauto|reflexivity].
  - destruct (String.eqb_spec k' k) as [->|Hne]; simpl; [now left|].
    destruct IH as [->|[Hn ->]]; [now left|].
    right. split; [|reflexivity]. intros [E|H]; auto.
Qed.

Lemma dict_set_ok (k : string) (v : cached_job)
    (d : list (string * cached_job)) :
  NoDup (map fst d) ->
  NoDup (map fst (dict_set k v d))
  /\ (List.length (dict_set k v d) <= S (List.length d))%nat.
Proof.
  intros N.
  assert (L : forall l : list (string * cached_job),
             List.length l = List.length (map fst l))
    by (intros; now rewrite length_map).
  rewrite (L (dict_set k v d)), (L d).
  destruct (dict_set_keys k v d) as [->|[Hn ->]].
  - split; [assumption|lia].
  - split; [now apply NoDup_snoc|]. rewrite length_app. simpl. lia.
Qed.

Lemma cache_rows_ok (now : Z) (max_size : nat)
    (rows : list (sub_job_row * job_row)) (d : list (string * cached_job)) :
  NoDup (map fst d) -> (List.length d <= max_size)%nat ->
  NoDup (map fst (cache_rows now max_size rows d))
  /\ (List.length (cache_rows now max_size rows d) <= max_size)%nat.
Proof.
  revert d. induction rows as [|[sj j] rows IH]; intros d N L; simpl;
    [now split|].
  destruct (Nat.leb_spec max_size (List.length d)).
  - destruct d as [|kv d']; [now split|].
    simpl in N, L. inversion N; subst.
    match goal with
    | |- context [dict_set ?k ?v d'] =>
        destruct (dict_set_ok k v d') as [N' L']; [assumption|]
    end.
    apply IH; [assumption|lia].
  - match goal with
    | |- context [dict_set ?k ?v d] =>
        destruct (dict_set_ok k v d) as [N' L']; [assumption|]
    end.
    apply IH; [assumption|lia].
Qed.

Lemma first_pending_split (seen rest before after : list (string * cached_job))
    (kc : string * cached_job) :
  first_pending seen rest = Some (before, kc, after) ->
  seen ++ rest = before ++ kc :: after.
Proof.
  revert seen. induction rest as [|[k c] rest IH]; intros seen; simpl;
    [discriminate|].
  destruct (status_eqb (c_status c) pending).
  - now intros [= <- <- <-].
  - intros H. apply IH in H. now rewrite <- app_assoc in H.
Qed.

(** A [DELETE] keeps a key unique. *)
Lemma NoDup_map_filter {K V} (key : V -> K) (keep : V -> bool)
    (rows : list V) :
  NoDup (map key rows) -> NoDup (map key (filter keep rows)).
Proof.
  induction rows as [|r rows IH]; simpl; [auto|].
  intros N. inversion N as [|? ? Hnot N']; subst.
  destruct (keep r); simpl; [|now apply IH].
  constructor; [|now apply IH].
  intros H. apply Hnot. apply in_map_iff in H as [x [E Hx]].
  apply filter_In in Hx as [Hx _]. rewrite <- E. now apply in_map.
Qed.

Lemma cache_ok_get_job_from_cache (now : Z) (worker_id : string)
    (m : manager) :
  cache_ok m -> cache_ok (snd (_get_job_from_cache now worker_id m)).
Proof.
  intros [N L]. unfold _get_job_from_cache.
  destruct (first_pending [] (job_cache m))
    as [[[before [k c]] after]|] eqn:F; [|now split].
  apply first_pending_split in F. simpl in F.
  unfold cache_ok. simpl. rewrite F in N, L.
  assert (P : Permutation (map fst (before ++ (k, c) :: after))
                          (map fst (before ++ after
                                    ++ [(k, mark_cached_running c worker_id
                                                                now)]))).
  { repeat (rewrite ?map_app; simpl).
    apply Permutation_app_head. apply Permutation_cons_append. }
  split.
  - exact (Permutation_NoDup P N).
  - rewrite !length_app in *. simpl in *. lia.
Qed.

(** X13.  A job cache that holds one entry per key and at most
    [cache_max_size] entries still does after [get_next_job],
    [complete_sub_job], [clear_completed_jobs] and [optimize_cache]. *)
Theorem job_cache_stays_bounded (now : Z) (worker_id sub_job_id : string)
    (success : bool) (error_message : option string)
    (mt : metrics) (m : manager) :
  cache_ok m ->
  cache_ok (snd (get_next_job now worker_id m))
  /\ cache_ok (snd (complete_sub_job now sub_job_id success error_message
                                     mt m))
  /\ cache_ok (clear_completed_jobs m)
  /\ cache_ok (optimize_cache now m).
Proof.
  intros C. split; [|split; [|split]].
  - unfold get_next_job.
    pose proof (cache_ok_get_job_from_cache now worker_id m C) as C1.
    destruct (cache_enabled m) eqn:En.
    + destruct (_get_job_from_cache now worker_id m) as [[c|] m1];
        [exact C1|]. simpl in C1.
      destruct (select_pending m1) as [|[sj j] others]; [exact C1|].
      destruct (cache_enabled m1 && _); [|exact C1].
      destruct C1 as [N L]. unfold cache_ok. simpl.
      now apply cache_rows_ok.
    + destruct (select_pending m) as [|[sj j] others]; [exact C|].
      rewrite En. exact C.
  - destruct C as [N L]. unfold complete_sub_job.
    set (m0 := if cache_enabled m then _ else m).
    assert (C0 : cache_ok m0).
    { subst m0. destruct (cache_enabled m); [|now split].
      unfold cache_ok. simpl. unfold update.
      rewrite map_map, length_map. simpl.
      split; [|assumption].
      erewrite map_ext; [exact N|].
      intros kc. now destruct (String.eqb _ _). }
    destruct (find _ _); [|exact C0].
    destruct (_ && _); [exact C0|]. cbn [snd].
    destruct C0 as [N0 L0].
    match goal with
    | |- context [if ?b then _ else _] => destruct b
    end; [|now split].
    unfold optimize_cache. simpl.
    destruct (cache_enabled m0); [|now split].
    unfold cache_ok. simpl. split.
    + now apply NoDup_map_filter.
    + etransitivity; [apply filter_length_le|exact L0].
  - destruct C as [N L]. unfold clear_completed_jobs.
    destruct (cache_enabled m); [|now split].
    unfold cache_ok. simpl. split.
    + now apply NoDup_map_filter.
    + etransitivity; [apply filter_length_le|exact L].
  - destruct C as [N L]. unfold optimize_cache.
    destruct (cache_enabled m); [|now split].
    unfold cache_ok. simpl. split.
    + now apply NoDup_map_filter.
    + etransitivity; [apply filter_length_le|exact L].
Qed.

Lemma job_cache_stays_bounded_witness :
  let m := snd Cases.first_pull in
  cache_ok m
  /\ cache_ok (snd (get_next_job 102 "w2" m))
  /\ cache_ok (snd (complete_sub_job 110 "A_batch_001" true None
                                     (Json.Object []) m)).
Proof.
  intros m.
  assert (C : cache_ok m).
  { split.
    - vm_compute. repeat constructor; simpl; intuition discriminate.
    - apply Nat.leb_le. reflexivity. }
  split; [exact C|].
  destruct (job_cache_stays_bounded 102 "w2" "A_batch_001" true None
              (Json.Object []) m C) as (H1 & _).
  destruct (job_cache_stays_bounded 110 "w2" "A_batch_001" true None
              (Json.Object []) m C) as (_ & H2 & _).
  split; [exact H1 | exact H2].
Defined.

(** ** Completion at the edges *)



(** X15.  After a [complete_sub_job] that commits, on a stored sub-job
    of a job with no more than [2 ** 53] sub-jobs, the progress of the job
    is 100 exactly when every sub-job of the job is completed, and the job
    is then completed, with [completed_at] the time of the call. *)
Theorem full_progress_iff_all_completed
    (now : Z) (sub_job_id : string) (success : bool)
    (error_message : option string) (mt : metrics)
    (m : manager) (sj : sub_job_row) :
  find (fun r => String.eqb (sj_id r) sub_job_id) (db_sub_jobs m) = Some sj ->
  total_count (sj_parent_job_id sj) (db_sub_jobs m) <= 2 ^ 53 ->
  let out := complete_sub_job now sub_job_id success error_message mt m in
  fst out = returns ->
  forall j', In j' (db_jobs (snd out)) -> j_id j' = sj_parent_job_id sj ->
    ((j_progress j' == 100)%Q
     <-> Forall (fun r => sj_status r = completed)
                (sub_jobs_of (sj_parent_job_id sj) (db_sub_jobs (snd out))))
    /\ ((j_progress j' == 100)%Q ->
        j_status j' = completed /\ j_completed_at j' = Some now).
Proof.
  intros F B out R j' Hin Hid. subst out.
  destruct (step_cases now sub_job_id success error_message mt m sj F)
    as [(_ & _ & R')|(S & J & _)]; [congruence|].
  rewrite S, J in *. clear S J.
  set (sjs := sub_jobs_after now sub_job_id success error_message
                             (db_sub_jobs m)) in *.
  set (parent := sj_parent_job_id sj) in *.
  pose proof (committed_progress now sub_job_id success error_message
                                 m sj j' Hin Hid) as P.
  fold sjs parent in P.
  pose proof (reported_total now sub_job_id success error_message m parent)
    as T.
  fold sjs in T.
  pose proof (parent_has_sub_jobs sub_job_id m sj F) as K. fold parent in K.
  pose proof (counts_ordered parent sjs) as O.
  assert (I : (j_progress j' == 100)%Q
              <-> completed_count parent sjs = total_count parent sjs).
  { rewrite P. split.
    - intros H.
      destruct (Z.eq_dec (completed_count parent sjs)
                         (total_count parent sjs)) as [E|Ne];
        [assumption|].
      exfalso.
      assert (L : (progress_of (completed_count parent sjs)
                               (total_count parent sjs) < 100)%Q)
        by (apply progress_of_not_full; lia).
      rewrite H in L. now apply Qlt_irrefl in L.
    - intros E. rewrite E, progress_of_full by lia. reflexivity. }
  split; [now rewrite I, all_completed_counts|].
  intros H100. apply I in H100.
  rewrite jobs_after_rows in Hin. apply Z.eqb_eq in H100.
  rewrite H100 in Hin.
  apply in_map_iff in Hin as [j [<- _]].
  destruct (String.eqb (j_id j) parent) eqn:E; [now split|].
  apply String.eqb_neq in E. contradiction.
Qed.

Lemma full_progress_iff_all_completed_witness :
  let out := complete_sub_job 120 "A_batch_002" true None (Json.Object [])
                              Scenario.half_done in
  Scenario.status_of "A_batch_002" Scenario.half_done = Some running
  /\ total_count "A" (db_sub_jobs Scenario.half_done) <= 2 ^ 53
  /\ fst out = returns
  /\ exists j', In j' (db_jobs (snd out)) /\ j_id j' = "A"
       /\ ((j_progress j' == 100)%Q
           <-> Forall (fun r => sj_status r = completed)
                      (sub_jobs_of "A" (db_sub_jobs (snd out))))
       /\ j_status j' = completed /\ j_completed_at j' = Some 120.
Proof.
  intros out. split; [reflexivity|].
  split; [vm_compute; discriminate|]. split; [vm_compute; reflexivity|].
  exists (mk_job_row "A" "shot" "nuke" completed 100%Q "normal"
                     (Scenario.payload "normal" "1-4" 2) 100 (Some 101)
                     (Some 120)).
  split; [left; vm_compute; reflexivity|]. split; [reflexivity|].
  assert (B : total_count "A" (db_sub_jobs Scenario.half_done) <= 2 ^ 53)
    by (vm_compute; discriminate).
  assert (R : fst (complete_sub_job 120 "A_batch_002" true None
                                    (Json.Object []) Scenario.half_done)
              = returns) by (vm_compute; reflexivity).
  assert (Hin : In (mk_job_row "A" "shot" "nuke" completed 100%Q "normal"
                      (Scenario.payload "normal" "1-4" 2) 100 (Some 101)
                      (Some 120))
                   (db_jobs (snd (complete_sub_job 120 "A_batch_002" true
                                    None (Json.Object [])
                                    Scenario.half_done))))
    by (left; vm_compute; reflexivity).
  destruct (full_progress_iff_all_completed 120 "A_batch_002" true None
              (Json.Object []) Scenario.half_done
              (mk_sub_job_row "A_batch_002" "A" 2 "3-4" running (Some "w2")
                              (Some 102) None None)
              eq_refl B R _ Hin eq_refl) as [H1 H2].
  split; [exact H1|]. apply H2. reflexivity.
Defined.

(** ** Pause, resume, cancel, clear *)

(** X16.  [pause_job] and then [resume_job] on the same job: every
    sub-job of the job that was running or paused is pending, the ones
    that were running included, every other row is as before, no
    [worker_id] is cleared, the job itself is running whatever its status
    was, and the job cache is left alone. *)
Theorem resume_after_pause (job_id : string) (m : manager) :
  let m' := resume_job job_id (pause_job job_id m) in
  db_sub_jobs m'
  = map (fun sj =>
           if String.eqb (sj_parent_job_id sj) job_id
              && (status_eqb (sj_status sj) running
                  || status_eqb (sj_status sj) paused)
           then set_sj_status sj pending else sj)
        (db_sub_jobs m)
  /\ map sj_worker_id (db_sub_jobs m') = map sj_worker_id (db_sub_jobs m)
  /\ (forall j, In j (db_jobs m') -> j_id j = job_id -> j_status j = running)
  /\ job_cache m' = job_cache m.
Proof.
  simpl. unfold update. rewrite !map_map. repeat split.
  - apply map_ext. intros sj.
    destruct (String.eqb (sj_parent_job_id sj) job_id) eqn:P; simpl;
      [|now rewrite P].
    destruct (sj_status sj) eqn:S; simpl; rewrite ?P, ?S; simpl;
      reflexivity.
  - apply map_ext. intros sj.
    destruct (String.eqb (sj_parent_job_id sj) job_id
              && status_eqb (sj_status sj) running); simpl;
      now destruct (_ && _).
  - intros j Hin Hid. apply in_map_iff in Hin as [j0 [<- _]].
    destruct (String.eqb (j_id j0) job_id) eqn:E; simpl.
    + now rewrite E.
    + rewrite E. rewrite E in Hid. simpl in Hid.
      apply String.eqb_neq in E. contradiction.
Qed.

Lemma cancelled_not_pending (job_id : string) (m : manager)
    (sj : sub_job_row) :
  In sj (db_sub_jobs (cancel_job job_id m)) ->
  sj_parent_job_id sj = job_id -> sj_status sj = cancelled.
Proof.
  simpl. intros Hin Hp. apply in_update in Hin as [r [_ ->]].
  destruct (String.eqb (sj_parent_job_id r) job_id) eqn:E; [reflexivity|].
  apply String.eqb_neq in E. contradiction.
Qed.

(** X17.  After [cancel_job] every sub-job of the job is cancelled,
    whatever its status was, the progress of every job is as before, and
    no pull served from the store hands out a sub-job of the job. *)
Theorem cancel_stops_store_dispatch (now : Z) (worker_id job_id : string)
    (m : manager) :
  (forall sj, In sj (db_sub_jobs (cancel_job job_id m)) ->
              sj_parent_job_id sj = job_id -> sj_status sj = cancelled)
  /\ map j_progress (db_jobs (cancel_job job_id m))
     = map j_progress (db_jobs m)
  /\ (forall id parent frames data m',
        get_next_job now worker_id (cancel_job job_id m)
        = (Some (FromStore id parent frames data), m') ->
        parent <> job_id).
Proof.
  repeat split.
  - intros sj. apply cancelled_not_pending.
  - simpl. unfold update. rewrite map_map. apply map_ext.
    intros j. now destruct (String.eqb _ _).
  - intros id parent frames data m' H ->.
    apply store_pull_inversion in H
      as (sj & j & rest & O & _ & Hp & _).
    assert (Hin : In (sj, j) (pending_rows (cancel_job job_id m)))
      by (apply order_by_in; rewrite O; now left).
    apply in_pending_rows in Hin as (Hsj & Hs & _).
    rewrite (cancelled_not_pending job_id m sj Hsj (eq_sym Hp)) in Hs.
    discriminate.
Qed.

(** X18.  [clear_completed_jobs] deletes the completed jobs and the
    sub-jobs of a completed job, and nothing else; every sub-job that is
    left still has its job if that held before, and the sub-job ids stay
    unique. *)
Theorem clear_completed_keeps_integrity (m : manager) :
  let m' := clear_completed_jobs m in
  (forall j, In j (db_jobs m')
             <-> In j (db_jobs m) /\ j_status j <> completed)
  /\ (forall sj, In sj (db_sub_jobs m')
                 <-> In sj (db_sub_jobs m)
                     /\ forall j, In j (db_jobs m) ->
                                  j_id j = sj_parent_job_id sj ->
                                  j_status j <> completed)
  /\ (referential_integrity m -> referential_integrity m')
  /\ (well_formed m -> well_formed m').
Proof.
  intros m'.
  assert (J : forall j, In j (db_jobs m')
                        <-> In j (db_jobs m) /\ j_status j <> completed).
  { intros j. subst m'. unfold clear_completed_jobs.
    destruct (cache_enabled m); simpl; rewrite filter_In;
      (split; intros [H1 H2]; split; try assumption;
       [intros E; rewrite E in H2; discriminate
       |destruct (status_eqb (j_status j) completed) eqn:E;
        [apply status_eqb_eq in E; contradiction|reflexivity]]). }
  assert (S : forall sj, In sj (db_sub_jobs m')
                 <-> In sj (db_sub_jobs m)
                     /\ forall j, In j (db_jobs m) ->
                                  j_id j = sj_parent_job_id sj ->
                                  j_status j <> completed).
  { intros sj. subst m'. unfold clear_completed_jobs.
    assert (E : forall l : list job_row,
               negb (existsb (fun j => status_eqb (j_status j) completed
                                       && String.eqb (j_id j)
                                            (sj_parent_job_id sj)) l)
               = true
               <-> forall j, In j l -> j_id j = sj_parent_job_id sj ->
                             j_status j <> completed).
    { intros l. rewrite negb_true_iff. split.
      - intros H j Hj Hid Hc.
        assert (existsb (fun j => status_eqb (j_status j) completed
                                  && String.eqb (j_id j)
                                       (sj_parent_job_id sj)) l = true).
        { apply existsb_exists. exists j. split; [assumption|].
          apply andb_true_intro. split;
            [now apply status_eqb_eq|now apply String.eqb_eq]. }
        congruence.
      - intros H. destruct (existsb _ l) eqn:X; [|reflexivity].
        apply existsb_exists in X as [j [Hj Hc]].
        apply andb_prop in Hc as [Hc Hid].
        apply status_eqb_eq in Hc. apply String.eqb_eq in Hid.
        now elim (H j Hj Hid). }
    destruct (cache_enabled m); simpl; rewrite filter_In, E; tauto. }
  split; [exact J|split; [exact S|split]].
  - intros R sj Hsj. apply S in Hsj as [Hsj Hn].
    destruct (R sj Hsj) as [j [Hj Hid]].
    exists j. split; [|assumption]. apply J. split; [assumption|].
    now apply Hn.
  - unfold well_formed. subst m'. unfold clear_completed_jobs.
    destruct (cache_enabled m); simpl; apply NoDup_map_filter.
Qed.

(** ** From a submitted job to its sub-jobs *)

Lemma batch_numbers_length (batches : list string) :
  List.length (batch_numbers batches) = List.length batches.
Proof.
  unfold batch_numbers. rewrite length_combine, length_seq. apply Nat.min_id.
Qed.

Lemma batch_slices_count (frames : list Z) (b : Z) :
  0 < b ->
  Z.of_nat (List.length (batch_slices frames (Z.to_nat b)))
  = (Z.of_nat (List.length frames) + b - 1) / b.
Proof.
  intros Hb. unfold batch_slices, Py.range_step.
  rewrite !length_map, length_seq.
  rewrite Nat2Z.inj_div, Nat2Z.inj_sub, Nat2Z.inj_add, Z2Nat.id by lia.
  reflexivity.
Qed.

(** X26.  When [process_job] succeeds, the frame range parsed and the
    batch size is not 0.  A negative batch size creates no sub-job at
    all.  A positive one appends one pending sub-job per slice of the
    parsed frames, which makes the number of frames divided by the batch
    size, rounded up; the jobs table is not written. *)
Theorem process_job_sub_jobs (job_id : string) (data : job_data)
    (m m' : manager) :
  process_job job_id data m = Some m' ->
  exists frames,
    parse_frame_range (frame_range data) = Some frames
    /\ batch_size data <> 0
    /\ db_jobs m' = db_jobs m
    /\ (batch_size data < 0 -> db_sub_jobs m' = db_sub_jobs m)
    /\ (0 < batch_size data ->
        db_sub_jobs m'
        = db_sub_jobs m
          ++ map (new_sub_job job_id)
                 (batch_numbers
                    (map batch_label
                         (batch_slices frames
                                       (Z.to_nat (batch_size data)))))
        /\ Z.of_nat (List.length (db_sub_jobs m'))
           = Z.of_nat (List.length (db_sub_jobs m))
             + (Z.of_nat (List.length frames) + batch_size data - 1)
               / batch_size data).
Proof.
  unfold process_job, batches_of, batches_of_with.
  fold parse_frame_range.
  destruct (parse_frame_range (frame_range data)) as [frames|] eqn:P;
    [|discriminate].
  unfold create_batches, create_sub_jobs.
  destruct (Z.eqb_spec (batch_size data) 0) as [|Hz]; [discriminate|].
  intros H. exists frames. split; [reflexivity|]. split; [exact Hz|].
  destruct (Z.ltb_spec (batch_size data) 0) as [Hneg|Hpos].
  - simpl in H. injection H as <-. simpl.
    split; [reflexivity|]. split; [reflexivity|]. lia.
  - destruct (insert_sub_jobs job_id _ (db_sub_jobs m)) as [sjs|] eqn:I;
      [|discriminate].
    injection H as <-. simpl.
    apply insert_sub_jobs_spec in I as [-> _].
    split; [reflexivity|]. split; [lia|]. intros Hb.
    split; [reflexivity|].
    rewrite length_app, !length_map, batch_numbers_length, length_map.
    rewrite Nat2Z.inj_add. f_equal. now apply batch_slices_count.
Qed.

Lemma process_job_sub_jobs_witness :
  let data := Scenario.payload "normal" "1-5,9" 4 in
  let m := Scenario.or_init (submit_job "J" 100 data init) in
  let m' := Scenario.or_init (process_job "J" data m) in
  process_job "J" data m = Some m'
  /\ map sj_frame_range (db_sub_jobs m') = ["1-4"; "5-9"]
  /\ exists frames,
       parse_frame_range "1-5,9" = Some frames
       /\ Z.of_nat (List.length (db_sub_jobs m'))
          = 0 + (Z.of_nat (List.length frames) + 4 - 1) / 4.
Proof.
  intros data m m'. split; [reflexivity|]. split; [reflexivity|].
  destruct (process_job_sub_jobs "J" data m m' eq_refl)
    as (frames & P & _ & _ & _ & H).
  exists frames. split; [exact P|].
  destruct H as [_ H]; [reflexivity|]. exact H.
Defined.

(** ** Dicts *)

Section Dicts.

Context {A : Type}.
Implicit Types (d : list (string * A)) (k : string) (v : A).

Lemma get_none k d : Dict.get k d = None <-> ~ In k (map fst d).
Proof.
  unfold Dict.get. induction d as [|[k' v'] d IH]; simpl; [tauto|].
  destruct (String.eqb_spec k' k) as [->|Hne]; simpl.
  - split; [discriminate|]. intros H. exfalso. apply H. now left.
  - rewrite IH. tauto.
Qed.

(** Writing an absent key appends; writing a present one rewrites its
    value in place. *)
Lemma set_shape k v d :
  (Dict.get k d = None /\ Dict.set k v d = d ++ [(k, v)])
  \/ (exists d1 v0 d2,
        d = d1 ++ (k, v0) :: d2 /\ ~ In k (map fst d1)
        /\ Dict.get k d = Some v0
        /\ Dict.set k v d = d1 ++ (k, v) :: d2).
Proof.
  induction d as [|[k' v'] d IH]; simpl.
  - now left.
  - unfold Dict.get. simpl.
    destruct (String.eqb_spec k' k) as [->|Hne].
    + right. exists [], v', d. simpl. tauto.
    + destruct IH as [[G ->]|(d1 & v0 & d2 & -> & Hn & G & ->)].
      * left. split; [exact G|reflexivity].
      * right. exists ((k', v') :: d1), v0, d2. simpl.
        repeat split; try assumption. intros [?|?]; auto.
Qed.

Lemma get_set_same k v d : Dict.get k (Dict.set k v d) = Some v.
Proof.
  unfold Dict.get. induction d as [|[k' v'] d IH]; simpl.
  - now rewrite String.eqb_refl.
  - destruct (String.eqb_spec k' k) as [->|Hne]; simpl.
    + now rewrite String.eqb_refl.
    + destruct (String.eqb_spec k' k); [contradiction|exact IH].
Qed.

Lemma get_set_other k k' v d :
  k' <> k -> Dict.get k' (Dict.set k v d) = Dict.get k' d.
Proof.
  intros Hne. unfold Dict.get. induction d as [|[k0 v0] d IH]; simpl.
  - destruct (String.eqb_spec k k'); [congruence|reflexivity].
  - destruct (String.eqb_spec k0 k) as [->|H0]; simpl.
    + destruct (String.eqb_spec k k'); [congruence|reflexivity].
    + destruct (String.eqb_spec k0 k'); [reflexivity|exact IH].
Qed.

Lemma set_keys k v d :
  NoDup (map fst d) ->
  NoDup (map fst (Dict.set k v d))
  /\ (List.length (Dict.set k v d) <= S (List.length d))%nat.
Proof.
  intros N.
  destruct (set_shape k v d) as [[G ->]|(d1 & v0 & d2 & E & _ & _ & ->)].
  - rewrite map_app, length_app. simpl. split; [|lia].
    apply get_none in G.
    apply (Permutation_NoDup (Permutation_cons_append _ _)).
    now constructor.
  - subst d. rewrite !map_app, !length_app in *. simpl in *.
    split; [assumption|lia].
Qed.

Lemma get_in k v d : Dict.get k d = Some v -> In (k, v) d.
Proof.
  unfold Dict.get. intros H.
  destruct (find _ d) as [[k' v']|] eqn:F; [|discriminate].
  injection H as <-. apply find_some in F as [Hin E].
  apply String.eqb_eq in E. simpl in E. now subst.
Qed.

Lemma remove_shape k d1 v0 d2 :
  ~ In k (map fst d1) -> ~ In k (map fst d2) ->
  Dict.remove k (d1 ++ (k, v0) :: d2) = d1 ++ d2.
Proof.
  intros H1 H2. unfold Dict.remove. rewrite filter_app. simpl.
  rewrite String.eqb_refl. simpl.
  assert (F : forall l : list (string * A),
             ~ In k (map fst l) ->
             filter (fun kv => negb (String.eqb (fst kv) k)) l = l).
  { induction l as [|[k' v'] l IH]; simpl; [reflexivity|].
    intros H. destruct (String.eqb_spec k' k) as [->|Hne]; simpl.
    - exfalso. apply H. now left.
    - rewrite IH; [reflexivity|]. intros ?. apply H. now right. }
  now rewrite !F.
Qed.

(** A present key splits a dict with distinct keys. *)
Lemma get_split k v d :
  NoDup (map fst d) -> Dict.get k d = Some v ->
  exists d1 d2,
    d = d1 ++ (k, v) :: d2 /\ ~ In k (map fst d1) /\ ~ In k (map fst d2).
Proof.
  intros N G. apply get_in, in_split in G as (d1 & d2 & ->).
  exists d1, d2. split; [reflexivity|].
  rewrite map_app in N. simpl in N.
  apply NoDup_remove_2 in N. rewrite in_app_iff in N. tauto.
Qed.

End Dicts.

(** ** Workers *)

Section Workers.

Import WorkerRegistry.

(** X19.  [register_worker] on a table with unique ids leaves exactly
    one row for the worker: online, with the address, host name and
    capabilities given and the current time as heartbeat; ids stay
    unique, the other rows are as before, and the worker cache is left
    alone. *)
Theorem register_worker_upsert (now : Z)
    (worker_id ip_address hostname capabilities : string) (r : registry) :
  NoDup (map w_id (db_workers r)) ->
  let r' := register_worker now worker_id ip_address hostname capabilities r in
  NoDup (map w_id (db_workers r'))
  /\ filter (fun w => String.eqb (w_id w) worker_id) (db_workers r')
     = [mk_worker_row worker_id ip_address hostname online now capabilities]
  /\ filter (fun w => negb (String.eqb (w_id w) worker_id)) (db_workers r')
     = filter (fun w => negb (String.eqb (w_id w) worker_id)) (db_workers r)
  /\ worker_cache r' = worker_cache r.
Proof.
  intros N. simpl.
  set (others := filter (fun w => negb (String.eqb (w_id w) worker_id))
                        (db_workers r)).
  assert (O : forall w, In w others -> String.eqb (w_id w) worker_id = false).
  { intros w Hw. apply filter_In in Hw as [_ Hw].
    now apply negb_true_iff in Hw. }
  repeat split.
  - rewrite map_app. simpl.
    apply (Permutation_NoDup (Permutation_cons_append _ _)).
    constructor.
    + intros Hin. apply in_map_iff in Hin as [w [E Hw]].
      apply O in Hw. apply String.eqb_neq in Hw. contradiction.
    + now apply NoDup_map_filter.
  - rewrite filter_app. simpl. rewrite String.eqb_refl.
    replace (filter _ others) with (@nil worker_row); [reflexivity|].
    symmetry. clear -O. induction others as [|w l IH]; [reflexivity|].
    simpl. rewrite (O w (or_introl eq_refl)). apply IH.
    intros w' Hw'. apply O. now right.
  - rewrite filter_app. simpl. rewrite String.eqb_refl. simpl.
    rewrite app_nil_r. clear -O.
    induction others as [|w l IH]; [reflexivity|].
    simpl. rewrite (O w (or_introl eq_refl)). simpl. f_equal. apply IH.
    intros w' Hw'. apply O. now right.
Qed.

Lemma register_worker_upsert_witness :
  let r := Cases.one_worker in
  let r' := WorkerRegistry.register_worker 50 "w1" "10.0.0.9" "render09"
                                           "nuke,fusion" r in
  NoDup (map WorkerRegistry.w_id (WorkerRegistry.db_workers r))
  /\ WorkerRegistry.db_workers r'
     = [WorkerRegistry.mk_worker_row "w1" "10.0.0.9" "render09"
          WorkerRegistry.online 50 "nuke,fusion"]
  /\ NoDup (map WorkerRegistry.w_id (WorkerRegistry.db_workers r')).
Proof.
  intros r r'.
  assert (N : NoDup (map WorkerRegistry.w_id (WorkerRegistry.db_workers r))).
  { vm_compute. repeat constructor. intros []. }
  split; [exact N|]. split; [reflexivity|].
  apply (register_worker_upsert 50 "w1" "10.0.0.9" "render09" "nuke,fusion"
           r N).
Defined.

Lemma skipn_last {A} (n : nat) (l : list A) (x : A) :
  (n <= List.length l)%nat -> In x (skipn n (l ++ [x])).
Proof.
  intros H. rewrite skipn_app.
  replace (n - List.length l)%nat with 0%nat by lia.
  apply in_or_app. right. now left.
Qed.

Lemma heartbeat_cache (now : Z) (worker_id : string)
    (system_metrics : option (list (string * string))) (r : registry) :
  cache_enabled r = true ->
  worker_cache (worker_heartbeat now worker_id system_metrics r)
  = trim (cache_max_size r)
      (Dict.set worker_id
         (mk_worker_entry now online
            (match system_metrics with Some x => x | None => [] end) now)
         (worker_cache r)).
Proof.
  intros En. unfold worker_heartbeat. rewrite En.
  now destruct (30 <? _).
Qed.

(** X20.  With the cache enabled, after [worker_heartbeat] the worker
    cache holds at most [cache_max_size] entries; and when that bound is
    at least 1 and the cache was within it, [get_online_workers] counts
    at least one worker for the next 60 seconds. *)
Theorem heartbeat_counts_online (now : Z) (worker_id : string)
    (system_metrics : option (list (string * string))) (r : registry) :
  cache_enabled r = true ->
  let r' := worker_heartbeat now worker_id system_metrics r in
  (List.length (worker_cache r') <= cache_max_size r)%nat
  /\ ((1 <= cache_max_size r)%nat ->
      (List.length (worker_cache r) <= cache_max_size r)%nat ->
      forall later, later - now < 60 ->
        (1 <= get_online_workers later r')%nat).
Proof.
  intros En r'. subst r'.
  rewrite (heartbeat_cache now worker_id system_metrics r En).
  set (e := mk_worker_entry now online _ now).
  split.
  - unfold trim. rewrite length_skipn. lia.
  - intros Hmax Hlen later Hl.
    assert (Hin : In (worker_id, e)
                     (trim (cache_max_size r)
                           (Dict.set worker_id e (worker_cache r)))).
    { unfold trim.
      destruct (set_shape worker_id e (worker_cache r))
        as [[_ ->]|(d1 & v0 & d2 & E & _ & _ & ->)].
      - apply skipn_last. rewrite length_app. simpl. lia.
      - replace (_ - _)%nat with 0%nat.
        + simpl. apply in_or_app. right. now left.
        + rewrite E in Hlen. rewrite !length_app in *. simpl in *. lia. }
    unfold get_online_workers, fresh_entries.
    assert (En' : cache_enabled
                    (worker_heartbeat now worker_id system_metrics r) = true).
    { unfold worker_heartbeat. now destruct (30 <? _). }
    rewrite En', (heartbeat_cache now worker_id system_metrics r En).
    fold e.
    set (cache' := trim _ _) in *.
    assert (F : In (worker_id, e)
                   (filter (fun kv => later - e_updated_at (snd kv) <? 60)
                           cache')).
    { apply filter_In. split; [assumption|]. simpl. now apply Z.ltb_lt. }
    destruct cache' as [|kv cache']; [contradiction|].
    destruct (filter _ (kv :: cache')) as [|x l] eqn:Fl; [contradiction|].
    simpl. lia.
Qed.

Lemma heartbeat_counts_online_witness :
  let r := Cases.one_worker in
  let r' := WorkerRegistry.worker_heartbeat 100 "w1" None r in
  WorkerRegistry.cache_enabled r = true
  /\ (List.length (WorkerRegistry.worker_cache r')
      <= WorkerRegistry.cache_max_size r)%nat
  /\ (1 <= WorkerRegistry.get_online_workers 159 r')%nat.
Proof.
  intros r r'.
  destruct (heartbeat_counts_online 100 "w1" None r eq_refl) as [H1 H2].
  split; [reflexivity|]. split; [exact H1|].
  apply H2.
  - apply Nat.leb_le. reflexivity.
  - apply Nat.leb_le. reflexivity.
  - reflexivity.
Defined.

(** X21.  After a heartbeat that wrote to the table, a heartbeat of the
    same worker at most 30 seconds later writes nothing to the table and
    does not move the time of the last write; one more than 30 seconds
    later leaves every row of the worker online with that time as
    heartbeat. *)
Theorem heartbeat_rate_limit (first second : Z) (worker_id : string)
    (metrics1 metrics2 : option (list (string * string))) (r : registry) :
  30 < first - match Dict.get worker_id (last_db_heartbeat r) with
               | Some t => t
               | None => 0
               end ->
  let r1 := worker_heartbeat first worker_id metrics1 r in
  let r2 := worker_heartbeat second worker_id metrics2 r1 in
  (second - first <= 30 ->
   db_workers r2 = db_workers r1
   /\ last_db_heartbeat r2 = last_db_heartbeat r1)
  /\ (30 < second - first ->
      forall w, In w (db_workers r2) -> w_id w = worker_id ->
                w_last_heartbeat w = second /\ w_status w = online).
Proof.
  intros H1 r1 r2.
  assert (L : Dict.get worker_id (last_db_heartbeat r1) = Some first).
  { subst r1. unfold worker_heartbeat.
    apply Z.ltb_lt in H1. rewrite H1. simpl. apply get_set_same. }
  split.
  - intros H2. subst r2. unfold worker_heartbeat at 1 2. rewrite L.
    destruct (Z.ltb_spec 30 (second - first)); [lia|]. now split.
  - intros H2 w Hin Hid. subst r2. revert Hin.
    unfold worker_heartbeat at 1. rewrite L.
    apply Z.ltb_lt in H2. rewrite H2. simpl.
    intros Hin. apply in_update in Hin as [w0 [_ ->]].
    destruct (String.eqb (w_id w0) worker_id) eqn:E; [now split|].
    apply String.eqb_neq in E. contradiction.
Qed.

Lemma heartbeat_rate_limit_witness :
  let r := Cases.one_worker in
  let r1 := WorkerRegistry.worker_heartbeat 100 "w1" None r in
  let r2 := WorkerRegistry.worker_heartbeat 120 "w1" None r1 in
  30 < 100 - match Dict.get "w1" (WorkerRegistry.last_db_heartbeat r) with
             | Some t => t
             | None => 0
             end
  /\ map WorkerRegistry.w_last_heartbeat (WorkerRegistry.db_workers r1)
     = [100]
  /\ WorkerRegistry.db_workers r2 = WorkerRegistry.db_workers r1
  /\ WorkerRegistry.last_db_heartbeat r2
     = WorkerRegistry.last_db_heartbeat r1.
Proof.
  intros r r1 r2. split; [reflexivity|]. split; [reflexivity|].
  apply (heartbeat_rate_limit 100 120 "w1" None None r eq_refl).
  vm_compute. intros; discriminate.
Defined.

(** X25.  [stop_worker] and [remove_worker] write to the table only: the
    table query counts no row of the worker afterwards, but the worker
    cache is as before, so that with the cache enabled and a fresh entry
    in it [get_online_workers] returns the same count as if the worker
    had never been stopped or removed. *)
Theorem stopped_worker_still_counted (now : Z) (worker_id : string)
    (r : registry) :
  (forall w, In w (online_rows now (stop_worker worker_id r)) ->
             w_id w <> worker_id)
  /\ (forall w, In w (db_workers (remove_worker worker_id r)) ->
                w_id w <> worker_id)
  /\ worker_cache (stop_worker worker_id r) = worker_cache r
  /\ worker_cache (remove_worker worker_id r) = worker_cache r
  /\ (cache_enabled r = true -> fresh_entries now r <> [] ->
      get_online_workers now (stop_worker worker_id r)
      = List.length (fresh_entries now r)
      /\ get_online_workers now (remove_worker worker_id r)
         = List.length (fresh_entries now r)).
Proof.
  split; [|split; [|split; [reflexivity|split; [reflexivity|]]]].
  - intros w Hin. unfold online_rows in Hin.
    apply filter_In in Hin as [Hin Hs]. simpl in Hin.
    apply in_update in Hin as [w0 [_ ->]].
    destruct (String.eqb (w_id w0) worker_id) eqn:E.
    + simpl in Hs. discriminate.
    + now apply String.eqb_neq.
  - intros w Hin. simpl in Hin. apply filter_In in Hin as [_ Hne].
    apply negb_true_iff in Hne. now apply String.eqb_neq.
  - intros En Hf.
    assert (G : forall r', cache_enabled r' = true ->
                           worker_cache r' = worker_cache r ->
                           get_online_workers now r'
                           = List.length (fresh_entries now r)).
    { intros r' En' Ec. unfold get_online_workers, fresh_entries.
      rewrite En', Ec.
      unfold fresh_entries in Hf.
      destruct (worker_cache r) as [|kv d]; [now elim Hf|].
      destruct (filter _ (kv :: d)) as [|x l]; [now elim Hf|].
      reflexivity. }
    split; apply G; assumption || reflexivity.
Qed.

End Workers.

(** ** The asset cache *)

Section Assets.

Import AssetCache.

Let total (entries : list (string * string)) : Z :=
  fold_right (fun kv acc => size (snd kv) + acc) 0 entries.

Lemma total_app (l1 l2 : list (string * string)) :
  total (l1 ++ l2) = total l1 + total l2.
Proof. induction l1 as [|kv l1 IH]; simpl; [reflexivity|]. rewrite IH. lia. Qed.

Lemma size_nonneg (data : string) : 0 <= size data.
Proof. unfold size. lia. Qed.

(** The eviction loop leaves a suffix of the cache, accounted for, and
    stops as soon as the new file fits or nothing is left. *)
Lemma evict_for_spec (file_size limit : Z) (entries : list (string * string))
    (current : Z) (times : list (string * Z)) :
  current = total entries ->
  exists dropped kept times',
    evict_for file_size limit entries current times
    = (kept, total kept, times')
    /\ entries = dropped ++ kept
    /\ (kept = [] \/ total kept + file_size <= limit).
Proof.
  revert current times.
  induction entries as [|[p d] rest IH]; intros current times E; simpl.
  - exists [], [], times. subst. simpl. auto.
  - destruct (Z.ltb_spec limit (current + file_size)).
    + destruct (IH (current - size d) (Dict.remove p times))
        as (dropped & kept & times' & -> & -> & Hfit).
      { subst. simpl. lia. }
      exists ((p, d) :: dropped), kept, times'. auto.
    + exists [], ((p, d) :: rest), times. subst current.
      repeat split. right. assumption.
Qed.

Lemma move_to_end_total (k : string) (d : list (string * string)) :
  NoDup (map fst d) ->
  total (Dict.move_to_end k d) = total d
  /\ NoDup (map fst (Dict.move_to_end k d)).
Proof.
  intros N. unfold Dict.move_to_end.
  destruct (Dict.get k d) as [v|] eqn:G; [|now split].
  destruct (get_split k v d N G) as (d1 & d2 & -> & H1 & H2).
  rewrite remove_shape by assumption.
  rewrite !total_app. simpl. split; [lia|].
  rewrite !map_app in *. simpl in *.
  apply (Permutation_NoDup (l := k :: map fst d1 ++ map fst d2)).
  - apply Permutation_cons_append.
  - apply (Permutation_NoDup (Permutation_sym (Permutation_middle _ _ _))).
    exact N.
Qed.

(** X22.  [get_file] keeps the books of the asset cache: [current_size]
    is the sum of the sizes of the cached files, it does not exceed
    [max_size_bytes], which never changes, and no path is cached
    twice. *)
Theorem asset_cache_stays_accounted (fs : string -> option string)
    (now : Z) (file_path : string) (c : asset_cache) :
  accounted c ->
  let c' := snd (get_file fs now file_path c) in
  accounted c' /\ max_size_bytes c' = max_size_bytes c.
Proof.
  intros (S & L & N). unfold get_file.
  destruct (Dict.get file_path (cache c)) as [data|] eqn:G; simpl.
  - destruct (move_to_end_total file_path (cache c) N) as [T N'].
    unfold total in T. unfold accounted. simpl.
    repeat split; try assumption. now rewrite T.
  - destruct (fs file_path) as [data|]; simpl; [|now repeat split].
    unfold _add_to_cache.
    destruct (Z.ltb_spec (max_size_bytes c) (2 * size data));
      [now repeat split|].
    destruct (evict_for_spec (size data) (max_size_bytes c) (cache c)
                (current_size c) (access_times c) S)
      as (dropped & kept & times' & -> & E & Hfit).
    simpl. unfold accounted. simpl.
    change (fold_right (fun kv acc => size (snd kv) + acc) 0)
      with total.
    assert (Gk : Dict.get file_path kept = None).
    { apply get_none. apply get_none in G. rewrite E, map_app in G.
      intros Hin. apply G. apply in_or_app. now right. }
    destruct (set_shape file_path data kept)
      as [[_ ->]|(d1 & v0 & d2 & _ & _ & G' & _)]; [|congruence].
    rewrite total_app. simpl.
    pose proof (size_nonneg data).
    repeat split; try lia.
    + destruct Hfit as [->|Hfit]; simpl; lia.
    + rewrite E, map_app in N. apply NoDup_app_remove_l in N.
      rewrite map_app. simpl.
      apply (Permutation_NoDup (Permutation_cons_append _ _)).
      constructor; [|assumption]. now apply get_none.
Qed.

Lemma asset_cache_stays_accounted_witness :
  let c := snd (AssetCache.get_file Cases.disk 5 "plate.exr"
                                    (AssetCache.init 1)) in
  let c' := snd (AssetCache.get_file Cases.disk 9 "plate.exr" c) in
  accounted c /\ AssetCache.current_size c = 4
  /\ accounted c'
  /\ AssetCache.max_size_bytes c' = AssetCache.max_size_bytes c.
Proof.
  intros c c'.
  assert (A : accounted c).
  { split; [reflexivity|]. split.
    - vm_compute. intros; discriminate.
    - vm_compute. repeat constructor. intros []. }
  split; [exact A|]. split; [reflexivity|].
  apply (asset_cache_stays_accounted Cases.disk 9 "plate.exr" c A).
Defined.

(** X23.  A miss on a readable file returns its content and counts one
    miss.  A file larger than half the capacity is not cached.  Any other
    file is: the next [get_file] of the path returns the same content,
    whatever the file system holds by then, and counts one hit and no
    further miss. *)
Theorem asset_cache_hit_after_miss (fs fs' : string -> option string)
    (now later : Z) (file_path data : string) (c : asset_cache) :
  Dict.get file_path (cache c) = None ->
  fs file_path = Some data ->
  let c1 := snd (get_file fs now file_path c) in
  fst (get_file fs now file_path c) = Some data
  /\ miss_count c1 = S (miss_count c)
  /\ (max_size_bytes c < 2 * size data -> cache c1 = cache c)
  /\ (2 * size data <= max_size_bytes c ->
      fst (get_file fs' later file_path c1) = Some data
      /\ hit_count (snd (get_file fs' later file_path c1))
         = S (hit_count c)
      /\ miss_count (snd (get_file fs' later file_path c1))
         = S (miss_count c)).
Proof.
  intros G F c1.
  assert (E1 : get_file fs now file_path c
               = (Some data,
                  let c' := _add_to_cache now file_path data c in
                  mk_asset_cache (cache c') (max_size_bytes c')
                                 (current_size c') (access_times c')
                                 (hit_count c') (S (miss_count c')))).
  { unfold get_file. now rewrite G, F. }
  subst c1. rewrite E1. cbn [fst snd]. cbv zeta.
  unfold _add_to_cache.
  destruct (Z.ltb_spec (max_size_bytes c) (2 * size data)) as [Hbig|Hfit].
  - split; [reflexivity|]. split; [reflexivity|].
    split; [reflexivity|]. intros H. lia.
  - destruct (evict_for _ _ _ _ _) as [[entries current] times] eqn:E.
    cbn [cache max_size_bytes current_size access_times hit_count
         miss_count].
    split; [reflexivity|]. split; [reflexivity|].
    split; [intros H; lia|]. intros _.
    unfold get_file.
    cbn [cache max_size_bytes current_size access_times hit_count
         miss_count].
    rewrite get_set_same. cbn [fst snd hit_count miss_count].
    repeat split.
Qed.

Lemma asset_cache_hit_after_miss_witness :
  let c := AssetCache.init 1 in
  let c1 := snd (AssetCache.get_file Cases.disk 5 "plate.exr" c) in
  let gone := fun _ : string => @None string in
  Dict.get "plate.exr" (AssetCache.cache c) = None
  /\ Cases.disk "plate.exr" = Some "abcd"
  /\ fst (AssetCache.get_file gone 9 "plate.exr" c1) = Some "abcd"
  /\ AssetCache.hit_count (snd (AssetCache.get_file gone 9 "plate.exr" c1))
     = 1%nat.
Proof.
  intros c c1 gone. split; [reflexivity|]. split; [reflexivity|].
  destruct (asset_cache_hit_after_miss Cases.disk gone 5 9 "plate.exr"
              "abcd" c eq_refl eq_refl) as (_ & _ & _ & H).
  destruct H as (H1 & H2 & _).
  - vm_compute. intros; discriminate.
  - split; [exact H1 | exact H2].
Defined.

End Assets.

(** ** The render buffer pool *)

Section Buffers.

Import RenderBufferPool.

(** Buffers tracked after an operation, against those tracked before:
    [made] are new, [gone] are dropped. *)
Lemma pool_ok_step (p p' : pool) (made gone : list nat) :
  pool_ok p ->
  max_buffers p' = max_buffers p ->
  (List.length (available_buffers p') + List.length (in_use_buffers p')
   <= max_buffers p)%nat ->
  Permutation (made ++ available_buffers p ++ map snd (in_use_buffers p))
              (gone ++ available_buffers p'
               ++ map snd (in_use_buffers p')) ->
  NoDup made -> Forall (fun b => (created p <= b < created p')%nat) made ->
  (created p <= created p')%nat ->
  NoDup (map fst (in_use_buffers p')) ->
  pool_ok p'.
Proof.
  intros (L & N & F & K) Hmax Hlen P Nm Fm Hc K'.
  unfold pool_ok. rewrite Hmax. repeat split; try assumption.
  - assert (N0 : NoDup (made ++ available_buffers p
                        ++ map snd (in_use_buffers p))).
    { apply NoDup_app; try assumption.
      intros b Hb Hin. rewrite Forall_forall in F, Fm.
      specialize (F b Hin). specialize (Fm b Hb). lia. }
    apply (Permutation_NoDup P) in N0.
    now apply NoDup_app_remove_l in N0.
  - assert (F0 : Forall (fun b => (b < created p')%nat)
                        (made ++ available_buffers p
                         ++ map snd (in_use_buffers p))).
    { apply Forall_app. split.
      - eapply Forall_impl; [|exact Fm]. simpl. intros; lia.
      - eapply Forall_impl; [|exact F]. simpl. intros; lia. }
    apply (Permutation_Forall P) in F0.
    now apply Forall_app in F0 as [_ F0].
Qed.

Lemma set_values (job_id : string) (b : nat) (d : list (string * nat)) :
  exists gone,
    Permutation (b :: map snd d) (gone ++ map snd (Dict.set job_id b d))
    /\ (List.length (Dict.set job_id b d) + List.length gone
        = S (List.length d))%nat.
Proof.
  destruct (set_shape job_id b d)
    as [[_ ->]|(d1 & v0 & d2 & -> & _ & _ & ->)].
  - exists []. rewrite map_app, length_app. simpl. split; [|lia].
    apply Permutation_cons_append.
  - exists [v0]. rewrite !map_app, !length_app. simpl. split; [|lia].
    etransitivity; [apply perm_skip, Permutation_sym, Permutation_middle|].
    etransitivity; [apply perm_swap|].
    apply perm_skip, Permutation_middle.
Qed.

(** X24.  [get_buffer], [return_buffer] and [cleanup] keep the pool
    sound: it tracks at most [max_buffers] buffers, each one made by the
    pool, none both available and in use or in use by two jobs.  A buffer
    that [get_buffer] hands out is registered under the job, is no longer
    available, and is held by no other job. *)
Theorem buffer_pool_stays_sound (can_create : bool) (job_id : string)
    (p : pool) :
  pool_ok p ->
  pool_ok (snd (get_buffer can_create job_id p))
  /\ pool_ok (return_buffer job_id p)
  /\ pool_ok (cleanup p)
  /\ (forall b, fst (get_buffer can_create job_id p) = Some b ->
        let p' := snd (get_buffer can_create job_id p) in
        Dict.get job_id (in_use_buffers p') = Some b
        /\ ~ In b (available_buffers p')
        /\ forall other, Dict.get other (in_use_buffers p') = Some b ->
                         other = job_id).
Proof.
  intros OK.
  assert (G : pool_ok (snd (get_buffer can_create job_id p))).
  { pose proof OK as (L & N & F & K). unfold get_buffer.
    destruct (rev (available_buffers p)) as [|buffer others] eqn:R.
    - assert (A : available_buffers p = [])
        by (rewrite <- (rev_involutive (available_buffers p)), R;
            reflexivity).
      destruct (Nat.ltb_spec (List.length (in_use_buffers p))
                             (max_buffers p)); [|exact OK].
      destruct can_create; [|exact OK]. simpl.
      destruct (set_values job_id (created p) (in_use_buffers p))
        as (gone & P & Hl).
      apply (pool_ok_step p _ [created p] gone); simpl;
        try assumption; try reflexivity; try lia.
      + rewrite A. simpl. exact P.
      + repeat constructor. intros [].
      + repeat constructor; lia.
      + now apply set_keys.
    - assert (A : available_buffers p = rev others ++ [buffer])
        by (rewrite <- (rev_involutive (available_buffers p)), R;
            reflexivity).
      simpl.
      destruct (set_values job_id buffer (in_use_buffers p))
        as (gone & P & Hl).
      apply (pool_ok_step p _ [] gone); simpl;
        try assumption; try reflexivity; try lia.
      + rewrite A, length_app in L. simpl in L. lia.
      + rewrite A, <- app_assoc. simpl.
        etransitivity; [apply Permutation_app_head, P|].
        apply Permutation_app_swap_app.
      + constructor.
      + constructor.
      + now apply set_keys. }
  split; [exact G|]. split; [|split].
  - pose proof OK as (L & N & F & K). unfold return_buffer.
    destruct (Dict.get job_id (in_use_buffers p)) as [b|] eqn:E;
      [|exact OK].
    destruct (get_split job_id b _ K E) as (d1 & d2 & Ed & H1 & H2).
    apply (pool_ok_step p _ [] []); simpl; try reflexivity; try lia.
    + exact OK.
    + rewrite Ed, remove_shape by assumption.
      rewrite Ed in L. rewrite !length_app in *. simpl in *. lia.
    + rewrite Ed, remove_shape by assumption.
      rewrite !map_app. simpl. rewrite <- app_assoc. simpl.
      apply Permutation_app_head. apply Permutation_sym.
      apply Permutation_middle.
    + constructor.
    + constructor.
    + unfold Dict.remove. now apply NoDup_map_filter.
  - destruct OK as (L & N & F & K). unfold pool_ok, cleanup. simpl.
    repeat split; try constructor. lia.
  - intros b Hb p'. subst p'.
    destruct G as (_ & N' & _ & K').
    assert (S : Dict.get job_id
                  (in_use_buffers (snd (get_buffer can_create job_id p)))
                = Some b).
    { revert Hb. unfold get_buffer.
      destruct (rev (available_buffers p)) as [|buffer others].
      - destruct (_ <? _)%nat; [|discriminate].
        destruct can_create; [|discriminate].
        simpl. intros [= <-]. apply get_set_same.
      - simpl. intros [= <-]. apply get_set_same. }
    split; [exact S|]. split.
    + intros Hin. apply get_in in S.
      apply (in_map snd) in S. simpl in S.
      revert N' Hin S. clear.
      generalize (available_buffers (snd (get_buffer can_create job_id p))).
      generalize (map snd (in_use_buffers
                             (snd (get_buffer can_create job_id p)))).
      intros vals avail N Hin S.
      induction avail as [|a avail IH]; [contradiction|].
      simpl in N. inversion N as [|? ? Hnot N0]; subst.
      destruct Hin as [->|Hin]; [|now apply IH].
      apply Hnot. apply in_or_app. now right.
    + intros other O. apply get_in in S, O.
      apply NoDup_app_remove_l in N'.
      assert (E : (other, b) = (job_id, b)).
      { apply (unique_key snd
                 (in_use_buffers (snd (get_buffer can_create job_id p))));
          auto. }
      congruence.
Qed.

Lemma buffer_pool_stays_sound_witness :
  let p := Cases.used_pool in
  let p' := snd (RenderBufferPool.get_buffer true "C" p) in
  pool_ok p
  /\ fst (RenderBufferPool.get_buffer true "C" p) = Some 0%nat
  /\ pool_ok p'
  /\ Dict.get "C" (RenderBufferPool.in_use_buffers p') = Some 0%nat
  /\ ~ In 0%nat (RenderBufferPool.available_buffers p').
Proof.
  intros p p'.
  assert (P : pool_ok p).
  { split; [vm_compute; lia|]. split; [|split].
    - vm_compute. repeat constructor; simpl; intuition discriminate.
    - vm_compute. repeat constructor.
    - vm_compute. repeat constructor. intros []. }
  split; [exact P|]. split; [reflexivity|].
  destruct (buffer_pool_stays_sound true "C" p P) as (H1 & _ & _ & H2).
  split; [exact H1|].
  destruct (H2 0%nat eq_refl) as (H3 & H4 & _).
  split; [exact H3 | exact H4].
Defined.

End Buffers.

(** ** Pausing *)

Section Pausing.

Variables (now : Z) (worker_id : string).

(** A pending sub-job whose job is in store is found by the ordering
    query, and a pull then hands out something. *)
Lemma pending_is_dispatched (m : manager) (sj : sub_job_row) (j : job_row) :
  In sj (db_sub_jobs m) -> sj_status sj = pending ->
  In j (db_jobs m) -> j_id j = sj_parent_job_id sj ->
  In (sj, j) (pending_rows m)
  /\ fst (get_next_job now worker_id m) <> None.
Proof.
  intros Hsj Hs Hj Hid.
  assert (Hin : In (sj, j) (pending_rows m))
    by (apply in_pending_rows; auto).
  split; [assumption|]. intros N.
  apply get_next_job_none in N as [_ E].
  rewrite E in Hin. contradiction.
Qed.

(** A pull served from the store writes to the row it hands out and, of
    the jobs, only to a pending one. *)
Lemma store_pull_rows (m m' : manager)
    (id parent frames : string) (data : job_data) :
  get_next_job now worker_id m = (Some (FromStore id parent frames data), m')
  ->
  (forall r, In r (db_sub_jobs m') -> sj_id r = id ->
             sj_status r = running /\ sj_worker_id r = Some worker_id)
  /\ (forall j', In j' (db_jobs m') ->
        exists j, In j (db_jobs m) /\ j_id j' = j_id j
                  /\ (j_status j <> pending -> j' = j)).
Proof.
  intros H.
  apply store_pull_inversion in H
    as (sj & j & rest & _ & -> & -> & _ & _ & Hs & Hj).
  rewrite Hs, Hj. split.
  - intros r Hin Hid. apply in_update in Hin as [r0 [_ ->]].
    destruct (String.eqb (sj_id r0) (sj_id sj)) eqn:E; [now split|].
    apply String.eqb_neq in E. contradiction.
  - intros j' Hin. apply in_update in Hin as [j0 [Hin0 ->]].
    exists j0. split; [assumption|].
    destruct (String.eqb _ _); [|now split]. simpl.
    destruct (status_eqb (j_status j0) pending) eqn:E; [|now split].
    apply status_eqb_eq in E. split; [reflexivity|]. contradiction.
Qed.

(** A pause that rewrites running sub-jobs, and job rows without
    touching what the query reads, leaves the pending sub-jobs to the
    next pull. *)
Lemma pause_keeps_pending (m m' : manager) (relabel : job_row -> job_row)
    (scope : sub_job_row -> bool) :
  (forall j, j_id (relabel j) = j_id j) ->
  (forall j, j_priority (relabel j) = j_priority j) ->
  (forall j, j_created_at (relabel j) = j_created_at j) ->
  (forall j, j_job_data (relabel j) = j_job_data j) ->
  job_cache m' = job_cache m -> cache_enabled m' = cache_enabled m ->
  db_jobs m' = map relabel (db_jobs m) ->
  db_sub_jobs m'
  = update (fun sj => scope sj && status_eqb (sj_status sj) running)
           (fun sj => set_sj_status sj paused) (db_sub_jobs m) ->
  (forall sj j,
     In sj (db_sub_jobs m) -> sj_status sj = pending ->
     In j (db_jobs m) -> j_id j = sj_parent_job_id sj ->
     In sj (db_sub_jobs m')
     /\ In (sj, relabel j) (pending_rows m')
     /\ fst (get_next_job now worker_id m') <> None)
  /\ map fst (order_by (pending_rows m'))
     = map fst (order_by (pending_rows m))
  /\ fst (get_next_job now worker_id m') = fst (get_next_job now worker_id m).
Proof.
  intros R1 R2 R3 R4 Hc He Hj Hs.
  assert (P : filter (fun sj => status_eqb (sj_status sj) pending)
                     (db_sub_jobs m')
              = filter (fun sj => status_eqb (sj_status sj) pending)
                       (db_sub_jobs m)).
  { rewrite Hs. apply filter_update. intros r Hr.
    apply andb_prop in Hr as [_ Hr]. apply status_eqb_eq in Hr.
    simpl. now rewrite Hr. }
  split; [|split].
  - intros sj j Hsj Hp Hin Hid.
    assert (Hsj' : In sj (db_sub_jobs m')).
    { assert (F : In sj (filter (fun sj => status_eqb (sj_status sj) pending)
                                (db_sub_jobs m')))
        by (rewrite P; apply filter_In; split;
            [assumption|now apply status_eqb_eq]).
      now apply filter_In in F. }
    assert (Hin' : In (relabel j) (db_jobs m'))
      by (rewrite Hj; now apply in_map).
    split; [assumption|].
    apply pending_is_dispatched; try assumption. now rewrite R1.
  - now apply (ordered_pending_relabel relabel).
  - now apply (get_next_job_relabel relabel).
Qed.

(** C10.  [pause_job] turns the running sub-jobs of the job to paused and
    leaves every other sub-job row as it is; the job row becomes paused;
    the cache is not touched.  A sub-job that was pending, of the paused
    job or of another one, is still in store as it was, is still found
    by the ordering query, and the next [get_next_job] hands out
    something: exactly what it would have handed out without the pause.
    In particular, when the cache holds nothing pending and the first
    pending sub-job in the order belongs to the paused job, the pull
    returns that sub-job and marks it running for the caller, while the
    job stays paused.  [pause_all_jobs] does the same to the running
    sub-jobs and the running jobs of the whole store. *)
Theorem pause_leaves_pending_selectable (job_id : string) (m : manager) :
  let of_job sj := String.eqb (sj_parent_job_id sj) job_id in
  let the_job j := String.eqb (j_id j) job_id in
  let any_sub_job (_ : sub_job_row) := true in
  let running_job j := status_eqb (j_status j) running in
  (Forall2 (paused_sub_job of_job)
           (db_sub_jobs m) (db_sub_jobs (pause_job job_id m))
   /\ Forall2 (paused_job the_job) (db_jobs m) (db_jobs (pause_job job_id m))
   /\ job_cache (pause_job job_id m) = job_cache m
   /\ (forall sj j,
         In sj (db_sub_jobs m) -> sj_status sj = pending ->
         In j (db_jobs m) -> j_id j = sj_parent_job_id sj ->
         In sj (db_sub_jobs (pause_job job_id m))
         /\ (exists j', In (sj, j') (pending_rows (pause_job job_id m))
                        /\ j_job_data j' = j_job_data j)
         /\ fst (get_next_job now worker_id (pause_job job_id m)) <> None)
   /\ map fst (order_by (pending_rows (pause_job job_id m)))
      = map fst (order_by (pending_rows m))
   /\ fst (get_next_job now worker_id (pause_job job_id m))
      = fst (get_next_job now worker_id m)
   /\ (cache_exhausted m = true ->
       forall sj j rest,
         order_by (pending_rows m) = (sj, j) :: rest ->
         sj_parent_job_id sj = job_id ->
         let out := get_next_job now worker_id (pause_job job_id m) in
         fst out = Some (FromStore (sj_id sj) job_id (sj_frame_range sj)
                                   (j_job_data j))
         /\ (forall r, In r (db_sub_jobs (snd out)) -> sj_id r = sj_id sj ->
                       sj_status r = running
                       /\ sj_worker_id r = Some worker_id)
         /\ (forall j', In j' (db_jobs (snd out)) -> j_id j' = job_id ->
                        j_status j' = paused)))
  /\ (Forall2 (paused_sub_job any_sub_job)
              (db_sub_jobs m) (db_sub_jobs (pause_all_jobs m))
      /\ Forall2 (paused_job running_job)
                 (db_jobs m) (db_jobs (pause_all_jobs m))
      /\ job_cache (pause_all_jobs m) = job_cache m
      /\ (forall sj j,
            In sj (db_sub_jobs m) -> sj_status sj = pending ->
            In j (db_jobs m) -> j_id j = sj_parent_job_id sj ->
            In sj (db_sub_jobs (pause_all_jobs m))
            /\ (exists j', In (sj, j') (pending_rows (pause_all_jobs m))
                           /\ j_job_data j' = j_job_data j)
            /\ fst (get_next_job now worker_id (pause_all_jobs m)) <> None)
      /\ map fst (order_by (pending_rows (pause_all_jobs m)))
         = map fst (order_by (pending_rows m))
      /\ fst (get_next_job now worker_id (pause_all_jobs m))
         = fst (get_next_job now worker_id m)).
Proof.
  intros of_job the_job any_sub_job running_job.
  pose proof (pause_keeps_pending m (pause_job job_id m)
                (fun j => if the_job j then set_j_status j paused else j)
                of_job) as P1.
  destruct P1 as (K1 & O1 & G1); try reflexivity;
    try (intros j; unfold the_job; now destruct (String.eqb _ _)).
  pose proof (pause_keeps_pending m (pause_all_jobs m)
                (fun j => if running_job j then set_j_status j paused else j)
                any_sub_job) as P2.
  destruct P2 as (K2 & O2 & G2); try reflexivity;
    try (intros j; unfold running_job; now destruct (status_eqb _ _)).
  split.
  - split; [|split; [|split; [reflexivity|split; [|split; [|split]]]]].
    + apply update_rows. intros r _. reflexivity.
    + apply update_rows. intros r _. reflexivity.
    + intros sj j Hsj Hs Hj Hid.
      destruct (K1 sj j Hsj Hs Hj Hid) as (A & B & C).
      split; [assumption|]. split; [|assumption].
      eexists. split; [exact B|]. unfold the_job.
      now destruct (String.eqb _ _).
    + exact O1.
    + exact G1.
    + intros X sj j rest O Hp out. subst out.
      assert (F : fst (get_next_job now worker_id (pause_job job_id m))
                  = Some (FromStore (sj_id sj) job_id (sj_frame_range sj)
                                    (j_job_data j))).
      { rewrite G1, (get_next_job_store_path now worker_id m X), O.
        now rewrite Hp. }
      split; [exact F|].
      assert (E : get_next_job now worker_id (pause_job job_id m)
                  = (Some (FromStore (sj_id sj) job_id (sj_frame_range sj)
                                     (j_job_data j)),
                     snd (get_next_job now worker_id (pause_job job_id m))))
        by (rewrite <- F; apply surjective_pairing).
      destruct (store_pull_rows _ _ _ _ _ _ E) as [S J].
      split; [exact S|].
      intros j' Hin Hid.
      destruct (J j' Hin) as (j0 & Hin0 & Hk & Hsame).
      simpl in Hin0. apply in_update in Hin0 as [j1 [_ ->]].
      destruct (String.eqb (j_id j1) job_id) eqn:Eb.
      * rewrite Hsame by (simpl; discriminate). reflexivity.
      * apply String.eqb_neq in Eb. simpl in Hk. congruence.
  - split; [|split; [|split; [reflexivity|split; [|split]]]].
    + apply update_rows. intros r _. reflexivity.
    + apply update_rows. intros r _. reflexivity.
    + intros sj j Hsj Hs Hj Hid.
      destruct (K2 sj j Hsj Hs Hj Hid) as (A & B & C).
      split; [assumption|]. split; [|assumption].
      eexists. split; [exact B|]. unfold running_job.
      now destruct (status_eqb _ _).
    + exact O2.
    + exact G2.
Qed.

End Pausing.

Lemma pause_leaves_pending_selectable_witness :
  let m0 := mk_manager (db_jobs Scenario.one_job)
                       (db_sub_jobs Scenario.one_job) [] 1000 false None in
  let m := snd (get_next_job 101 "w1" m0) in
  let out := get_next_job 103 "w2" (pause_job "A" m) in
  Scenario.status_of "A_batch_001" m = Some running
  /\ Scenario.status_of "A_batch_002" m = Some pending
  /\ Scenario.status_of "A_batch_001" (pause_job "A" m) = Some paused
  /\ Scenario.job_status_of "A" (pause_job "A" m) = Some paused
  /\ fst out = Some (FromStore "A_batch_002" "A" "3-4"
                               (Scenario.payload "normal" "1-4" 2))
  /\ (forall r, In r (db_sub_jobs (snd out)) -> sj_id r = "A_batch_002" ->
                sj_status r = running /\ sj_worker_id r = Some "w2")
  /\ (forall j', In j' (db_jobs (snd out)) -> j_id j' = "A" ->
                 j_status j' = paused).
Proof.
  intros m0 m out.
  split; [reflexivity|]. split; [reflexivity|]. split; [reflexivity|].
  split; [reflexivity|].
  destruct (pause_leaves_pending_selectable 103 "w2" "A" m)
    as ((_ & _ & _ & _ & _ & _ & H) & _).
  apply (H eq_refl
           (mk_sub_job_row "A_batch_002" "A" 2 "3-4" pending None None None
                           None)
           (mk_job_row "A" "shot" "nuke" running 0 "normal"
                       (Scenario.payload "normal" "1-4" 2) 100 (Some 101)
                       None)
           []); reflexivity.
Defined.

(** The pending batch of a paused job is handed to the next worker, and
    the job stays paused while that batch runs. *)
Example paused_job_still_dispatched :
  fst Scenario.pull_after_pause = Some "A_batch_002"
  /\ Scenario.job_status_of "A" (snd Scenario.pull_after_pause) = Some paused
  /\ Scenario.status_of "A_batch_001" (snd Scenario.pull_after_pause)
     = Some paused
  /\ Scenario.status_of "A_batch_002" (snd Scenario.pull_after_pause)
     = Some running.
Proof. repeat split; reflexivity. Qed.
